(** * avito-edu: a verified reading of the teaching programs

    The repository is a set of independent Go teaching programs.  This
    development embeds the ones the specification talks about and proves
    the specification's claims about them.

    Part I holds the embedding (one module per source file), Part II the
    lemmas and theorems about the specification's claims, Part III
    further properties of the embedded programs.

    Conventions of the embedding
    - Go's [int] is the 64-bit two's-complement integer: a [Z] with the
      wrap-around written out ([GoInt.wrap]).
    - A slice of ints is a [list Z]; [result[i] = x] on an in-range index is
      stdpp's [<[i:=x]>].
    - A Go function that prints and may panic is a computation in the
      monad [Go.M]: standard output is threaded as a list of lines and a
      panic is an outcome of its own, which only [recover] turns back
      into a value.
    - Goroutines are interleaved by an explicit schedule: a list of
      events, each naming the thread that takes the next atomic step.  A
      thread that cannot move (blocked, finished, not yet started) leaves
      the state as it is. *)

From stdpp Require Import base numbers list gmap strings pretty.
From Stdlib Require Import ZArith Lia Ascii.

Open Scope Z_scope.

(* ===================================================================== *)
(** * Part I: the embedding                                               *)
(* ===================================================================== *)

(** ** Go's [int] *)
Module GoInt.

Definition min_int : Z := - 2 ^ 63.
Definition max_int : Z := 2 ^ 63 - 1.

Definition in_range (z : Z) : Prop := min_int <= z <= max_int.

(** Two's-complement wrap-around of a mathematical result. *)
Definition wrap (z : Z) : Z := (z + 2 ^ 63) mod 2 ^ 64 - 2 ^ 63.

Definition add (a b : Z) : Z := wrap (a + b).
Definition mul (a b : Z) : Z := wrap (a * b).

(** [a / b] for [b <> 0]: the quotient truncated toward zero; the one
    overflowing case, [min_int / -1], wraps back to [min_int]. *)
Definition quot (a b : Z) : Z := wrap (Z.quot a b).

(** [a % b] for [b <> 0]: the remainder with the dividend's sign. *)
Definition rem (a b : Z) : Z := Z.rem a b.

End GoInt.

(** ** Interleaving by schedules *)
Module Sched.

(** The state after the threads named by [sched] took one atomic step
    each, in that order. *)
Definition run {S E : Type} (step : E -> S -> S) (sched : list E) (s : S) : S :=
  foldl (fun s e => step e s) s sched.

End Sched.

(** ** Sequential Go with standard output and panics *)
Module Go.

Inductive outcome (A : Type) : Type :=
| Returned (a : A)
| Panicked (v : string).
Arguments Returned {A} a.
Arguments Panicked {A} v.

(** A computation maps the lines printed so far to its outcome and the
    lines printed when it stops. *)
Definition M (A : Type) : Type := list string -> outcome A * list string.

Definition ret {A} (a : A) : M A := fun out => (Returned a, out).

Definition bind {A B} (m : M A) (k : A -> M B) : M B :=
  fun out =>
    match m out with
    | (Returned a, out') => k a out'
    | (Panicked v, out') => (Panicked v, out')
    end.

(** [panic(v)] with a string value. *)
Definition panic {A} (v : string) : M A := fun out => (Panicked v, out).

(** [fmt.Println] of one already formatted line. *)
Definition Println (line : string) : M unit :=
  fun out => (Returned tt, out ++ [line]).

(** A function with named results and one deferred closure that calls
    [recover()].  The body either executes [return r], which stores [r]
    in the named results, or panics, which leaves them at [zero] (the
    bodies embedded here assign to no named result before panicking).
    The deferred closure then runs with what [recover()] returns, [None]
    standing for nil, and may update the named results; the function
    returns them. *)
Definition with_deferred_recover {R} (zero : R) (body : M R)
    (deferred : option string -> R -> M R) : M R :=
  fun out =>
    match body out with
    | (Returned r, out') => deferred None r out'
    | (Panicked v, out') => deferred (Some v) zero out'
    end.

(** Running a program from an empty standard output. *)
Definition run {A} (m : M A) : outcome A * list string := m [].

(** Calling [f] on each input in turn, as a loop over a slice does. *)
Fixpoint for_each {A B} (f : A -> M B) (xs : list A) : M (list B) :=
  match xs with
  | [] => ret []
  | x :: xs' => bind (f x) (fun y => bind (for_each f xs') (fun ys => ret (y :: ys)))
  end.

End Go.

(** [Go.M] is a monad in stdpp's sense, which gives the notations
    [x ← m; k] and [m;; k]. *)
#[global] Instance go_ret : MRet Go.M := @Go.ret.
#[global] Instance go_bind : MBind Go.M := fun A B k m => Go.bind m k.

(** [%d] / [%v] of an int: its decimal representation. *)
Definition itoa (z : Z) : string := pretty z.

(** ** src/unnamed/part_001 (second program): [divide] and its [main] *)
Module Divide.

(** [func divide(a, b int) int] *)
Definition divide (a b : Z) : Go.M Z :=
  if b =? 0 then Go.panic "division by zero"
  else Go.ret (GoInt.quot a b).

(** [func main() { fmt.Println(divide(10, 0)) }] *)
Definition main : Go.M unit :=
  q ← divide 10 0; Go.Println (itoa q).

End Divide.

(** ** src/07-select/main.go (second program): [safeDivide] and its [main] *)
Module SafeDivide.

(** Go's [error] built by [fmt.Errorf]: its message. *)
Definition error : Type := string.

(** The body of [safeDivide] below its [defer] statement. *)
Definition body (a b : Z) : Go.M (Z * option error) :=
  if b =? 0 then Go.panic "division by zero"
  else Go.ret (GoInt.quot a b, None).

(** The deferred closure: [if r := recover(); r != nil { ... }]. *)
Definition deferred (r : option string) (res : Z * option error)
    : Go.M (Z * option error) :=
  match r with
  | Some v =>
      Go.Println ("Recovered from panic: " +:+ v);;
      Go.ret (fst res, Some ("error: " +:+ v))
  | None => Go.ret res
  end.

(** The frame of [safeDivide]: the named results [(result, err)] start
    at [(0, nil)] and the deferred closure is installed before the body
    runs. *)
Definition recovered (body : Go.M (Z * option error)) : Go.M (Z * option error) :=
  Go.with_deferred_recover (0, None) body deferred.

(** [func safeDivide(a, b int) (result int, err error)] *)
Definition safeDivide (a b : Z) : Go.M (Z * option error) :=
  recovered (body a b).

(** [func main()] *)
Definition main : Go.M unit :=
  r ← safeDivide 10 0;
  match snd r with
  | Some err => Go.Println ("Error: " +:+ err)
  | None => Go.Println ("Result: " +:+ itoa (fst r))
  end.

(** The error a recovered panic with value [v] becomes. *)
Definition task_error (v : string) : error := "error: " +:+ v.

(** What one call must yield, read off its own arguments only. *)
Definition expected (ab : Z * Z) : Z * option error :=
  if snd ab =? 0 then (0, Some (task_error "division by zero"))
  else (GoInt.quot (fst ab) (snd ab), None).

(** A batch of divisions run one after the other, each through
    [safeDivide], and for comparison through the unprotected
    [Divide.divide]. *)
Definition run_all (tasks : list (Z * Z)) : Go.M (list (Z * option error)) :=
  Go.for_each (fun ab => safeDivide (fst ab) (snd ab)) tasks.

Definition run_all_unprotected (tasks : list (Z * Z)) : Go.M (list Z) :=
  Go.for_each (fun ab => Divide.divide (fst ab) (snd ab)) tasks.

End SafeDivide.

(** ** src/05-how-to-use/main.go: the slice helpers *)
Module HowToUse.

(** [func filter(slice []int, predicate func(int) bool) []int]: the
    result starts as the nil slice and grows by [append]. *)
Definition filter (slice : list Z) (predicate : Z -> bool) : list Z :=
  foldl (fun result value => if predicate value then result ++ [value] else result)
        [] slice.

(** [for i, value := range slice]: the index/value pairs in order. *)
Definition range (slice : list Z) : list (nat * Z) :=
  imap (fun i value => (i, value)) slice.

(** [func mapSlice(slice []int, transform func(int) int) []int]:
    [make([]int, len(slice))], then [result[i] = transform(value)]. *)
Definition mapSlice (slice : list Z) (transform : Z -> Z) : list Z :=
  foldl (fun result iv => <[fst iv := transform (snd iv)]> result)
        (replicate (length slice) 0) (range slice).

(** [func reduce(slice []int, accumulator func(int, int) int, initial int) int] *)
Definition reduce (slice : list Z) (accumulator : Z -> Z -> Z) (initial : Z) : Z :=
  foldl accumulator initial slice.

(** The closures [main] and [pipeline] pass. *)
Definition is_even (x : Z) : bool := GoInt.rem x 2 =? 0.
Definition double (x : Z) : Z := GoInt.mul x 2.
Definition square (x : Z) : Z := GoInt.mul x x.

(** [func pipeline(slice []int) int] *)
Definition pipeline (slice : list Z) : Z :=
  let filtered := filter slice is_even in
  let transformed := mapSlice filtered double in
  reduce transformed GoInt.add 0.

(** *** [parallelProcessing]

    [func parallelProcessing(slice []int, worker func(int) int) []int]
    starts one goroutine per element and waits for all of them on a
    [sync.WaitGroup].  Its threads are the function's own (the loop,
    then [wg.Wait()], then [return result]) and the goroutines, named by
    the index [i] they were started with. *)
Inductive pp_event : Type :=
| Main
| Goroutine (i : nat).

#[global] Instance pp_event_eq_dec : EqDecision pp_event.
Proof. solve_decision. Defined.

Record pp_state : Type := PP {
  pp_next : nat;              (* the loop's next index *)
  pp_wg : nat;                (* the WaitGroup counter *)
  pp_pool : gmap nat Z;       (* started goroutines that have not run: i to v *)
  pp_result : list Z;         (* the result slice *)
  pp_calls : list nat;        (* the calls of worker made so far, by index *)
  pp_returned : bool          (* parallelProcessing has returned *)
}.

(** [var wg sync.WaitGroup; result := make([]int, len(slice))] *)
Definition pp_init (slice : list Z) : pp_state :=
  PP 0 0 ∅ (replicate (length slice) 0) [] false.

Definition pp_step (slice : list Z) (worker : Z -> Z) (e : pp_event)
    (s : pp_state) : pp_state :=
  match e with
  | Main =>
      if pp_returned s then s
      else
        match slice !! pp_next s with
        | Some v =>
            (* wg.Add(1); go func(i, v int) {...}(i, v) *)
            PP (S (pp_next s)) (S (pp_wg s)) (<[pp_next s := v]> (pp_pool s))
               (pp_result s) (pp_calls s) false
        | None =>
            (* wg.Wait(); return result *)
            if decide (pp_wg s = 0%nat)
            then PP (pp_next s) (pp_wg s) (pp_pool s) (pp_result s) (pp_calls s) true
            else s
        end
  | Goroutine i =>
      match pp_pool s !! i with
      | Some v =>
          (* result[i] = worker(v), then the deferred wg.Done() *)
          PP (pp_next s) (Nat.pred (pp_wg s)) (delete i (pp_pool s))
             (<[i := worker v]> (pp_result s)) (pp_calls s ++ [i]) (pp_returned s)
      | None => s
      end
  end.

Definition pp_run (slice : list Z) (worker : Z -> Z) (sched : list pp_event)
    : pp_state :=
  Sched.run (pp_step slice worker) sched (pp_init slice).

(** What the caller gets under a schedule: the result slice once the
    function has returned, nothing while it has not. *)
Definition parallelProcessing (slice : list Z) (worker : Z -> Z)
    (sched : list pp_event) : option (list Z) :=
  let s := pp_run slice worker sched in
  if pp_returned s then Some (pp_result s) else None.

(** A schedule that starts every goroutine, lets the goroutines named by
    [order] run, and then lets the function reach [wg.Wait()]. *)
Definition pp_schedule (n : nat) (order : list nat) : list pp_event :=
  replicate n Main ++ (Goroutine <$> order) ++ [Main].

(** What holds of every state the function can reach. *)
Record pp_inv (slice : list Z) (worker : Z -> Z) (s : pp_state) : Prop := {
  pp_inv_length : length (pp_result s) = length slice;
  pp_inv_next : (pp_next s <= length slice)%nat;
  pp_inv_wg : pp_wg s = size (pp_pool s);
  pp_inv_pool : forall i v, pp_pool s !! i = Some v ->
                  (i < pp_next s)%nat /\ slice !! i = Some v;
  pp_inv_done : forall i, (i < pp_next s)%nat -> pp_pool s !! i = None ->
                  pp_result s !! i = worker <$> slice !! i;
  pp_inv_calls : forall i, i ∈ pp_calls s <->
                  ((i < pp_next s)%nat /\ pp_pool s !! i = None);
  pp_inv_calls_nodup : NoDup (pp_calls s);
  pp_inv_returned : pp_returned s = true ->
                  pp_next s = length slice /\ pp_wg s = 0%nat
}.

End HowToUse.

(** ** src/07-errors/main.go: a buffered channel as a semaphore

    [exampleDataRace] and [exampleSyncBestPractices] start goroutines that
    send into a buffered channel before they work and receive from it when
    they are done, so the channel's capacity bounds how many of them work
    at a time. *)
Module SyncErrors.

(** The atomic steps of a goroutine. *)
Inductive instr : Type :=
| Send (v : Z)           (* ch <- v: blocks while the buffer is full *)
| Recv                   (* <-ch: blocks while the buffer is empty *)
| Load                   (* counter++, first half: read counter *)
| Store                  (* counter++, second half: write the sum back *)
| Print (line : string)  (* fmt.Println *)
| Sleep                  (* time.Sleep *)
| WgDone.                (* the deferred wg.Done() *)

Record goroutine : Type := Gor {
  code : list instr;       (* the steps still to take *)
  tmp : Z                  (* the value counter++ has read *)
}.

(** What the two functions differ in. *)
Record config : Type := Config {
  capacity : nat;              (* make(chan int, capacity) *)
  tasks : nat;                 (* the loop's bound *)
  prog : nat -> list instr;    (* the closure started as goroutine i *)
  report : Z -> string         (* the line printed after wg.Wait() *)
}.

Record state : Type := St {
  next : nat;                  (* the loop's next index *)
  wg : nat;                    (* the WaitGroup counter *)
  gors : list goroutine;       (* the goroutines started so far *)
  chan : list Z;               (* the channel's buffer *)
  counter : Z;                 (* the shared counter *)
  out : list string;           (* standard output *)
  returned : bool              (* the function has returned *)
}.

Inductive event : Type :=
| Main
| Goroutine (i : nat).

Definition init : state := St 0 0 [] [] 0 [] false.

(** Goroutine [i] goes on with [rest] and [t]. *)
Definition advance (i : nat) (rest : list instr) (t : Z) (s : state)
    : list goroutine :=
  <[i := Gor rest t]> (gors s).

Definition step (cfg : config) (e : event) (s : state) : state :=
  match e with
  | Main =>
      if returned s then s
      else if decide (next s < tasks cfg)%nat then
        (* wg.Add(1); go func() {...}() *)
        St (S (next s)) (S (wg s)) (gors s ++ [Gor (prog cfg (next s)) 0])
           (chan s) (counter s) (out s) false
      else if decide (wg s = 0%nat) then
        (* wg.Wait() is over; fmt.Println(...) *)
        St (next s) (wg s) (gors s) (chan s) (counter s)
           (out s ++ [report cfg (counter s)]) true
      else s
  | Goroutine i =>
      match gors s !! i with
      | Some (Gor (ins :: rest) t) =>
          match ins with
          | Send v =>
              if decide (length (chan s) < capacity cfg)%nat then
                St (next s) (wg s) (advance i rest t s) (chan s ++ [v])
                   (counter s) (out s) (returned s)
              else s
          | Recv =>
              match chan s with
              | [] => s
              | _ :: chan' =>
                  St (next s) (wg s) (advance i rest t s) chan'
                     (counter s) (out s) (returned s)
              end
          | Load =>
              St (next s) (wg s) (advance i rest (counter s) s) (chan s)
                 (counter s) (out s) (returned s)
          | Store =>
              St (next s) (wg s) (advance i rest t s) (chan s)
                 (GoInt.add t 1) (out s) (returned s)
          | Print line =>
              St (next s) (wg s) (advance i rest t s) (chan s)
                 (counter s) (out s ++ [line]) (returned s)
          | Sleep =>
              St (next s) (wg s) (advance i rest t s) (chan s)
                 (counter s) (out s) (returned s)
          | WgDone =>
              St (next s) (Nat.pred (wg s)) (advance i rest t s) (chan s)
                 (counter s) (out s) (returned s)
          end
      | _ => s
      end
  end.

Definition run (cfg : config) (sched : list event) : state :=
  Sched.run (step cfg) sched init.

(** The closure of [exampleDataRace]: [ch <- 1; counter++; <-ch] and the
    deferred [wg.Done()]. *)
Definition race_prog : list instr := [Send 1; Load; Store; Recv; WgDone].

(** [func exampleDataRace()] with its two constants, the channel's
    capacity and the number of goroutines, as parameters. *)
Definition dataRace (cap n : nat) : config :=
  Config cap n (fun _ => race_prog) (fun c => "Counter: " +:+ itoa c).

(** The function as written: [make(chan int, 1)] and ten goroutines. *)
Definition exampleDataRace : config := dataRace 1 10.

(** [func exampleSyncBestPractices()] with its two constants, the
    channel's capacity and the number of tasks, as parameters: goroutine
    [i] does [ch <- i], prints, sleeps, and its deferred calls receive
    from the channel and then call [wg.Done()]. *)
Definition syncBestPractices (cap n : nat) : config :=
  Config cap n
         (fun i => [Send (Z.of_nat i);
                    Print ("Processing task " +:+ itoa (Z.of_nat i));
                    Sleep; Recv; WgDone])
         (fun _ => "All tasks processed").

(** The function as written: [make(chan int, 5)] and ten tasks. *)
Definition exampleSyncBestPractices : config := syncBestPractices 5 10.

(** Where a goroutine stands relative to the channel: it is in its
    section when its send is behind it and its receive still ahead. *)
Definition is_chan_op (ins : instr) : bool :=
  match ins with Send _ | Recv => true | _ => false end.

Definition plain (c : list instr) : bool := forallb (fun ins => negb (is_chan_op ins)) c.

Fixpoint in_section (c : list instr) : bool :=
  match c with
  | [] => false
  | Recv :: rest => plain rest
  | Send _ :: _ => false
  | _ :: rest => in_section rest
  end.

Definition before_section (c : list instr) : bool :=
  match c with
  | Send _ :: rest => in_section rest
  | _ => false
  end.

Definition well_formed (c : list instr) : bool :=
  before_section c || in_section c || plain c.

(** The execution-overlap counter: how many goroutines are in their
    section. *)
Definition active (gs : list goroutine) : nat :=
  length (List.filter (fun g => in_section (code g)) gs).

Definition executing (s : state) : nat := active (gors s).

(** Counting the goroutines of a kind. *)
Definition count (f : goroutine -> bool) (gs : list goroutine) : nat :=
  length (List.filter f gs).

(** Where a goroutine of [exampleDataRace] stands: it has written the
    counter back, it is done, it has read the counter and not written
    yet. *)
Definition stored (g : goroutine) : bool :=
  match code g with
  | [Recv; WgDone] | [WgDone] | [] => true
  | _ => false
  end.

Definition finished (g : goroutine) : bool :=
  match code g with [] => true | _ => false end.

Definition loaded (g : goroutine) : bool :=
  match code g with Store :: _ => true | _ => false end.

(** What holds of every reachable state of [dataRace 1 n]. *)
Record race_inv (n : nat) (s : state) : Prop := {
  race_phase : Forall (fun g => exists k, (k <= 5)%nat /\ code g = drop k race_prog)
                      (gors s);
  race_counter : counter s = Z.of_nat (count stored (gors s));
  race_tmp : forall i g, gors s !! i = Some g -> loaded g = true -> tmp g = counter s;
  race_wg : wg s = count (fun g => negb (finished g)) (gors s);
  race_next : next s = length (gors s) /\ (next s <= n)%nat;
  race_out : out s = if returned s then [report (dataRace 1 n) (Z.of_nat n)] else [];
  race_returned : returned s = true -> next s = n /\ wg s = 0%nat
}.

(** What holds of every reachable state when the programs are well
    formed. *)
Record inv (cfg : config) (s : state) : Prop := {
  inv_wf : Forall (fun g => well_formed (code g) = true) (gors s);
  inv_chan : length (chan s) = active (gors s);
  inv_cap : (length (chan s) <= capacity cfg)%nat
}.

End SyncErrors.

(** ** src/08-context/main.go: cancellation through a context

    A context made by [context.WithCancel] or [context.WithTimeout]
    carries the cancellation token: [Err()] is nil while the context is
    active and [Done()] is closed from the moment it is not. *)
Module Context.

Inductive ctx_err : Type :=
| Canceled            (* context.Canceled *)
| DeadlineExceeded.   (* context.DeadlineExceeded *)

(** The token: what [Err()] returns, [None] for nil. *)
Definition token : Type := option ctx_err.

(** [Done()] is closed. *)
Definition done (c : token) : bool :=
  match c with Some _ => true | None => false end.

(** Cancelling with a reason: a context that is already cancelled keeps
    its state and its reason. *)
Definition cancel_with (e : ctx_err) (c : token) : token :=
  match c with
  | Some _ => c
  | None => Some e
  end.

(** The [cancel] function that [WithCancel] and [WithTimeout] return. *)
Definition cancel (c : token) : token := cancel_with Canceled c.

(** The steps of the function that owns the context. *)
Inductive instr : Type :=
| Spawn (i : nat)      (* go func(ctx context.Context) {...}(ctx) *)
| Sleep                (* time.Sleep *)
| Cancel.              (* cancel(), called or deferred *)

(** A goroutine that waits in [select { case <-ctx.Done(): ... }]. *)
Inductive status : Type :=
| Waiting
| Printed.

Record state : Type := St {
  ctx : token;
  has_deadline : bool;          (* the context came from WithTimeout *)
  code : list instr;            (* the owner's steps still to take *)
  gors : gmap nat status;       (* the goroutines started so far *)
  out : list string             (* standard output *)
}.

Inductive event : Type :=
| Main
| Goroutine (i : nat)
| Timer.                        (* the deadline passes *)

(** The line goroutine [i] prints once it sees the context cancelled. *)
Definition line (i : nat) : string :=
  "Горутина " +:+ itoa (Z.of_nat i) +:+ ": Контекст отменен".

Definition step (e : event) (s : state) : state :=
  match e with
  | Main =>
      match code s with
      | [] => s
      | Spawn i :: rest =>
          St (ctx s) (has_deadline s) rest (<[i := Waiting]> (gors s)) (out s)
      | Sleep :: rest =>
          St (ctx s) (has_deadline s) rest (gors s) (out s)
      | Cancel :: rest =>
          St (cancel (ctx s)) (has_deadline s) rest (gors s) (out s)
      end
  | Goroutine i =>
      match gors s !! i with
      | Some Waiting =>
          if done (ctx s)
          then St (ctx s) (has_deadline s) (code s) (<[i := Printed]> (gors s))
                  (out s ++ [line i])
          else s
      | _ => s
      end
  | Timer =>
      if has_deadline s
      then St (cancel_with DeadlineExceeded (ctx s)) true (code s) (gors s) (out s)
      else s
  end.

(** A function that makes a context and then takes the steps [prog]. *)
Definition start (deadline : bool) (prog : list instr) : state :=
  St None deadline prog ∅ [].

Definition run (deadline : bool) (prog : list instr) (sched : list event) : state :=
  Sched.run step sched (start deadline prog).

(** [func exampleContextPassing()]: [WithCancel], the deferred
    [cancel()] last, since it runs when the function returns. *)
Definition exampleContextPassing : list instr :=
  [Spawn 1; Spawn 2; Sleep; Cancel; Sleep; Cancel].

(** The same function with its second [cancel()] left out. *)
Definition exampleContextPassing_once : list instr :=
  [Spawn 1; Spawn 2; Sleep; Cancel; Sleep; Sleep].

(** What an observer of the run can see: the token, the goroutines and
    the output. *)
Definition observable (s : state) : token * gmap nat status * list string :=
  (ctx s, gors s, out s).

(** [repeated b prog prog']: [prog'] is [prog] with some calls of
    [cancel()] left out, each of them a repeated one: it stands behind
    an earlier call of [cancel()] in [prog], or [b] says that the context
    is cancelled already. *)
Inductive repeated : bool -> list instr -> list instr -> Prop :=
| repeated_nil b : repeated b [] []
| repeated_cancel b prog prog' :
    repeated true prog prog' -> repeated b (Cancel :: prog) (Cancel :: prog')
| repeated_spawn b i prog prog' :
    repeated b prog prog' -> repeated b (Spawn i :: prog) (Spawn i :: prog')
| repeated_sleep b prog prog' :
    repeated b prog prog' -> repeated b (Sleep :: prog) (Sleep :: prog')
| repeated_skip prog prog' :
    repeated true prog prog' -> repeated true (Cancel :: prog) (Sleep :: prog').

(** Two runs that differ in repeated cancellations only. *)
Record similar (s s' : state) : Prop := {
  similar_ctx : ctx s = ctx s';
  similar_deadline : has_deadline s = has_deadline s';
  similar_gors : gors s = gors s';
  similar_out : out s = out s';
  similar_code : repeated (done (ctx s)) (code s) (code s')
}.

End Context.

(** ** The bounded task runner of the specification

    The repository has no runner: the specification describes one as the
    design its concurrency examples point toward.  What the repository's
    code does not contain is modelled here from the specification's words
    (its sections 3 to 5 and 7), with the pieces the code does have kept
    as they are there: result slots made up front and written by index as
    in [parallelProcessing], a panic turned into the task's own error as
    in [safeDivide], a cancellation token that is set once as in
    [Context.cancel]. *)
Module Runner.

Section Model.

Context {A B : Type}.

(** Modelled from the spec: a task function, "a pure function from
    input to (output, error)", which may also panic. *)
Inductive task_outcome : Type :=
| Output (b : B)
| Error (msg : string)
| Panics (v : string).

(** Modelled from the spec: the Task, an input and the function to
    apply to it; its submission index is its position in the list. *)
Record Task : Type := { input : A; fn : A -> task_outcome }.

(** Modelled from the spec: what a result slot can record. *)
Inductive result : Type :=
| Completed (b : B)
| TaskError (msg : string)
| Cancelled.

(** Modelled from the spec: the errors of a run. *)
Inductive run_error : Type :=
| ErrTimeout
| ErrCancelled.

(** Modelled from the spec: executing one task at the worker boundary;
    "a panic during task execution is recovered locally, converted into
    a task-level error". *)
Definition execute (t : Task) : result :=
  match fn t (input t) with
  | Output b => Completed b
  | Error msg => TaskError msg
  | Panics v => TaskError (SafeDivide.task_error v)
  end.

(** Modelled from the spec: a worker loops "dequeue, execute, record
    result, repeat until queue closed or cancellation observed". *)
Inductive worker : Type :=
| Idle
| Busy (i : nat)
| Exited.

(** Modelled from the spec: the state of a run, namely the FIFO queue of
    submitted indices, the worker pool, the result slots "pre-sized to
    the number of submitted tasks", and the cancellation token.
    [started] logs every delivery of a task to a worker. *)
Record state : Type := St {
  queue : list nat;
  workers : list worker;
  slots : list (option result);
  token : bool;
  started : list (nat * nat)      (* worker, task index *)
}.

Inductive event : Type :=
| Worker (w : nat)       (* worker w takes its next step *)
| Cancel.                (* cancellation is triggered *)

Definition init (tasks : list Task) (workerCount : nat) : state :=
  St (seq 0 (length tasks)) (replicate workerCount Idle)
     (replicate (length tasks) None) false [].

(** Modelled from the spec: one atomic step.  An idle worker checks the
    token "before dequeuing again; if cancelled, it exits without
    dequeuing further tasks"; it also exits on the closed, empty queue.
    A busy worker finishes its task and records the result in the
    task's own slot.  Triggering cancellation sets the token. *)
Definition step (tasks : list Task) (e : event) (s : state) : state :=
  match e with
  | Cancel => St (queue s) (workers s) (slots s) true (started s)
  | Worker w =>
      match workers s !! w with
      | Some Idle =>
          if token s
          then St (queue s) (<[w := Exited]> (workers s)) (slots s) (token s) (started s)
          else
            match queue s with
            | [] => St [] (<[w := Exited]> (workers s)) (slots s) (token s) (started s)
            | i :: q =>
                St q (<[w := Busy i]> (workers s)) (slots s) (token s)
                   (started s ++ [(w, i)])
            end
      | Some (Busy i) =>
          match tasks !! i with
          | Some t =>
              St (queue s) (<[w := Idle]> (workers s))
                 (<[i := Some (execute t)]> (slots s)) (token s) (started s)
          | None => s
          end
      | _ => s
      end
  end.

Definition all_filled (s : state) : bool :=
  forallb (fun o => match o with Some _ => true | None => false end) (slots s).

Definition is_busy (w : worker) : bool :=
  match w with Busy _ => true | _ => false end.

Definition busy_count (s : state) : nat :=
  length (List.filter is_busy (workers s)).

(** Cancellation has been observed and no task is in flight. *)
Definition wound_down (s : state) : bool :=
  token s && forallb (fun w => negb (is_busy w)) (workers s).

Definition running (s : state) : bool :=
  negb (all_filled s) && negb (wound_down s).

(** Modelled from the spec: the Runner "blocks while waiting for all
    result slots to be filled or for cancellation/timeout".  One event
    of the schedule happens per tick of the clock; when the schedule is
    used up nothing happens any more.  The loop returns the state it
    stopped in, the run's error and the ticks it took. *)
Fixpoint wait (tasks : list Task) (timeout : nat) (sched : list event)
    (ticks : nat) (s : state) : state * option run_error * nat :=
  if all_filled s then (s, None, ticks)
  else if wound_down s then (s, Some ErrCancelled, ticks)
  else
    match timeout with
    | O => (s, Some ErrTimeout, ticks)
    | S timeout' =>
        match sched with
        | [] => wait tasks timeout' [] (S ticks) s
        | e :: sched' => wait tasks timeout' sched' (S ticks) (step tasks e s)
        end
    end.

(** Modelled from the spec: "individual incomplete tasks marked
    Cancelled". *)
Definition finalize (s : state) : list result :=
  (fun o => match o with Some r => r | None => Cancelled end) <$> slots s.

(** Modelled from the spec:
    [Run(tasks []Task, workerCount int, timeout Duration) -> ([]Result, error)],
    under the schedule [sched] of its workers and of the caller's
    cancellation. *)
Definition Run (tasks : list Task) (workerCount timeout : nat)
    (sched : list event) : list result * option run_error :=
  let r := wait tasks timeout sched 0 (init tasks workerCount) in
  (finalize (fst (fst r)), snd (fst r)).

(** The state after the first [t] ticks, and the ticks a run takes. *)
Definition state_at (tasks : list Task) (workerCount : nat)
    (sched : list event) (t : nat) : state :=
  Sched.run (step tasks) (take t sched) (init tasks workerCount).

Definition ticks_taken (tasks : list Task) (workerCount timeout : nat)
    (sched : list event) : nat :=
  snd (wait tasks timeout sched 0 (init tasks workerCount)).

(** The tasks that were delivered to a worker, in order of delivery. *)
Definition delivered (s : state) : list nat := snd <$> started s.

(** What holds of every reachable state. *)
Record inv (tasks : list Task) (s : state) : Prop := {
  inv_slots : length (slots s) = length tasks;
  inv_queue : exists k, (k <= length tasks)%nat /\
                queue s = seq k (length tasks - k) /\
                delivered s = seq 0 k;
  inv_busy : forall w i, workers s !! w = Some (Busy i) -> i ∈ delivered s;
  inv_filled : forall i r, slots s !! i = Some (Some r) ->
                i ∈ delivered s /\ exists t, tasks !! i = Some t /\ r = execute t
}.

End Model.

Arguments task_outcome : clear implicits.
Arguments Task : clear implicits.
Arguments result : clear implicits.

(** The doubling task of the specification's example. *)
Definition double_task (x : Z) : Task Z Z :=
  {| input := x; fn := fun v => Output (HowToUse.double v) |}.

Definition panicking_task : Task Z Z :=
  {| input := 0; fn := fun _ => Panics "boom" |}.

(** Two workers that take turns. *)
Fixpoint round_robin (n : nat) : list event :=
  match n with
  | O => []
  | S n' => Worker 0 :: Worker 1 :: round_robin n'
  end.

End Runner.

(** ** Go strings as bytes, and UTF-8 as [unicode/utf8] reads it

    A Go string is a sequence of bytes, valid UTF-8 or not.
    [encoding/json] reads and writes the text of strings through
    [utf8.DecodeRune] and [utf8.AppendRune], which are embedded here with
    their masks and shifts. *)
Module Utf8.

(** The bytes of a string and back. *)
Definition byte_of (c : ascii) : Z := Z.of_N (N_of_ascii c).
Definition char_of (b : Z) : ascii := ascii_of_N (Z.to_N b).

Definition bytes (s : string) : list Z := byte_of <$> String.list_ascii_of_string s.
Definition of_bytes (p : list Z) : string := String.string_of_list_ascii (char_of <$> p).

Definition is_byte (b : Z) : Prop := 0 <= b < 256.

Definition RuneError : Z := 0xFFFD.
Definition MaxRune : Z := 0x10FFFF.

(** What the first byte of an encoding announces ([first] and
    [acceptRanges] of the library): the length of the encoding and the
    range the second byte must lie in; [None] for ASCII and for bytes
    that start no encoding. *)
Definition first (p0 : Z) : option (nat * (Z * Z)) :=
  if (0xC2 <=? p0) && (p0 <=? 0xDF) then Some (2%nat, (0x80, 0xBF))
  else if p0 =? 0xE0 then Some (3%nat, (0xA0, 0xBF))
  else if (0xE1 <=? p0) && (p0 <=? 0xEC) then Some (3%nat, (0x80, 0xBF))
  else if p0 =? 0xED then Some (3%nat, (0x80, 0x9F))
  else if (0xEE <=? p0) && (p0 <=? 0xEF) then Some (3%nat, (0x80, 0xBF))
  else if p0 =? 0xF0 then Some (4%nat, (0x90, 0xBF))
  else if (0xF1 <=? p0) && (p0 <=? 0xF3) then Some (4%nat, (0x80, 0xBF))
  else if p0 =? 0xF4 then Some (4%nat, (0x80, 0x8F))
  else None.

Definition continuation (b : Z) : bool := (0x80 <=? b) && (b <=? 0xBF).

(** [utf8.DecodeRune]: the first rune of [p] and the bytes it takes; an
    encoding that is invalid or cut short yields [(RuneError, 1)], the
    empty input [(RuneError, 0)]. *)
Definition DecodeRune (p : list Z) : Z * nat :=
  match p with
  | [] => (RuneError, 0%nat)
  | p0 :: rest =>
      match first p0 with
      | None => if p0 <? 0x80 then (p0, 1%nat) else (RuneError, 1%nat)
      | Some (sz, (lo, hi)) =>
          match rest with
          | [] => (RuneError, 1%nat)
          | b1 :: rest1 =>
              if negb ((lo <=? b1) && (b1 <=? hi)) then (RuneError, 1%nat)
              else if (sz <=? 2)%nat then
                (Z.lor (Z.shiftl (Z.land p0 0x1F) 6) (Z.land b1 0x3F), 2%nat)
              else
                match rest1 with
                | [] => (RuneError, 1%nat)
                | b2 :: rest2 =>
                    if negb (continuation b2) then (RuneError, 1%nat)
                    else if (sz <=? 3)%nat then
                      (Z.lor (Z.lor (Z.shiftl (Z.land p0 0x0F) 12)
                                    (Z.shiftl (Z.land b1 0x3F) 6))
                             (Z.land b2 0x3F), 3%nat)
                    else
                      match rest2 with
                      | [] => (RuneError, 1%nat)
                      | b3 :: _ =>
                          if negb (continuation b3) then (RuneError, 1%nat)
                          else
                            (Z.lor (Z.lor (Z.lor (Z.shiftl (Z.land p0 0x07) 18)
                                                 (Z.shiftl (Z.land b1 0x3F) 12))
                                          (Z.shiftl (Z.land b2 0x3F) 6))
                                   (Z.land b3 0x3F), 4%nat)
                      end
                end
          end
      end
  end.

(** [byte(x)]: the conversion keeps the low eight bits. *)
Definition to_byte (x : Z) : Z := Z.land x 0xFF.

(** [utf8.AppendRune] to the empty slice: the encoding of [r]; a
    surrogate or a value out of range is encoded as [RuneError]. *)
Definition three_bytes (r : Z) : list Z :=
  [Z.lor 0xE0 (to_byte (Z.shiftr r 12));
   Z.lor 0x80 (Z.land (to_byte (Z.shiftr r 6)) 0x3F);
   Z.lor 0x80 (Z.land (to_byte r) 0x3F)].

Definition EncodeRune (r : Z) : list Z :=
  if (0 <=? r) && (r <=? 0x7F) then [to_byte r]
  else if (0 <=? r) && (r <=? 0x7FF) then
    [Z.lor 0xC0 (to_byte (Z.shiftr r 6)); Z.lor 0x80 (Z.land (to_byte r) 0x3F)]
  else if (r <? 0) || (MaxRune <? r) || ((0xD800 <=? r) && (r <=? 0xDFFF)) then
    three_bytes RuneError
  else if r <=? 0xFFFF then three_bytes r
  else
    [Z.lor 0xF0 (to_byte (Z.shiftr r 18));
     Z.lor 0x80 (Z.land (to_byte (Z.shiftr r 12)) 0x3F);
     Z.lor 0x80 (Z.land (to_byte (Z.shiftr r 6)) 0x3F);
     Z.lor 0x80 (Z.land (to_byte r) 0x3F)].

(** The loop [for i < len(s) { c, size := DecodeRune(s[i:]); ...; i += size }]:
    [fuel] bounds its turns, and [length p] turns are enough since each
    takes at least one byte. *)
Fixpoint runes_loop (fuel : nat) (p : list Z) : list Z :=
  match fuel, p with
  | S fuel', _ :: _ =>
      let '(r, size) := DecodeRune p in r :: runes_loop fuel' (drop size p)
  | _, _ => []
  end.

(** The runes of a byte sequence, every invalid byte read as [RuneError]. *)
Definition runes (p : list Z) : list Z := runes_loop (length p) p.

(** [utf8.Valid]: no position decodes to [(RuneError, 1)]. *)
Fixpoint valid_loop (fuel : nat) (p : list Z) : bool :=
  match fuel, p with
  | S fuel', _ :: _ =>
      let '(r, size) := DecodeRune p in
      negb ((r =? RuneError) && (size =? 1)%nat) && valid_loop fuel' (drop size p)
  | _, _ => true
  end.

Definition Valid (p : list Z) : bool := valid_loop (length p) p.

(** [utf8.ValidString]. *)
Definition ValidString (s : string) : bool := Valid (bytes s).

(** The bytes of a sequence of runes. *)
Definition encode (rs : list Z) : list Z := rs ≫= EncodeRune.

End Utf8.

(** ** src/04-files/marshal/main.go and src/04-files/unmarshal/main.go

    Both programs declare [Person] with the JSON names [name], [age] and
    [address]; the marshalling one tags [address] with [omitempty].  This
    module takes a JSON document in its abstract syntax: [Marshal] builds
    the document of a value and [Unmarshal] stores a document into a
    value.  The bytes of the document, as [json.Marshal] writes them and
    [json.Unmarshal] reads them, are in [JsonText] below. *)
Module Json.

(** A JSON string is a sequence of Unicode code points. *)
#[local] Unset Elimination Schemes.
Inductive value : Type :=
| JNull
| JBool (b : bool)
| JInt (z : Z)                  (* a number written without fraction or exponent *)
| JFloat (literal : string)     (* any other number *)
| JString (s : list Z)
| JArray (vs : list value)
| JObject (members : list (list Z * value)).
#[local] Set Elimination Schemes.

(** [type Person struct { Name string; Age int; Address string }] *)
Record Person : Type := { Name : string; Age : Z; Address : string }.

(** [var person Person] *)
Definition zero : Person := {| Name := ""; Age := 0; Address := "" |}.

(** A Go string as JSON text: "String values encode as JSON strings
    coerced to valid UTF-8, replacing invalid bytes with the Unicode
    replacement rune." *)
Definition of_string (s : string) : list Z := Utf8.runes (Utf8.bytes s).

(** A JSON string stored into a Go string. *)
Definition to_string (rs : list Z) : string := Utf8.of_bytes (Utf8.encode rs).

(** [json.Marshal(person)] for the [Person] of marshal/main.go:
    [`json:"name"`], [`json:"age"`], [`json:"address,omitempty"`]; the
    error is always nil for this type. *)
Definition Marshal (p : Person) : value :=
  JObject ([(of_string "name", JString (of_string (Name p)));
            (of_string "age", JInt (Age p))]
           ++ (if String.eqb (Address p) "" then []
               else [(of_string "address", JString (of_string (Address p)))])).

(** The fields of the [Person] of unmarshal/main.go. *)
Inductive field : Type := FName | FAge | FAddress.

(** Case folding of a key as the decoder does it; for the letters of the
    three names, the fold set of an ASCII letter holds its other case
    and, for [s] and [k], the long s and the Kelvin sign. *)
Definition fold_rune (r : Z) : Z :=
  if (0x41 <=? r) && (r <=? 0x5A) then r + 0x20
  else if r =? 0x17F then 0x73
  else if r =? 0x212A then 0x6B
  else r.

Definition list_Z_eqb (a b : list Z) : bool := bool_decide (a = b).

Definition exact_field (key : list Z) : option field :=
  if list_Z_eqb key (of_string "name") then Some FName
  else if list_Z_eqb key (of_string "age") then Some FAge
  else if list_Z_eqb key (of_string "address") then Some FAddress
  else None.

(** The field a key names: the exact match first, else the match under
    case folding; [None] for a key that names no field. *)
Definition field_of_key (key : list Z) : option field :=
  match exact_field key with
  | Some f => Some f
  | None => exact_field (fold_rune <$> key)
  end.

(** The error of a run of [Unmarshal]: the first value that did not fit
    its field. *)
Inductive error : Type :=
| UnmarshalTypeError (f : string).

(** Storing one member.  [null] leaves the field as it is; a value of the
    wrong kind, or an integer outside [int], leaves it too and is
    reported. *)
Definition store (f : field) (v : value) (p : Person) : Person * option error :=
  match f, v with
  | _, JNull => (p, None)
  | FName, JString s =>
      ({| Name := to_string s; Age := Age p; Address := Address p |}, None)
  | FName, _ => (p, Some (UnmarshalTypeError "name"))
  | FAge, JInt z =>
      if (GoInt.min_int <=? z) && (z <=? GoInt.max_int)
      then ({| Name := Name p; Age := z; Address := Address p |}, None)
      else (p, Some (UnmarshalTypeError "age"))
  | FAge, _ => (p, Some (UnmarshalTypeError "age"))
  | FAddress, JString s =>
      ({| Name := Name p; Age := Age p; Address := to_string s |}, None)
  | FAddress, _ => (p, Some (UnmarshalTypeError "address"))
  end.

Definition store_member (acc : Person * option error) (m : list Z * value)
    : Person * option error :=
  match field_of_key (fst m) with
  | None => acc
  | Some f =>
      let '(p, e) := store f (snd m) (fst acc) in
      (p, match snd acc with Some e0 => Some e0 | None => e end)
  end.

(** [json.Unmarshal(data, &person)] on the document of [data]: the
    members are stored in order into [person], a later member for the
    same field overwriting an earlier one. *)
Definition Unmarshal (doc : value) (person : Person) : Person * option error :=
  match doc with
  | JObject members => foldl store_member (person, None) members
  | JNull => (person, None)
  | _ => (person, Some (UnmarshalTypeError "Person"))
  end.

(** The [Person] of the two programs and the document they show. *)
Definition alice : Person :=
  {| Name := "Alice"; Age := 30; Address := "123 Main St" |}.

(** A [Person] whose name is the single byte 0xFF, which is not UTF-8. *)
Definition not_utf8 : Person :=
  {| Name := String (Utf8.char_of 0xFF) ""; Age := 0; Address := "" |}.

(** The persons that are values of the Go type and hold text: [Age] is an
    [int], and the two strings are valid UTF-8. *)
Definition well_formed (p : Person) : Prop :=
  GoInt.in_range (Age p) /\
  Utf8.ValidString (Name p) = true /\ Utf8.ValidString (Address p) = true.

End Json.

(** ** The text of JSON documents

    What [json.Marshal] writes for a [Person] and what [json.Unmarshal]
    reads, byte by byte: the encoder's [appendString] with HTML escaping
    on, as [json.Marshal] has it, and the decoder's grammar (white space,
    objects, arrays, strings with their escapes, numbers, the three
    literals).  The decoder stores the document it has read as
    [Json.Unmarshal] says. *)
Module JsonText.

Definition quote : Z := 0x22.
Definition backslash : Z := 0x5C.

(** [hex[x]] for ["0123456789abcdef"]. *)
Definition hex_digit (x : Z) : Z :=
  if x <? 10 then 0x30 + x else 0x61 + (x - 10).

(** [htmlSafeSet]: the ASCII bytes copied as they are; not the control
    characters, the quote, the backslash, nor [&], [<] and [>]. *)
Definition html_safe (b : Z) : bool :=
  (0x20 <=? b) && (b <? 0x80) &&
  negb ((b =? quote) || (b =? backslash) || (b =? 0x26) || (b =? 0x3C) || (b =? 0x3E)).

(** The escape of an ASCII byte that is not copied. *)
Definition escape_ascii (b : Z) : list Z :=
  if (b =? backslash) || (b =? quote) then [backslash; b]
  else if b =? 0x08 then [backslash; 0x62]
  else if b =? 0x0C then [backslash; 0x66]
  else if b =? 0x0A then [backslash; 0x6E]
  else if b =? 0x0D then [backslash; 0x72]
  else if b =? 0x09 then [backslash; 0x74]
  else [backslash; 0x75; 0x30; 0x30;
        hex_digit (Z.shiftr b 4); hex_digit (Z.land b 0xF)].

(** How the encoder spells U+FFFD for a byte that is not UTF-8.  The
    encoder of [encoding/json] writes the escape [\ufffd]; toolchains
    that run [json.Marshal] on the encoder of [encoding/json/v2] write
    the three bytes of the rune. *)
Inductive replacement : Type :=
| Escape
| Bytes.

Definition replacement_text (how : replacement) : list Z :=
  match how with
  | Escape => [backslash; 0x75; 0x66; 0x66; 0x66; 0x64]
  | Bytes => [0xEF; 0xBF; 0xBD]
  end.

(** The loop of [appendString] over the bytes of the string: an invalid
    byte is written as U+FFFD, the line and paragraph separators as their
    escapes, any other rune as its bytes. *)
Fixpoint append_loop (how : replacement) (fuel : nat) (p : list Z) : list Z :=
  match fuel, p with
  | S fuel', b :: rest =>
      if b <? 0x80 then
        (if html_safe b then [b] else escape_ascii b) ++ append_loop how fuel' rest
      else
        let '(c, size) := Utf8.DecodeRune p in
        if (c =? Utf8.RuneError) && (size =? 1)%nat then
          replacement_text how ++ append_loop how fuel' (drop 1 p)
        else if (c =? 0x2028) || (c =? 0x2029) then
          [backslash; 0x75; 0x32; 0x30; 0x32; hex_digit (Z.land c 0xF)]
          ++ append_loop how fuel' (drop size p)
        else take size p ++ append_loop how fuel' (drop size p)
  | _, _ => []
  end.

Definition appendString (how : replacement) (s : string) : list Z :=
  quote :: append_loop how (length (Utf8.bytes s)) (Utf8.bytes s) ++ [quote].

(** [json.Marshal(person)] for the [Person] of marshal/main.go: the bytes
    of the document. *)
Definition Marshal (how : replacement) (p : Json.Person) : list Z :=
  Utf8.bytes "{" ++ appendString how "name" ++ Utf8.bytes ":"
  ++ appendString how (Json.Name p)
  ++ Utf8.bytes "," ++ appendString how "age" ++ Utf8.bytes ":"
  ++ Utf8.bytes (itoa (Json.Age p))
  ++ (if String.eqb (Json.Address p) "" then []
      else Utf8.bytes "," ++ appendString how "address" ++ Utf8.bytes ":"
           ++ appendString how (Json.Address p))
  ++ Utf8.bytes "}".

(** *** The decoder *)

Definition is_ws (b : Z) : bool :=
  (b =? 0x20) || (b =? 0x09) || (b =? 0x0A) || (b =? 0x0D).

Fixpoint skip_ws (p : list Z) : list Z :=
  match p with
  | b :: rest => if is_ws b then skip_ws rest else p
  | [] => []
  end.

Definition hex_value (b : Z) : option Z :=
  if (0x30 <=? b) && (b <=? 0x39) then Some (b - 0x30)
  else if (0x61 <=? b) && (b <=? 0x66) then Some (b - 0x61 + 10)
  else if (0x41 <=? b) && (b <=? 0x46) then Some (b - 0x41 + 10)
  else None.

(** [getu4] on the four bytes that follow [\u]. *)
Definition hex4 (p : list Z) : option (Z * list Z) :=
  match p with
  | a :: b :: c :: d :: rest =>
      match hex_value a, hex_value b, hex_value c, hex_value d with
      | Some a, Some b, Some c, Some d =>
          Some (((a * 16 + b) * 16 + c) * 16 + d, rest)
      | _, _, _, _ => None
      end
  | _ => None
  end.

(** The escapes of one letter. *)
Definition simple_escape (e : Z) : option Z :=
  if (e =? quote) || (e =? backslash) || (e =? 0x2F) then Some e
  else if e =? 0x62 then Some 0x08
  else if e =? 0x66 then Some 0x0C
  else if e =? 0x6E then Some 0x0A
  else if e =? 0x72 then Some 0x0D
  else if e =? 0x74 then Some 0x09
  else None.

Definition is_surrogate (r : Z) : bool := (0xD800 <=? r) && (r <? 0xE000).

(** [utf16.DecodeRune]: the rune of a surrogate pair, U+FFFD for anything
    else. *)
Definition utf16_pair (r1 r2 : Z) : Z :=
  if (0xD800 <=? r1) && (r1 <? 0xDC00) && (0xDC00 <=? r2) && (r2 <? 0xE000)
  then Z.lor (Z.shiftl (r1 - 0xD800) 10) (r2 - 0xDC00) + 0x10000
  else Utf8.RuneError.

(** A second [\uXXXX] right after a surrogate. *)
Definition second_escape (p : list Z) : option (Z * list Z) :=
  match p with
  | b :: u :: rest =>
      if (b =? backslash) && (u =? 0x75) then hex4 rest else None
  | _ => None
  end.

Definition cons_rune (r : Z) (res : option (list Z * list Z))
    : option (list Z * list Z) :=
  match res with
  | Some (rs, rest) => Some (r :: rs, rest)
  | None => None
  end.

(** The text of a string after its opening quote, up to and including the
    closing one: its code points and what follows.  Bytes that are not
    UTF-8 are read as U+FFFD; a control character is a syntax error. *)
Fixpoint string_body (fuel : nat) (p : list Z) : option (list Z * list Z) :=
  match fuel, p with
  | S fuel', b :: rest =>
      if b =? quote then Some ([], rest)
      else if b =? backslash then
        match rest with
        | [] => None
        | e :: rest' =>
            if e =? 0x75 then
              match hex4 rest' with
              | None => None
              | Some (rr, rest'') =>
                  if is_surrogate rr then
                    match second_escape rest'' with
                    | Some (rr1, rest3) =>
                        if utf16_pair rr rr1 =? Utf8.RuneError
                        then cons_rune Utf8.RuneError (string_body fuel' rest'')
                        else cons_rune (utf16_pair rr rr1) (string_body fuel' rest3)
                    | None => cons_rune Utf8.RuneError (string_body fuel' rest'')
                    end
                  else cons_rune rr (string_body fuel' rest'')
              end
            else
              match simple_escape e with
              | Some r => cons_rune r (string_body fuel' rest')
              | None => None
              end
        end
      else if b <? 0x20 then None
      else if b <? 0x80 then cons_rune b (string_body fuel' rest)
      else
        let '(r, size) := Utf8.DecodeRune p in
        cons_rune r (string_body fuel' (drop size p))
  | _, _ => None
  end.

Definition is_digit (b : Z) : bool := (0x30 <=? b) && (b <=? 0x39).

(** The digits at the front of the input and what follows them. *)
Fixpoint digits (p : list Z) : list Z * list Z :=
  match p with
  | b :: rest =>
      if is_digit b then (b :: fst (digits rest), snd (digits rest)) else ([], p)
  | [] => ([], [])
  end.

(** The number a sequence of digits spells. *)
Definition digit_step (acc d : Z) : Z := acc * 10 + (d - 0x30).

Definition digits_value (ds : list Z) : Z := foldl digit_step 0 ds.

(** The integer part of a number: a single zero, or a digit from one to
    nine and the digits after it. *)
Definition int_part (p : list Z) : option (list Z * list Z) :=
  match p with
  | b :: rest =>
      if b =? 0x30 then Some ([b], rest)
      else if is_digit b then Some (b :: fst (digits rest), snd (digits rest))
      else None
  | [] => None
  end.

(** The fraction, if there is one: a dot and at least one digit. *)
Definition frac_part (p : list Z) : option (list Z * list Z) :=
  match p with
  | b :: rest =>
      if b =? 0x2E then
        match digits rest with
        | ([], _) => None
        | (ds, rest') => Some (b :: ds, rest')
        end
      else Some ([], p)
  | [] => Some ([], [])
  end.

(** The exponent, if there is one: [e] or [E], a sign or none, and at
    least one digit. *)
Definition exp_part (p : list Z) : option (list Z * list Z) :=
  match p with
  | b :: rest =>
      if (b =? 0x65) || (b =? 0x45) then
        let '(sign, rest1) :=
          match rest with
          | c :: rest1 => if (c =? 0x2B) || (c =? 0x2D) then ([c], rest1) else ([], rest)
          | [] => ([], [])
          end in
        match digits rest1 with
        | ([], _) => None
        | (ds, rest') => Some (b :: sign ++ ds, rest')
        end
      else Some ([], p)
  | [] => Some ([], [])
  end.

(** A number: an integer when it has neither fraction nor exponent. *)
Definition number (p : list Z) : option (Json.value * list Z) :=
  let '(neg, p1) :=
    match p with
    | b :: rest => if b =? 0x2D then (true, rest) else (false, p)
    | [] => (false, [])
    end in
  match int_part p1 with
  | None => None
  | Some (ds, p2) =>
      match frac_part p2 with
      | None => None
      | Some (fs, p3) =>
          match exp_part p3 with
          | None => None
          | Some (es, p4) =>
              match fs, es with
              | [], [] =>
                  Some (Json.JInt (if neg then - digits_value ds else digits_value ds), p4)
              | _, _ =>
                  Some (Json.JFloat
                          (Utf8.of_bytes ((if neg then [0x2D] else []) ++ ds ++ fs ++ es)),
                        p4)
              end
          end
      end
  end.

(** One of the words [true], [false], [null]. *)
Definition literal (word : string) (v : Json.value) (p : list Z)
    : option (Json.value * list Z) :=
  let w := Utf8.bytes word in
  if bool_decide (take (length w) p = w) then Some (v, drop (length w) p) else None.

(** The scanner's [maxNestingDepth]: a document with more open objects
    and arrays than this at one point is a syntax error. *)
Definition maxNestingDepth : Z := 10000.

(** A value, the members of an object after its brace or a comma, and the
    elements of an array after its bracket or a comma, [depth] objects
    and arrays being open around them.  Each call takes at least one
    byte, so a fuel of the input's length is enough. *)
Fixpoint value (fuel : nat) (depth : Z) (p : list Z) : option (Json.value * list Z) :=
  match fuel, p with
  | S fuel', b :: rest =>
      if b =? 0x7B then
        if maxNestingDepth <=? depth then None else
        match skip_ws rest with
        | c :: rest1 =>
            if c =? 0x7D then Some (Json.JObject [], rest1)
            else
              match members fuel' (depth + 1) (c :: rest1) with
              | Some (ms, rest2) => Some (Json.JObject ms, rest2)
              | None => None
              end
        | [] => None
        end
      else if b =? 0x5B then
        if maxNestingDepth <=? depth then None else
        match skip_ws rest with
        | c :: rest1 =>
            if c =? 0x5D then Some (Json.JArray [], rest1)
            else
              match elements fuel' (depth + 1) (c :: rest1) with
              | Some (vs, rest2) => Some (Json.JArray vs, rest2)
              | None => None
              end
        | [] => None
        end
      else if b =? quote then
        match string_body (length rest) rest with
        | Some (rs, rest1) => Some (Json.JString rs, rest1)
        | None => None
        end
      else if b =? 0x74 then literal "true" (Json.JBool true) p
      else if b =? 0x66 then literal "false" (Json.JBool false) p
      else if b =? 0x6E then literal "null" Json.JNull p
      else number p
  | _, _ => None
  end
with members (fuel : nat) (depth : Z) (p : list Z)
    : option (list (list Z * Json.value) * list Z) :=
  match fuel, p with
  | S fuel', b :: rest =>
      if b =? quote then
        match string_body (length rest) rest with
        | Some (key, rest1) =>
            match skip_ws rest1 with
            | c :: rest2 =>
                if c =? 0x3A then
                  match value fuel' depth (skip_ws rest2) with
                  | Some (v, rest3) =>
                      match skip_ws rest3 with
                      | d :: rest4 =>
                          if d =? 0x2C then
                            match members fuel' depth (skip_ws rest4) with
                            | Some (ms, rest5) => Some ((key, v) :: ms, rest5)
                            | None => None
                            end
                          else if d =? 0x7D then Some ([(key, v)], rest4)
                          else None
                      | [] => None
                      end
                  | None => None
                  end
                else None
            | [] => None
            end
        | None => None
        end
      else None
  | _, _ => None
  end
with elements (fuel : nat) (depth : Z) (p : list Z) : option (list Json.value * list Z) :=
  match fuel, p with
  | S fuel', _ :: _ =>
      match value fuel' depth p with
      | Some (v, rest1) =>
          match skip_ws rest1 with
          | d :: rest2 =>
              if d =? 0x2C then
                match elements fuel' depth (skip_ws rest2) with
                | Some (vs, rest3) => Some (v :: vs, rest3)
                | None => None
                end
              else if d =? 0x5D then Some ([v], rest2)
              else None
          | [] => None
          end
      | None => None
      end
  | _, _ => None
  end.

(** A whole document: one value, white space around it, nothing else. *)
Definition parse (data : list Z) : option Json.value :=
  match value (S (length data)) 0 (skip_ws data) with
  | Some (v, rest) =>
      match skip_ws rest with
      | [] => Some v
      | _ :: _ => None
      end
  | None => None
  end.

Inductive error : Type :=
| SyntaxError
| TypeError (e : Json.error).

(** [json.Unmarshal(data, &person)]: data that is no JSON document
    leaves [person] as it is. *)
Definition Unmarshal (data : list Z) (person : Json.Person)
    : Json.Person * option error :=
  match parse data with
  | None => (person, Some SyntaxError)
  | Some doc =>
      let '(p, e) := Json.Unmarshal doc person in
      (p, match e with Some e' => Some (TypeError e') | None => None end)
  end.

(** A word between quotes. *)
Definition quoted (s : string) : list Z := quote :: Utf8.bytes s ++ [quote].

(** The document of unmarshal/main.go, [jsonData]. *)
Definition jsonData : list Z :=
  Utf8.bytes "{" ++ quoted "name" ++ Utf8.bytes ":" ++ quoted "Alice"
  ++ Utf8.bytes "," ++ quoted "age" ++ Utf8.bytes ":30,"
  ++ quoted "address" ++ Utf8.bytes ":" ++ quoted "123 Main St" ++ Utf8.bytes "}".

(** The input after a number that the encoder wrote: a comma or the
    closing brace. *)
Definition ends_number (rest : list Z) : Prop :=
  exists c rest', rest = c :: rest' /\ (c = 0x2C \/ c = 0x7D).

End JsonText.

(** ** What the trip through JSON text does to a [Person]

    The encoder reads a Go string rune by rune and the decoder writes the
    runes back, so a string comes back coerced to valid UTF-8. *)
Module Coerce.

(** What a Go string is after the trip through JSON text: its runes as
    the encoder reads them, written back as UTF-8
    ([strings.ToValidUTF8] with U+FFFD for every invalid byte). *)
Definition coerce (s : string) : string := Json.to_string (Json.of_string s).

(** What [Unmarshal] leaves in [target] after reading the document of [p]. *)
Definition stored (p target : Json.Person) : Json.Person :=
  {| Json.Name := coerce (Json.Name p);
     Json.Age := Json.Age p;
     Json.Address := if String.eqb (Json.Address p) "" then Json.Address target
                     else coerce (Json.Address p) |}.

End Coerce.

(** ** src/05-how-to-use/main.go: [retry], [throttle] and the sum that
    [pipeline] computes

    A closure that a helper calls is a function on the state it closes
    over, [W]: a [func() error] returns its error ([None] for nil) and
    the new state, a [func()] the new state.  Time is counted in
    nanoseconds, as [time.Duration] does. *)
Module Closures.

(** [time.Second], and the longest and the shortest [time.Duration]. *)
Definition Second : Z := 1000000000.
Definition maxDuration : Z := 2 ^ 63 - 1.
Definition minDuration : Z := - 2 ^ 63.

(** The sum of the elements of a slice, as a mathematical integer. *)
Definition total (slice : list Z) : Z := foldr Z.add 0 slice.

Section Closures.
Context {W : Type}.

(** A [func() error]. *)
Definition closure : Type := W -> option string * W.

(** What a call of [retry] leaves: the error it returns, the state the
    calls of [fn] left, and the time it asked [time.Sleep] for. *)
Record outcome : Type := Outcome {
  err : option string;
  world : W;
  slept : Z
}.

(** [for i := 0; i < retries; i++ { if err := fn(); err == nil { return nil };
    time.Sleep(time.Second) }; return errors.New(...)], by the number of
    turns the loop still has. *)
Fixpoint retry_loop (fn : closure) (turns : nat) (w : W) (slept : Z) : outcome :=
  match turns with
  | O => Outcome (Some "operation failed after retries"%string) w slept
  | S turns' =>
      match fn w with
      | (None, w') => Outcome None w' slept
      | (Some _, w') => retry_loop fn turns' w' (slept + Second)
      end
  end.

(** [func retry(fn func() error, retries int) error]: the loop takes
    [retries] turns, none when [retries] is not positive. *)
Definition retry (fn : closure) (retries : Z) (w : W) : outcome :=
  retry_loop fn (Z.to_nat retries) w 0.

(** The state after [k] calls of [fn], and what call [k] (counted from
    zero) returns. *)
Fixpoint after (fn : closure) (k : nat) (w : W) : W :=
  match k with
  | O => w
  | S k' => after fn k' (snd (fn w))
  end.

Definition attempt (fn : closure) (k : nat) (w : W) : option string :=
  fst (fn (after fn k w)).

End Closures.
End Closures.

Module Throttle.
Import Closures.

(** [time.Since(lastCall)] when the clock reads [now].  [lastCall] is
    [None] for the zero [time.Time], which lies further back than a
    [Duration] can hold, so that the difference saturates; a stamp taken
    by [time.Now()] is subtracted on the monotonic clock, and the
    difference saturates likewise. *)
Definition Since (lastCall : option Z) (now : Z) : Z :=
  match lastCall with
  | None => maxDuration
  | Some t => Z.max minDuration (Z.min maxDuration (now - t))
  end.

Section Throttle.
Context {W : Type}.

(** The closure that [throttle] returns: the variable [lastCall] it
    closes over, and the state [fn] works on. *)
Record throttled : Type := Throttled { lastCall : option Z; world : W }.

(** One call of the closure, [clock] holding the two readings it may
    take: the one of [time.Since] and the one of [time.Now()].
    [if time.Since(lastCall) > duration { lastCall = time.Now(); fn() }];
    the boolean tells whether [fn] was called. *)
Definition call (fn : W -> W) (duration : Z) (clock : Z * Z) (c : throttled)
    : throttled * bool :=
  if duration <? Since (lastCall c) (fst clock)
  then (Throttled (Some (snd clock)) (fn (world c)), true)
  else (c, false).

(** Calls one after the other. *)
Fixpoint calls (fn : W -> W) (duration : Z) (clocks : list (Z * Z)) (c : throttled)
    : throttled * list bool :=
  match clocks with
  | [] => (c, [])
  | clock :: rest =>
      let '(c', ran) := call fn duration clock c in
      let '(c'', rans) := calls fn duration rest c' in
      (c'', ran :: rans)
  end.

(** [func throttle(fn func(), duration time.Duration) func()]:
    [var lastCall time.Time]. *)
Definition throttle (fn : W -> W) (duration : Z) (w : W) : throttled :=
  Throttled None w.

(** Clock readings in the order they are taken, none before [from]. *)
Fixpoint ordered (from : Z) (clocks : list (Z * Z)) : Prop :=
  match clocks with
  | [] => True
  | (a, b) :: rest => from <= a /\ a <= b /\ ordered b rest
  end.

End Throttle.
End Throttle.

(** ** src/07-errors/main.go: the wait group as a barrier *)
Module Barrier.
Import SyncErrors.

(** The line task [i] prints. *)
Definition task_line (i : nat) : string := "Processing task " +:+ itoa (Z.of_nat i).

Definition is_print (ins : instr) : bool :=
  match ins with Print _ => true | _ => false end.

(** A goroutine has printed when no [fmt.Println] is ahead of it. *)
Definition printed (g : goroutine) : bool :=
  forallb (fun ins => negb (is_print ins)) (code g).

(** What holds of every reachable state of [syncBestPractices cap n]. *)
Record sync_inv (cap n : nat) (s : state) : Prop := {
  sync_phase : forall i g, gors s !! i = Some g ->
     exists k, (k <= 5)%nat /\ code g = drop k (prog (syncBestPractices cap n) i);
  sync_out : exists order,
     out s = (task_line <$> order)
             ++ (if returned s then ["All tasks processed"%string] else [])
     /\ NoDup order
     /\ forall i, i ∈ order <-> exists g, gors s !! i = Some g /\ printed g = true;
  sync_wg : wg s = count (fun g => negb (finished g)) (gors s);
  sync_next : next s = length (gors s) /\ (next s <= n)%nat;
  sync_returned : returned s = true -> next s = n /\ wg s = 0%nat
}.

(** The schedule that starts the [n] goroutines and then runs them one
    after the other, five steps each, before the function goes on. *)
Definition in_turn (n : nat) : list event :=
  replicate n Main ++ (i ← seq 0 n; replicate 5 (Goroutine i)) ++ [Main].

(** The state of [syncBestPractices cap n] along that schedule, when the
    first [i] goroutines have had their turns. *)
Definition turns (cap n i : nat) : state :=
  St n (n - i)
     (replicate i (Gor [] 0) ++
      ((fun j => Gor (prog (syncBestPractices cap n) j) 0) <$> seq i (n - i)))
     [] 0 (task_line <$> seq 0 i) false.

(** The state of [dataRace 1 n] along that schedule: goroutine [j] read
    the counter when it stood at [j]. *)
Definition race_turns (n i : nat) : state :=
  St n (n - i)
     (((fun j => Gor [] (Z.of_nat j)) <$> seq 0 i) ++ replicate (n - i) (Gor race_prog 0))
     [] (Z.of_nat i) [] false.

End Barrier.

(** ** src/08-context/main.go: the goroutines that wait for the context *)
Module Waiters.
Import Context.

(** The goroutines a function still has to start. *)
Definition spawned (prog : list instr) : list nat :=
  omap (fun ins => match ins with Spawn i => Some i | _ => None end) prog.

(** What holds of every reachable state of a function that starts each
    of its goroutines once. *)
Record print_inv (s : state) : Prop := {
  print_order : exists order,
     out s = line <$> order /\ NoDup order /\
     forall i, i ∈ order <-> gors s !! i = Some Printed;
  print_done : forall i, gors s !! i = Some Printed -> done (ctx s) = true;
  print_fresh : forall i, i ∈ spawned (code s) -> gors s !! i = None;
  print_nodup : NoDup (spawned (code s))
}.

End Waiters.

(** ** Goroutines, unbuffered channels, [select], panics and the context

    The other functions of src/07-errors/main.go, src/07-select/main.go
    and src/08-context/main.go, and [processWithTimeout] of
    src/05-how-to-use/main.go, run goroutines that meet on unbuffered
    channels, in [select] statements, on a context and on a wait group.
    They are embedded as lists of instructions, one per statement, and run
    by one interpreter.

    A send on an unbuffered channel parks the sender until a receiver
    takes its value; a channel that is closed gives its zero value to
    every receive and a panic to every send.  A panic runs the deferred
    calls of its goroutine; one that no deferred call recovers ends the
    program.  [time.Sleep] and [time.After] promise that their duration
    passes, not when the goroutine goes on after it, so a schedule may
    order the steps of different goroutines in any way: time puts no
    further bound on it. *)
Module Chans.

(** The values the programs send, receive and print. *)
Inductive value : Type :=
| VInt (z : Z)
| VStr (s : string)
| VNil.

#[global] Instance value_eq_dec : EqDecision value.
Proof. solve_decision. Defined.

(** [fmt.Println] of one operand. *)
Definition show (v : value) : string :=
  match v with
  | VInt z => itoa z
  | VStr s => s
  | VNil => "<nil>"
  end.

(** An operand of [fmt.Println]: a literal, or the variable that the
    statement before bound ([msg := <-ch], [r := recover()]). *)
Inductive operand : Type :=
| Lit (s : string)
| Var
| CtxErr.                  (* ctx.Err() *)

(** The communication of a [case] of [select]. *)
Inductive guard : Type :=
| OnRecv (ch : nat)        (* case v := <-ch *)
| OnAfter (d : Z)          (* case <-time.After(d) *)
| OnDone.                  (* case <-ctx.Done() *)

#[local] Unset Elimination Schemes.
Inductive instr : Type :=
| Println (args : list operand)
| MakeChan (zero : value)                    (* ch := make(chan T) *)
| Go (body : list instr)                     (* go func() { body }() *)
| Sleep (d : Z)                              (* time.Sleep(d) *)
| Send (ch : nat) (v : value)                (* ch <- v *)
| Sending (ch : nat)                         (* parked in ch <- v *)
| Recv (ch : nat)                            (* v := <-ch *)
| Close (ch : nat)                           (* close(ch) *)
| Select (cases : list (guard * list instr)) (otherwise : option (list instr))
| Defer (body : list instr)                  (* defer func() { body }() *)
| Recover                                    (* r := recover() *)
| IfNotNil (body : list instr)               (* if r != nil { body } *)
| Panic (v : string)                         (* panic(v) *)
| Loop (body : list instr)                   (* for { body } *)
| Return
| WithCancel                                 (* ctx, cancel := context.WithCancel(...) *)
| WithTimeout (d : Z)                        (* ctx, cancel := context.WithTimeout(..., d) *)
| Cancel                                     (* cancel() *)
| WgAdd (n : nat)                            (* wg.Add(n) *)
| WgDone                                     (* wg.Done() *)
| WgWait.                                    (* wg.Wait() *)
#[local] Set Elimination Schemes.

Record goroutine : Type := Gor {
  code : list instr;              (* the steps still to take *)
  var : value;                    (* the variable bound last *)
  defers : list (list instr);     (* the deferred calls, last first *)
  panicking : option string       (* the value of the panic under way *)
}.

Record channel : Type := Chan {
  offers : list (nat * value);    (* the parked senders and their values *)
  closed : bool;
  zero : value                    (* the zero value of the element type *)
}.

Record state : Type := St {
  gors : list goroutine;
  chans : list channel;
  ctx : Context.token;            (* what ctx.Err() returns *)
  deadline : bool;                (* the context has a deadline *)
  wg : nat;                       (* the WaitGroup counter *)
  out : list string;              (* standard output *)
  crashed : option string         (* an unrecovered panic ended the program *)
}.

(** Goroutine [g] takes its next step; where that step is a [select], it
    takes the case [k] (the [default] for a [k] past the cases). *)
Inductive event : Type :=
| Step (g k : nat)
| Timer.                          (* the deadline of the context passes *)

(** [ctx.Err()] as [fmt.Println] shows it. *)
Definition show_err (c : Context.token) : string :=
  match c with
  | None => "<nil>"
  | Some Context.Canceled => "context canceled"
  | Some Context.DeadlineExceeded => "context deadline exceeded"
  end.

(** The line of [fmt.Println(args...)]: the operands with a space
    between them. *)
Definition line (args : list operand) (v : value) (c : Context.token) : string :=
  String.concat " "
    ((fun a => match a with Lit s => s | Var => show v | CtxErr => show_err c end)
       <$> args).

(** A receive from [ch] can go ahead: a sender is parked, or the channel
    is closed. *)
Definition can_recv (c : channel) : bool :=
  match offers c with
  | _ :: _ => true
  | [] => closed c
  end.

(** A case can be taken.  The duration of [time.After] is a lower bound
    that the schedule keeps: the case is taken when the schedule says so. *)
Definition ready (chs : list channel) (c : Context.token) (gd : guard) : bool :=
  match gd with
  | OnRecv ch => match chs !! ch with Some c => can_recv c | None => false end
  | OnAfter _ => true
  | OnDone => Context.done c
  end.

(** The parked sender [g'] goes on: its send is done. *)
Definition resume (g' : nat) (gs : list goroutine) : list goroutine :=
  match gs !! g' with
  | Some (Gor (_ :: rest) v ds p) => <[g' := Gor rest v ds p]> gs
  | _ => gs
  end.

(** The receive itself: the value received, the goroutines and the
    channels after it. *)
Definition receive (ch : nat) (s : state)
    : option (value * list goroutine * list channel) :=
  match chans s !! ch with
  | Some (Chan ((g', v) :: os) cl z) =>
      Some (v, resume g' (gors s), <[ch := Chan os cl z]> (chans s))
  | Some (Chan [] true z) => Some (z, gors s, chans s)
  | _ => None
  end.

Definition set_gor (g : nat) (x : goroutine) (s : state) : state :=
  St (<[g := x]> (gors s)) (chans s) (ctx s) (deadline s) (wg s) (out s) (crashed s).

Definition panic_in (g : nat) (v : value) (ds : list (list instr)) (msg : string)
    (s : state) : state :=
  set_gor g (Gor [] v ds (Some msg)) s.

Definition step (e : event) (s : state) : state :=
  match crashed s, e with
  | Some _, _ => s
  | None, Timer =>
      if deadline s
      then St (gors s) (chans s) (Context.cancel_with Context.DeadlineExceeded (ctx s))
              true (wg s) (out s) None
      else s
  | None, Step g k =>
      match gors s !! g with
      | None => s
      | Some (Gor [] v ds p) =>
          match ds, p with
          | d :: ds', _ => set_gor g (Gor d v ds' p) s
          | [], Some msg =>
              St (gors s) (chans s) (ctx s) (deadline s) (wg s) (out s) (Some msg)
          | [], None => s
          end
      | Some (Gor (ins :: rest) v ds p) =>
          match ins with
          | Println args =>
              St (<[g := Gor rest v ds p]> (gors s)) (chans s) (ctx s) (deadline s)
                 (wg s) (out s ++ [line args v (ctx s)]) None
          | MakeChan z =>
              St (<[g := Gor rest v ds p]> (gors s)) (chans s ++ [Chan [] false z])
                 (ctx s) (deadline s) (wg s) (out s) None
          | Go body =>
              St (<[g := Gor rest v ds p]> (gors s) ++ [Gor body VNil [] None])
                 (chans s) (ctx s) (deadline s) (wg s) (out s) None
          | Sleep _ => set_gor g (Gor rest v ds p) s
          | Send ch x =>
              match chans s !! ch with
              | Some (Chan os false z) =>
                  St (<[g := Gor (Sending ch :: rest) v ds p]> (gors s))
                     (<[ch := Chan (os ++ [(g, x)]) false z]> (chans s))
                     (ctx s) (deadline s) (wg s) (out s) None
              | Some (Chan _ true _) => panic_in g v ds "send on closed channel" s
              | None => s
              end
          | Sending ch =>
              match chans s !! ch with
              | Some (Chan _ true _) => panic_in g v ds "send on closed channel" s
              | _ => s
              end
          | Recv ch =>
              match receive ch s with
              | Some (x, gs, chs) =>
                  St (<[g := Gor rest x ds p]> gs) chs (ctx s) (deadline s) (wg s)
                     (out s) None
              | None => s
              end
          | Close ch =>
              match chans s !! ch with
              | Some (Chan _ false z) =>
                  St (<[g := Gor rest v ds p]> (gors s))
                     (<[ch := Chan [] true z]> (chans s))
                     (ctx s) (deadline s) (wg s) (out s) None
              | Some (Chan _ true _) => panic_in g v ds "close of closed channel" s
              | None => s
              end
          | Select cases otherwise =>
              match cases !! k with
              | Some (OnRecv ch, body) =>
                  match receive ch s with
                  | Some (x, gs, chs) =>
                      St (<[g := Gor (body ++ rest) x ds p]> gs) chs
                         (ctx s) (deadline s) (wg s) (out s) None
                  | None => s
                  end
              | Some (OnAfter _, body) => set_gor g (Gor (body ++ rest) v ds p) s
              | Some (OnDone, body) =>
                  if Context.done (ctx s)
                  then set_gor g (Gor (body ++ rest) v ds p) s
                  else s
              | None =>
                  match otherwise with
                  | Some body =>
                      if existsb (fun c => ready (chans s) (ctx s) (fst c)) cases then s
                      else set_gor g (Gor (body ++ rest) v ds p) s
                  | None => s
                  end
              end
          | Defer body => set_gor g (Gor rest v (body :: ds) p) s
          | Recover =>
              set_gor g (Gor rest (match p with Some msg => VStr msg | None => VNil end)
                             ds None) s
          | IfNotNil body =>
              match v with
              | VNil => set_gor g (Gor rest v ds p) s
              | _ => set_gor g (Gor (body ++ rest) v ds p) s
              end
          | Panic msg => panic_in g v ds msg s
          | Loop body => set_gor g (Gor (body ++ Loop body :: rest) v ds p) s
          | Return => set_gor g (Gor [] v ds p) s
          | WithCancel => set_gor g (Gor rest v ds p) s
          | WithTimeout _ =>
              St (<[g := Gor rest v ds p]> (gors s)) (chans s) (ctx s) true (wg s)
                 (out s) None
          | Cancel =>
              St (<[g := Gor rest v ds p]> (gors s)) (chans s) (Context.cancel (ctx s))
                 (deadline s) (wg s) (out s) None
          | WgAdd n =>
              St (<[g := Gor rest v ds p]> (gors s)) (chans s) (ctx s) (deadline s)
                 (wg s + n) (out s) None
          | WgDone =>
              match wg s with
              | O => panic_in g v ds "sync: negative WaitGroup counter" s
              | S n =>
                  St (<[g := Gor rest v ds p]> (gors s)) (chans s) (ctx s) (deadline s)
                     n (out s) None
              end
          | WgWait =>
              match wg s with
              | O => set_gor g (Gor rest v ds p) s
              | S _ => s
              end
          end
      end
  end.

(** A function run as the first goroutine. *)
Definition start (body : list instr) : state :=
  St [Gor body VNil [] None] [] None false 0 [] None.

Definition run (body : list instr) (sched : list event) : state :=
  Sched.run step sched (start body).

(** The function has returned: its goroutine has nothing left to do. *)
Definition returned (s : state) : bool :=
  match gors s !! 0%nat with
  | Some (Gor [] _ [] None) => true
  | _ => false
  end.

(** Goroutine [g] has ended. *)
Definition ended (g : nat) (s : state) : bool :=
  match gors s !! g with
  | Some (Gor [] _ [] None) => true
  | _ => false
  end.

Definition Second : Z := 1000000000.

(** [func exampleClosedChannelPanic()] of src/07-errors/main.go. *)
Definition exampleClosedChannelPanic : list instr :=
  [ MakeChan (VInt 0);
    Go [Send 0 (VInt 1); Close 0];
    Recv 0; Println [Var];
    Recv 0; Println [Var];
    Go [Defer [Recover; IfNotNil [Println [Lit "Recovered from panic:"; Var]]];
        Send 0 (VInt 2)];
    Sleep Second ].

(** [func exampleGoroutinePanic()] of src/07-errors/main.go. *)
Definition exampleGoroutinePanic : list instr :=
  [ Go [Defer [Recover; IfNotNil [Println [Lit "Recovered in goroutine:"; Var]]];
        Panic "goroutine panic"];
    Sleep Second;
    Println [Lit "Main goroutine continues"] ].

(** [func exampleSelect()] of src/07-select/main.go. *)
Definition exampleSelect : list instr :=
  [ Println [Lit "--- Пример 1: Использование select ---"];
    MakeChan (VStr ""); MakeChan (VStr "");
    Go [Sleep (1 * Second); Send 0 (VStr "Сообщение из канала 1")];
    Go [Sleep (2 * Second); Send 1 (VStr "Сообщение из канала 2")];
    Select [(OnRecv 0, [Println [Var]]); (OnRecv 1, [Println [Var]])] None ].

(** A string that starts with a new line. *)
Definition nl (s : string) : string := String "010"%char s.

(** [func exampleTimeout()] of src/07-select/main.go. *)
Definition exampleTimeout : list instr :=
  [ Println [Lit (nl "--- Пример 2: Тайм-ауты с time.After ---")];
    MakeChan (VStr "");
    Go [Sleep (3 * Second); Send 0 (VStr "Данные получены")];
    Select [(OnRecv 0, [Println [Var]]);
            (OnAfter (2 * Second),
             [Println [Lit "Тайм-аут: данные не получены вовремя"]])] None ].

(** [func exampleMultipleChannelsWithTimeout()] of src/07-select/main.go. *)
Definition exampleMultipleChannelsWithTimeout : list instr :=
  [ Println [Lit (nl "--- Пример 3: Несколько каналов и тайм-ауты ---")];
    MakeChan (VStr ""); MakeChan (VStr "");
    Go [Sleep (1 * Second); Send 0 (VStr "Данные из канала 1")];
    Go [Sleep (3 * Second); Send 1 (VStr "Данные из канала 2")];
    Select [(OnRecv 0, [Println [Var]]);
            (OnRecv 1, [Println [Var]]);
            (OnAfter (2 * Second),
             [Println [Lit "Тайм-аут: ни один из каналов не ответил вовремя"]])] None ].

(** [func exampleContextUsage()] of src/08-context/main.go. *)
Definition exampleContextUsage : list instr :=
  [ WithTimeout (2 * Second);
    Defer [Cancel];
    Go [Select [(OnAfter (3 * Second), [Println [Lit "Работа завершена"]]);
                (OnDone, [Println [Lit "Контекст отменен:"; CtxErr]])] None];
    Sleep (4 * Second) ].

(** [func processWithTimeout(ctx context.Context, wg *sync.WaitGroup)] of
    src/05-how-to-use/main.go. *)
Definition processWithTimeout : list instr :=
  [ Defer [WgDone];
    Select [(OnAfter (2 * Second), [Println [Lit "Process completed"]]);
            (OnDone, [Println [Lit "Process cancelled"]])] None ].

(** The part of [main] of src/05-how-to-use/main.go that calls it. *)
Definition main_processWithTimeout : list instr :=
  [ WithTimeout (1 * Second);
    WgAdd 1;
    Go processWithTimeout;
    Sleep (500 * 1000000);
    Cancel;
    WgWait ].

(** *** Exploring the states of a program

    The states a program reaches under the events [evs], found breadth
    first.  Two states with the same [key] are taken to be the same, which
    can only make the result smaller; that the result is closed under the
    steps is proved for each program. *)
Definition events (G K : nat) : list event :=
  Timer :: (g ← seq 0 G; k ← seq 0 K; [Step g k]).

(** What tells the instructions of the programs apart without looking
    into their bodies. *)
Definition mark (ins : instr) : nat * nat * string :=
  match ins with
  | Println args => (0, 0, line args VNil None)
  | MakeChan _ => (1, 0, "")
  | Go body => (2, length body, "")
  | Sleep _ => (3, 0, "")
  | Send ch v => (4, ch, show v)
  | Sending ch => (5, ch, "")
  | Recv ch => (6, ch, "")
  | Close ch => (7, ch, "")
  | Select cases _ => (8, length cases, "")
  | Defer body => (9, length body, "")
  | Recover => (10, 0, "")
  | IfNotNil body => (11, length body, "")
  | Panic v => (12, 0, v)
  | Loop body => (13, length body, "")
  | Return => (14, 0, "")
  | WithCancel => (15, 0, "")
  | WithTimeout _ => (16, 0, "")
  | Cancel => (17, 0, "")
  | WgAdd n => (18, n, "")
  | WgDone => (19, 0, "")
  | WgWait => (20, 0, "")
  end%nat.

Definition key (s : state)
    : list (list (nat * nat * string) * value * nat * option string)
      * list (list (nat * value) * bool) * (option nat * bool * nat)
      * list string * option string :=
  ((fun g => (mark <$> code g, var g, length (defers g), panicking g)) <$> gors s,
   (fun c => (offers c, closed c)) <$> chans s,
   ((fun e => match e with Context.Canceled => 0 | Context.DeadlineExceeded => 1 end%nat)
      <$> ctx s, deadline s, wg s),
   out s, crashed s).

Definition add_fresh (seen acc : list state) (s : state) : list state :=
  if bool_decide (key s ∈ (key <$> seen ++ acc)) then acc else acc ++ [s].

Fixpoint explore (fuel : nat) (evs : list event) (seen frontier : list state)
    : list state :=
  match fuel with
  | O => seen
  | S fuel' =>
      let next := frontier ≫= (fun s => (fun e => step e s) <$> evs) in
      match foldl (add_fresh seen) [] next with
      | [] => seen
      | fresh => explore fuel' evs (seen ++ fresh) fresh
      end
  end.

(** Where a state stands in a list of states, going by its key. *)
Definition position (l : list state) (x : state) : nat :=
  match list_find (fun s => bool_decide (key s = key x)) l with
  | Some (i, _) => i
  | None => 0
  end.

Definition reachable (G K : nat) (body : list instr) : list state :=
  explore 64 (events G K) [start body] [start body].

Definition states_GoroutinePanic : list state :=
  Eval vm_compute in reachable 2 1 exampleGoroutinePanic.

Definition states_ClosedChannelPanic : list state :=
  Eval vm_compute in reachable 3 1 exampleClosedChannelPanic.

Definition states_Select : list state :=
  Eval vm_compute in reachable 3 2 exampleSelect.

Definition states_Timeout : list state :=
  Eval vm_compute in reachable 2 2 exampleTimeout.

Definition states_MultipleChannelsWithTimeout : list state :=
  Eval vm_compute in reachable 3 3 exampleMultipleChannelsWithTimeout.

Definition states_ContextUsage : list state :=
  Eval vm_compute in reachable 2 2 exampleContextUsage.

Definition states_processWithTimeout : list state :=
  Eval vm_compute in reachable 2 2 main_processWithTimeout.

End Chans.

(** ** Proof tools *)

(** Linear arithmetic with division and remainder by constants. *)
Ltac zlia := Z.div_mod_to_equations; lia.

(** Deciding the comparisons of the goal from the hypotheses. *)
Ltac decide_cmp :=
  repeat match goal with
  | |- context [?a <=? ?b] =>
      first [rewrite (proj2 (Z.leb_le a b)) by lia
            |rewrite (proj2 (Z.leb_gt a b)) by lia]
  | |- context [?a <? ?b] =>
      first [rewrite (proj2 (Z.ltb_lt a b)) by lia
            |rewrite (proj2 (Z.ltb_ge a b)) by lia]
  | |- context [?a =? ?b] =>
      first [rewrite (proj2 (Z.eqb_eq a b)) by lia
            |rewrite (proj2 (Z.eqb_neq a b)) by lia]
  end; cbn [andb orb negb].

(** Two lists of bytes, equal element by element. *)
Ltac list_zlia := repeat (apply (f_equal2 cons); [zlia|]); reflexivity.

(** The state of the goal is in the list, at the position its key gives. *)
Ltac member :=
  lazymatch goal with
  | |- ?x ∈ ?l =>
      apply (list_elem_of_lookup_2 l (Chans.position l x) x); vm_compute; reflexivity
  end.

(** A state of a list given in full: one goal per state. *)
Ltac each_state H :=
  repeat (apply elem_of_cons in H as [->|H]); [..|by apply elem_of_nil in H].

(** One case of a closure proof: the step is computed and looked up, for
    a [select] case by case. *)
Ltac closure_case k :=
  lazymatch goal with
  | |- Chans.step ?e ?s ∈ _ =>
      let x := eval vm_compute in (Chans.step e s) in
      lazymatch x with
      | context [k] => destruct k as [|[|[|k]]]; member
      | _ => member
      end
  end.

(** A line that is none of the lines of a list. *)
Ltac not_member H :=
  repeat (apply elem_of_cons in H as [H|H]; [discriminate H|]);
  by apply elem_of_nil in H.

(* ===================================================================== *)
(** * Part II: lemmas and theorems                                        *)
(* ===================================================================== *)

Section GoIntFacts.

Lemma wrap_in_range z : GoInt.in_range z -> GoInt.wrap z = z.
Proof.
  unfold GoInt.in_range, GoInt.wrap, GoInt.min_int, GoInt.max_int. intros H.
  rewrite Z.mod_small; lia.
Qed.

Lemma wrap_range z : GoInt.in_range (GoInt.wrap z).
Proof.
  unfold GoInt.in_range, GoInt.wrap, GoInt.min_int, GoInt.max_int.
  pose proof (Z.mod_pos_bound (z + 2 ^ 63) (2 ^ 64)). lia.
Qed.

End GoIntFacts.

(** ** Schedules *)
Section Schedules.

Context {S E : Type} (step : E -> S -> S).

Lemma run_nil s : Sched.run step [] s = s.
Proof. reflexivity. Qed.

Lemma run_cons e sched s :
  Sched.run step (e :: sched) s = Sched.run step sched (step e s).
Proof. reflexivity. Qed.

Lemma run_app sched1 sched2 s :
  Sched.run step (sched1 ++ sched2) s =
  Sched.run step sched2 (Sched.run step sched1 s).
Proof. apply foldl_app. Qed.

Lemma run_snoc sched e s :
  Sched.run step (sched ++ [e]) s = step e (Sched.run step sched s).
Proof. by rewrite run_app. Qed.

(** A property of the initial state that every step keeps holds after
    every schedule. *)
Lemma run_invariant (P : S -> Prop) :
  (forall e s, P s -> P (step e s)) ->
  forall sched s, P s -> P (Sched.run step sched s).
Proof.
  intros Hstep sched. induction sched as [|e sched IH]; intros s Hs; [done|].
  rewrite run_cons. by apply IH, Hstep.
Qed.

(** The same for a property of two states that each step keeps when
    taken on both sides. *)
Lemma run_invariant2 (step' : E -> S -> S) (R : S -> S -> Prop) :
  (forall e s s', R s s' -> R (step e s) (step' e s')) ->
  forall sched s s', R s s' -> R (Sched.run step sched s) (Sched.run step' sched s').
Proof.
  intros Hstep sched. induction sched as [|e sched IH]; intros s s' Hs; [done|].
  rewrite !run_cons. by apply IH, Hstep.
Qed.

End Schedules.

(** ** Sequential programs: [divide], [safeDivide] *)
Section Sequential.

Lemma quot_exact a b :
  GoInt.in_range a -> GoInt.in_range b -> b <> 0 ->
  ~ (a = GoInt.min_int /\ b = -1) ->
  GoInt.quot a b = Z.quot a b.
Proof.
  intros Ha Hb Hb0 Hov. apply wrap_in_range.
  unfold GoInt.in_range, GoInt.min_int, GoInt.max_int in *.
  destruct (decide (b = -1)) as [->|Hb1].
  { change (-1) with (- (1)). rewrite Z.quot_opp_r, Z.quot_1_r by lia. lia. }
  destruct (decide (b = 1)) as [->|Hb2].
  { rewrite Z.quot_1_r. lia. }
  assert (Habs : Z.abs (Z.quot a b) <= 2 ^ 62).
  { rewrite <- Z.quot_abs by done.
    apply Z.quot_le_upper_bound; [lia|]. nia. }
  lia.
Qed.

Lemma divide_zero a out :
  Divide.divide a 0 out = (Go.Panicked "division by zero", out).
Proof. reflexivity. Qed.

Lemma divide_nonzero a b out :
  b <> 0 -> Divide.divide a b out = (Go.Returned (GoInt.quot a b), out).
Proof.
  intros Hb. unfold Divide.divide.
  destruct (Z.eqb_spec b 0) as [?|_]; [done|reflexivity].
Qed.

Lemma safeDivide_zero a out :
  SafeDivide.safeDivide a 0 out =
  (Go.Returned (0, Some "error: division by zero"),
   out ++ ["Recovered from panic: division by zero"]).
Proof. reflexivity. Qed.

Lemma safeDivide_nonzero a b out :
  b <> 0 ->
  SafeDivide.safeDivide a b out = (Go.Returned (GoInt.quot a b, None), out).
Proof.
  intros Hb.
  unfold SafeDivide.safeDivide, SafeDivide.recovered, Go.with_deferred_recover,
    SafeDivide.body.
  destruct (Z.eqb_spec b 0) as [?|_]; [done|reflexivity].
Qed.

Lemma safeDivide_expected ab out :
  exists out',
    SafeDivide.safeDivide (fst ab) (snd ab) out =
    (Go.Returned (SafeDivide.expected ab), out').
Proof.
  destruct ab as [a b]; simpl. unfold SafeDivide.expected; simpl.
  destruct (Z.eqb_spec b 0) as [->|Hb].
  - eexists. apply safeDivide_zero.
  - eexists. by apply safeDivide_nonzero.
Qed.

(** The recover wrapper of [safeDivide] around any body at all: a panic
    with value [v] never leaves the wrapper, it comes back as an error
    next to the zero result. *)
Lemma recover_converts_panic (body : Go.M (Z * option SafeDivide.error)) v out out' :
  body out = (Go.Panicked v, out') ->
  SafeDivide.recovered body out =
  (Go.Returned (0, Some (SafeDivide.task_error v)),
   out' ++ ["Recovered from panic: " +:+ v]).
Proof.
  intros Hb. unfold SafeDivide.recovered, Go.with_deferred_recover.
  rewrite Hb. reflexivity.
Qed.

Lemma safeDivide_main_output :
  Go.run SafeDivide.main =
  (Go.Returned tt,
   ["Recovered from panic: division by zero"; "Error: error: division by zero"]).
Proof. reflexivity. Qed.

(** The unprotected batch stops at the first zero divisor: the tasks
    after it never run. *)
Lemma run_all_unprotected_panics pre a post out :
  Forall (fun ab => snd ab <> 0) pre ->
  SafeDivide.run_all_unprotected (pre ++ (a, 0) :: post) out =
  (Go.Panicked "division by zero", out).
Proof.
  unfold SafeDivide.run_all_unprotected.
  induction 1 as [|[x y] pre Hy _ IH]; simpl in *.
  - reflexivity.
  - unfold Go.bind at 1. rewrite divide_nonzero by done.
    unfold Go.bind at 1. by rewrite IH.
Qed.

End Sequential.

(** C8. [divide(a, b)] panics, with the value "division by zero", exactly
    when [b = 0]; for every other [b] it returns Go's quotient [a / b]
    without panicking and prints nothing; so [main], which prints
    [divide(10, 0)], ends in that panic, unrecovered, before anything is
    printed. *)
Theorem divide_panics_iff_zero_divisor (a b : Z) (out : list string) :
  ((exists v, fst (Divide.divide a b out) = Go.Panicked v) <-> b = 0) /\
  (b = 0 -> Divide.divide a b out = (Go.Panicked "division by zero", out)) /\
  (b <> 0 -> Divide.divide a b out = (Go.Returned (GoInt.quot a b), out)) /\
  (b <> 0 -> GoInt.in_range a -> GoInt.in_range b ->
   ~ (a = GoInt.min_int /\ b = -1) -> GoInt.quot a b = Z.quot a b) /\
  Go.run Divide.main = (Go.Panicked "division by zero", []).
Proof.
  split; [|split; [|split; [|split]]].
  - split.
    + intros [v Hv]. destruct (decide (b = 0)) as [|Hb]; [done|].
      rewrite divide_nonzero in Hv by done. discriminate.
    + intros ->. by exists "division by zero"%string.
  - intros ->. apply divide_zero.
  - apply divide_nonzero.
  - intros. by apply quot_exact.
  - reflexivity.
Qed.

(** C2. A panic raised inside the frame of [safeDivide] is recovered at
    the boundary of the call, whatever body raised it: the call returns
    normally and its own result carries the error made from the panic
    value (for the division by zero: the zero quotient and
    "error: division by zero"), so the caller goes on.  In a batch of
    calls the batch always returns, and every result is the one its own
    arguments determine, whatever the other calls did. *)
Theorem safeDivide_recovers_panic (tasks : list (Z * Z)) (out : list string) :
  (forall (body : Go.M (Z * option SafeDivide.error)) v o o',
     body o = (Go.Panicked v, o') ->
     SafeDivide.recovered body o =
       (Go.Returned (0, Some (SafeDivide.task_error v)),
        o' ++ ["Recovered from panic: " +:+ v])) /\
  exists out',
    SafeDivide.run_all tasks out = (Go.Returned (SafeDivide.expected <$> tasks), out') /\
    (forall i a b, tasks !! i = Some (a, b) -> b = 0 ->
       fst (SafeDivide.body a b out) = Go.Panicked "division by zero" /\
       (SafeDivide.expected <$> tasks) !! i =
         Some (0, Some (SafeDivide.task_error "division by zero"))) /\
    (forall i a b, tasks !! i = Some (a, b) -> b <> 0 ->
       (SafeDivide.expected <$> tasks) !! i = Some (GoInt.quot a b, None)).
Proof.
  split; [apply recover_converts_panic|].
  assert (Hrun : forall ts o, exists o',
    SafeDivide.run_all ts o = (Go.Returned (SafeDivide.expected <$> ts), o')).
  { unfold SafeDivide.run_all. induction ts as [|ab ts IH]; intros o; simpl.
    - by eexists.
    - destruct (safeDivide_expected ab o) as [o1 H1].
      destruct (IH o1) as [o2 H2]. exists o2.
      unfold Go.bind at 1. rewrite H1. unfold Go.bind at 1. by rewrite H2. }
  destruct (Hrun tasks out) as [out' Hout]. exists out'.
  split; [done|split].
  - intros i a b Hi ->. split; [reflexivity|].
    rewrite list_lookup_fmap, Hi. reflexivity.
  - intros i a b Hi Hb. rewrite list_lookup_fmap, Hi. simpl.
    unfold SafeDivide.expected; simpl.
    destruct (Z.eqb_spec b 0); [done|reflexivity].
Qed.

(** ** The slice helpers of src/05-how-to-use/main.go *)
Section SliceHelpers.

Lemma filter_acc (predicate : Z -> bool) slice acc :
  foldl (fun result value => if predicate value then result ++ [value] else result)
        acc slice
  = acc ++ List.filter predicate slice.
Proof.
  revert acc. induction slice as [|x slice IH]; intros acc; simpl.
  - by rewrite app_nil_r.
  - rewrite IH. destruct (predicate x); [|done].
    by rewrite <- app_assoc.
Qed.

Lemma filter_spec slice predicate :
  HowToUse.filter slice predicate = List.filter predicate slice.
Proof. unfold HowToUse.filter. by rewrite filter_acc. Qed.

Lemma mapSlice_go (transform : Z -> Z) suf : forall k res,
  length res = (k + length suf)%nat ->
  foldl (fun result iv => <[fst iv := transform (snd iv)]> result) res
        (imap (fun i value => ((k + i)%nat, value)) suf)
  = take k res ++ (transform <$> suf).
Proof.
  induction suf as [|x suf IH]; intros k res Hlen; simpl in *.
  - rewrite app_nil_r, take_ge; [done|lia].
  - rewrite (imap_ext _ (fun i value => ((S k + i)%nat, value))).
    2:{ intros i y _. simpl. f_equal. lia. }
    rewrite IH by (rewrite length_insert; lia).
    rewrite Nat.add_0_r.
    rewrite (take_S_r _ _ (transform x)).
    2:{ apply list_lookup_insert_eq. lia. }
    rewrite take_insert_ge by lia. by rewrite <- app_assoc.
Qed.

Lemma mapSlice_spec slice transform :
  HowToUse.mapSlice slice transform = transform <$> slice.
Proof.
  unfold HowToUse.mapSlice, HowToUse.range.
  apply (mapSlice_go transform slice 0%nat). by rewrite length_replicate.
Qed.

Lemma pipeline_example :
  HowToUse.pipeline [1; 2; 3; 4; 5; 6; 7; 8; 9; 10] = 60.
Proof. reflexivity. Qed.

End SliceHelpers.

(** C10. [filter(s, p)] is the sublist of the elements of [s] that satisfy
    [p], in their original order: it equals the reference filter, every
    element of the result satisfies [p] and comes from [s], no satisfying
    element is lost, and the result is empty exactly when no element of
    [s] satisfies [p]. *)
Theorem filter_is_reference_filter (s : list Z) (p : Z -> bool) :
  HowToUse.filter s p = List.filter p s /\
  sublist (HowToUse.filter s p) s /\
  (forall x, x ∈ HowToUse.filter s p <-> x ∈ s /\ p x = true) /\
  (HowToUse.filter s p = [] <-> forall x, x ∈ s -> p x = false).
Proof.
  rewrite filter_spec. split; [done|split; [|split]].
  - induction s as [|x s IH]; simpl; [constructor|].
    destruct (p x); by constructor.
  - intros x. rewrite !list_elem_of_In. apply filter_In.
  - split.
    + intros Hnil x Hx. destruct (p x) eqn:Hp; [|done].
      assert (Hin : In x (List.filter p s)).
      { apply filter_In. by rewrite <- list_elem_of_In. }
      rewrite Hnil in Hin. destruct Hin.
    + intros Hall. induction s as [|x s IH]; simpl; [done|].
      rewrite Hall by apply list_elem_of_here.
      apply IH. intros y Hy. apply Hall. by apply list_elem_of_further.
Qed.

(** ** [parallelProcessing] *)
Section ParallelProcessing.

Import HowToUse.

Variable slice : list Z.
Variable worker : Z -> Z.

Lemma pp_inv_init : pp_inv slice worker (pp_init slice).
Proof.
  split; simpl; try done.
  - by rewrite length_replicate.
  - lia.
  - intros i. lia.
  - intros i. split; [by intros ?%elem_of_nil|lia].
  - constructor.
Qed.

Lemma pp_inv_step e s :
  pp_inv slice worker s -> pp_inv slice worker (pp_step slice worker e s).
Proof.
  intros Hinv.
  pose proof Hinv as [Hlen Hnext Hwg Hpool Hdone Hcalls Hnodup Hret].
  destruct e as [|i]; simpl.
  - destruct (pp_returned s) eqn:Hr; [done|].
    destruct (slice !! pp_next s) as [v|] eqn:Hv.
    + assert (Hfresh : pp_pool s !! pp_next s = None).
      { destruct (pp_pool s !! pp_next s) eqn:Hp; [|done].
        apply Hpool in Hp as [? _]. lia. }
      apply lookup_lt_Some in Hv as Hlt.
      split; simpl; try done.
      * by rewrite map_size_insert_None, Hwg.
      * intros j w. rewrite lookup_insert. case_decide as Hj.
        -- intros [= <-]. subst j. split; [lia|done].
        -- intros [? ?]%Hpool. split; [lia|done].
      * intros j Hj. rewrite lookup_insert. case_decide; [done|].
        intros Hn. apply Hdone; [lia|done].
      * intros j. rewrite Hcalls, lookup_insert. case_decide as Hj.
        -- subst j. split; [lia|by intros [_ ?]].
        -- split; intros [? ?]; (split; [lia|done]).
    + apply lookup_ge_None in Hv.
      case_decide as Hz; [|done].
      split; simpl; try done. intros _. split; [lia|done].
  - destruct (pp_pool s !! i) as [v|] eqn:Hp; [|done].
    destruct (Hpool _ _ Hp) as [Hi Hsl].
    split; simpl.
    + by rewrite length_insert.
    + done.
    + rewrite map_size_delete, Hp, Hwg. done.
    + intros j w. rewrite lookup_delete. case_decide; [done|]. apply Hpool.
    + intros j Hj. rewrite lookup_delete. case_decide as Hji.
      * intros _. subst j. rewrite Hsl. simpl.
        apply list_lookup_insert_eq. apply lookup_lt_Some in Hsl. lia.
      * intros Hn. rewrite list_lookup_insert_ne by done. by apply Hdone.
    + intros j. rewrite elem_of_app, list_elem_of_singleton, Hcalls, lookup_delete.
      case_decide as Hji.
      * subst j. split; [by intros _|by right].
      * split; [intros [?|?]; [done|congruence]|by left].
    + apply NoDup_app. split; [done|]. split; [|apply NoDup_singleton].
      intros j Hj ->%list_elem_of_singleton.
      apply Hcalls in Hj as [_ Hj]. congruence.
    + intros Hr. destruct (Hret Hr) as [? Hz].
      rewrite Hz in Hwg. symmetry in Hwg. apply map_size_empty_inv in Hwg.
      rewrite Hwg in Hp. by rewrite lookup_empty in Hp.
Qed.

Lemma pp_inv_run sched : pp_inv slice worker (pp_run slice worker sched).
Proof.
  unfold pp_run. apply run_invariant; [apply pp_inv_step|apply pp_inv_init].
Qed.

(** Once the function has returned, every slot holds its own element's
    image. *)
Lemma pp_returned_result s :
  pp_inv slice worker s -> pp_returned s = true ->
  pp_result s = worker <$> slice.
Proof.
  intros [Hlen Hnext Hwg Hpool Hdone _ _ Hret] Hr.
  destruct (Hret Hr) as [Hn Hz].
  rewrite Hz in Hwg. symmetry in Hwg. apply map_size_empty_inv in Hwg.
  apply list_eq. intros i. rewrite list_lookup_fmap.
  destruct (decide (i < length slice)%nat) as [Hi|Hi].
  - apply Hdone; [lia|]. by rewrite Hwg, lookup_empty.
  - rewrite !lookup_ge_None_2; [done|lia..].
Qed.

Lemma pp_run_length sched :
  length (pp_result (pp_run slice worker sched)) = length slice.
Proof. apply pp_inv_run. Qed.

(** Safety: whenever the function has returned, under any schedule, it
    returned the element-wise image of its input. *)
Lemma parallelProcessing_safe sched results :
  parallelProcessing slice worker sched = Some results ->
  results = worker <$> slice.
Proof.
  unfold parallelProcessing.
  destruct (pp_returned (pp_run slice worker sched)) eqn:Hr; [|done].
  intros [= <-]. apply pp_returned_result; [apply pp_inv_run|done].
Qed.

(** Every worker call belongs to one task, and at the return every task
    has had exactly one. *)
Lemma pp_each_task_called_once sched :
  NoDup (pp_calls (pp_run slice worker sched)) /\
  (pp_returned (pp_run slice worker sched) = true ->
   pp_calls (pp_run slice worker sched) ≡ₚ seq 0 (length slice)).
Proof.
  destruct (pp_inv_run sched) as [_ _ Hwg _ _ Hcalls Hnodup Hret].
  split; [done|]. intros Hr. destruct (Hret Hr) as [Hn Hz].
  rewrite Hz in Hwg. symmetry in Hwg. apply map_size_empty_inv in Hwg.
  apply NoDup_Permutation; [done|apply NoDup_seq|].
  intros i. rewrite Hcalls, Hwg, lookup_empty, elem_of_seq, Hn.
  split; [intros [? _]; lia|intros [_ ?]; split; [lia|done]].
Qed.

(** Liveness.  The loop's steps: from any reachable state, [k] turns of
    the function take the loop [k] indices further, or to its end. *)
Lemma pp_main_steps k : forall s,
  pp_inv slice worker s ->
  (Nat.min (length slice) (pp_next s + k)
   <= pp_next (Sched.run (pp_step slice worker) (replicate k Main) s))%nat.
Proof.
  induction k as [|k IH]; intros s Hinv.
  - simpl. lia.
  - rewrite replicate_S, run_cons.
    pose proof (pp_inv_step Main s Hinv) as Hinv1.
    specialize (IH _ Hinv1). etrans; [|exact IH].
    destruct Hinv as [_ Hnext _ _ _ _ _ Hret]. simpl.
    destruct (pp_returned s) eqn:Hr.
    { destruct (Hret eq_refl) as [-> _]. lia. }
    destruct (slice !! pp_next s) as [v|] eqn:Hv; simpl; [lia|].
    apply lookup_ge_None in Hv. case_decide; simpl; lia.
Qed.

(** Goroutine steps leave the loop alone and only take goroutines out of
    the pool; a goroutine that had its turn is out. *)
Lemma pp_goroutine_steps order s s' :
  s' = Sched.run (pp_step slice worker) (Goroutine <$> order) s ->
  pp_next s' = pp_next s /\ pp_returned s' = pp_returned s /\
  (forall i, pp_pool s !! i = None -> pp_pool s' !! i = None) /\
  (forall i, i ∈ order -> pp_pool s' !! i = None).
Proof.
  revert s s'. induction order as [|j order IH]; intros s s' ->.
  - split; [done|]. split; [done|]. split; [done|]. by intros i ?%elem_of_nil.
  - rewrite fmap_cons, run_cons.
    destruct (IH (pp_step slice worker (Goroutine j) s) _ eq_refl)
      as (Hn & Hr & Hkeep & Hout).
    assert (Hj : pp_pool (pp_step slice worker (Goroutine j) s) !! j = None).
    { simpl. destruct (pp_pool s !! j) eqn:Hp; simpl; [|done].
      apply lookup_delete_eq. }
    assert (Hmono : forall i, pp_pool s !! i = None ->
              pp_pool (pp_step slice worker (Goroutine j) s) !! i = None).
    { intros i Hi. simpl. destruct (pp_pool s !! j) eqn:Hp; simpl; [|done].
      rewrite lookup_delete. by case_decide. }
    split; [|split; [|split]].
    + rewrite Hn. simpl. by destruct (pp_pool s !! j).
    + rewrite Hr. simpl. by destruct (pp_pool s !! j).
    + intros i Hi. by apply Hkeep, Hmono.
    + intros i [->|Hi]%elem_of_cons; [by apply Hkeep|by apply Hout].
Qed.

(** From every state the run can be in (after any schedule [pre]), once
    the function has had its turns at the loop, each goroutine a turn (in
    any order, with repetitions or strangers) and the function a turn at
    [wg.Wait()], the function has returned. *)
Lemma parallelProcessing_live pre order :
  (forall i, (i < length slice)%nat -> i ∈ order) ->
  parallelProcessing slice worker (pre ++ pp_schedule (length slice) order)
  = Some (worker <$> slice).
Proof.
  intros Hall.
  assert (Hret : pp_returned (pp_run slice worker
                   (pre ++ pp_schedule (length slice) order)) = true).
  { unfold pp_schedule, pp_run. rewrite !run_app.
    change (Sched.run (pp_step slice worker) [Main] ?s) with (pp_step slice worker Main s).
    fold (pp_run slice worker pre).
    pose proof (pp_inv_run pre) as Hinv0.
    pose proof (pp_main_steps (length slice) _ Hinv0) as Hn.
    set (s1 := Sched.run (pp_step slice worker) (replicate (length slice) Main)
                 (pp_run slice worker pre)) in *.
    assert (Hinv1 : pp_inv slice worker s1).
    { apply run_invariant; [apply pp_inv_step|done]. }
    set (s2 := Sched.run (pp_step slice worker) (Goroutine <$> order) s1) in *.
    destruct (pp_goroutine_steps order s1 s2 eq_refl) as (Hn' & Hr' & _ & Hout).
    assert (Hinv : pp_inv slice worker s2).
    { apply run_invariant; [apply pp_inv_step|done]. }
    destruct Hinv1 as [_ Hnext1 _ _ _ _ _ _].
    destruct Hinv as [_ _ Hwg Hpool _ _ _ _].
    assert (Hempty : pp_pool s2 = ∅).
    { apply map_empty. intros i.
      destruct (pp_pool s2 !! i) as [v|] eqn:Hp; [|done].
      destruct (Hpool _ _ Hp) as [Hi _].
      rewrite Hout in Hp; [done|]. apply Hall. lia. }
    simpl. destruct (pp_returned s2) eqn:Hr2; [done|].
    rewrite (lookup_ge_None_2 slice) by lia.
    rewrite Hwg, Hempty, map_size_empty. by case_decide. }
  unfold parallelProcessing. rewrite Hret. f_equal.
  apply pp_returned_result; [apply pp_inv_run|done].
Qed.

End ParallelProcessing.

Section ParallelProcessingEmpty.

Import HowToUse.

(** With nothing to start, the first turn of the function returns. *)
Lemma pp_empty_run worker sched :
  pp_run [] worker sched =
  PP 0 0 ∅ [] [] (bool_decide (Main ∈ sched)).
Proof.
  unfold pp_run. induction sched as [|e sched IH] using rev_ind; [done|].
  rewrite run_snoc, IH. destruct e as [|i]; simpl.
  - rewrite (bool_decide_eq_true_2 (Main ∈ sched ++ [Main])).
    2:{ apply elem_of_app. right. by apply list_elem_of_singleton. }
    by destruct (bool_decide (Main ∈ sched)).
  - rewrite lookup_empty. f_equal. apply bool_decide_ext.
    rewrite elem_of_app, list_elem_of_singleton.
    split; [by left|intros [?|?]; [done|discriminate]].
Qed.

Example parallel_doubling :
  parallelProcessing [1; 2; 3] double (pp_schedule 3 [2; 0; 1])%nat = Some [2; 4; 6].
Proof. reflexivity. Qed.

Example parallel_squares_of_main :
  parallelProcessing [1; 2; 3; 4; 5; 6; 7; 8; 9; 10] square
    (pp_schedule 10 [9; 3; 0; 1; 8; 2; 7; 4; 6; 5])%nat
  = Some [1; 4; 9; 16; 25; 36; 49; 64; 81; 100].
Proof. reflexivity. Qed.

End ParallelProcessingEmpty.

(** C1. Run on [N] inputs, [parallelProcessing] returns exactly [N]
    results in the order of the inputs, the one at index [i] being the
    worker applied to input [i]: this is what it has returned whenever it
    has returned, under any interleaving of its goroutines, and it does
    return, whatever happened before ([pre]), once the loop, every
    goroutine and [wg.Wait()] have had their turns.  The sequential
    [mapSlice] computes the same slice.  Doubling [1, 2, 3] yields
    [2, 4, 6]. *)
Theorem parallelProcessing_results_in_submission_order
    (slice : list Z) (worker : Z -> Z) :
  (forall sched results,
     HowToUse.parallelProcessing slice worker sched = Some results ->
     length results = length slice /\
     (forall i, results !! i = worker <$> slice !! i) /\
     results = HowToUse.mapSlice slice worker) /\
  (forall pre order, (forall i, (i < length slice)%nat -> i ∈ order) ->
     HowToUse.parallelProcessing slice worker
       (pre ++ HowToUse.pp_schedule (length slice) order) = Some (worker <$> slice)) /\
  HowToUse.mapSlice slice worker = worker <$> slice /\
  HowToUse.parallelProcessing [1; 2; 3] HowToUse.double
    (HowToUse.pp_schedule 3 [1; 0; 2]%nat) = Some [2; 4; 6] /\
  HowToUse.mapSlice [1; 2; 3] HowToUse.double = [2; 4; 6].
Proof.
  split; [|split; [|split; [|split]]].
  - intros sched results ->%parallelProcessing_safe.
    rewrite length_fmap, mapSlice_spec. split; [done|]. split; [|done].
    intros i. apply list_lookup_fmap.
  - apply parallelProcessing_live.
  - apply mapSlice_spec.
  - reflexivity.
  - reflexivity.
Qed.

(** C3. The result slice of [parallelProcessing] has one slot per input
    from the start and in every state the run can reach, so also in the
    state it returns from; and the function does return: whatever has
    happened so far ([sched]), once the loop, every goroutine and
    [wg.Wait()] have had their turns it has returned a slice with one
    result per input.  [mapSlice] returns as many results as inputs.  On
    an empty input the function returns the empty slice at its first
    turn, whatever else is scheduled. *)
Theorem parallelProcessing_result_length
    (slice : list Z) (worker : Z -> Z) (sched : list HowToUse.pp_event) :
  length (HowToUse.pp_result (HowToUse.pp_run slice worker sched)) = length slice /\
  (forall results, HowToUse.parallelProcessing slice worker sched = Some results ->
     length results = length slice) /\
  (forall order, (forall i, (i < length slice)%nat -> i ∈ order) ->
     exists results,
       HowToUse.parallelProcessing slice worker
         (sched ++ HowToUse.pp_schedule (length slice) order) = Some results /\
       length results = length slice) /\
  length (HowToUse.mapSlice slice worker) = length slice /\
  (HowToUse.Main ∈ sched -> HowToUse.parallelProcessing [] worker sched = Some []) /\
  HowToUse.parallelProcessing [] worker [HowToUse.Main] = Some [] /\
  HowToUse.mapSlice [] worker = [].
Proof.
  split; [apply pp_run_length|]. split; [|split; [|split; [|split; [|split]]]].
  - unfold HowToUse.parallelProcessing.
    destruct (HowToUse.pp_returned _); [|done].
    intros results [= <-]. apply pp_run_length.
  - intros order Hall. exists (worker <$> slice).
    split; [by apply parallelProcessing_live|apply length_fmap].
  - by rewrite mapSlice_spec, length_fmap.
  - intros Hmain. unfold HowToUse.parallelProcessing.
    rewrite pp_empty_run. simpl. by rewrite bool_decide_eq_true_2.
  - reflexivity.
  - reflexivity.
Qed.

(** ** The channel as a semaphore (src/07-errors/main.go) *)
Section Semaphore.

Import SyncErrors.

Lemma plain_not_in_section c : plain c = true -> in_section c = false.
Proof.
  induction c as [|ins c IH]; [done|]. simpl.
  destruct ins; simpl; try done; intros ?; by apply IH.
Qed.

Lemma active_app gs g :
  active (gs ++ [g]) = (active gs + Nat.b2n (in_section (code g)))%nat.
Proof.
  unfold active. rewrite List.filter_app, length_app. simpl.
  by destruct (in_section (code g)).
Qed.

Lemma active_insert gs i g g' :
  gs !! i = Some g ->
  (active (<[i:=g']> gs) + Nat.b2n (in_section (code g)))%nat =
  (active gs + Nat.b2n (in_section (code g')))%nat.
Proof.
  unfold active. revert i. induction gs as [|h gs IH]; intros [|i] Hi; try done.
  - injection Hi as ->. simpl.
    destruct (in_section (code g)), (in_section (code g')); simpl; lia.
  - simpl in *. specialize (IH i Hi).
    destruct (in_section (code h)); simpl; lia.
Qed.

Variable cfg : config.
Hypothesis prog_wf : forall i,
  before_section (prog cfg i) || plain (prog cfg i) = true.

Lemma inv_init : inv cfg init.
Proof. split; simpl; [constructor|done|lia]. Qed.

Lemma inv_step e s : inv cfg s -> inv cfg (step cfg e s).
Proof.
  intros Hinv. pose proof Hinv as [Hwf Hchan Hcap].
  destruct e as [|i]; simpl.
  - destruct (returned s); [done|].
    case_decide; [|case_decide; [by split|done]].
    pose proof (prog_wf (next s)) as Hp.
    split; simpl; [| |done].
    + apply Forall_app. split; [done|]. constructor; [|constructor].
      simpl. unfold well_formed.
      apply orb_true_iff in Hp as [->| ->]; [done|]. by rewrite orb_true_r.
    + rewrite active_app. simpl.
      apply orb_true_iff in Hp as [Hp|Hp].
      * destruct (prog cfg (next s)) as [|[] ?]; try done. simpl. lia.
      * rewrite (plain_not_in_section _ Hp). simpl. lia.
  - destruct (gors s !! i) as [[[|ins rest] t]|] eqn:Hg; try done.
    pose proof (Forall_lookup_1 _ _ _ _ Hwf Hg) as Hc. simpl in Hc.
    assert (Hins : forall t',
      Forall (fun g => well_formed (code g) = true) (<[i:=Gor rest t']> (gors s)) /\
      match ins with
      | Send _ => active (<[i:=Gor rest t']> (gors s)) = S (active (gors s))
      | Recv => S (active (<[i:=Gor rest t']> (gors s))) = active (gors s)
      | _ => active (<[i:=Gor rest t']> (gors s)) = active (gors s)
      end).
    { intros t'. pose proof (active_insert _ _ _ (Gor rest t') Hg) as Ha.
      simpl in Ha. unfold well_formed in *.
      split.
      - apply Forall_insert; [done|]. simpl.
        destruct ins; simpl in Hc;
          destruct (before_section rest), (in_section rest), (plain rest); done.
      - destruct ins; simpl in Hc; rewrite ?orb_false_r in Hc; try lia.
        + rewrite Hc in Ha. simpl in Ha. lia.
        + rewrite Hc, (plain_not_in_section _ Hc) in Ha. simpl in Ha. lia. }
    unfold advance.
    destruct ins; try (destruct (Hins t) as [H1 H2]; split; simpl; [done|lia|done]).
    + case_decide; [|done].
      destruct (Hins t) as [H1 H2]. split; simpl; [done| |].
      * rewrite length_app. simpl. lia.
      * rewrite length_app. simpl. lia.
    + destruct (chan s) as [|x chan'] eqn:Hch; [done|].
      destruct (Hins t) as [H1 H2]. split; simpl in *; [done|lia|lia].
    + destruct (Hins (counter s)) as [H1 H2]. split; simpl; [done|lia|done].
Qed.

Lemma inv_run sched : inv cfg (run cfg sched).
Proof. unfold run. apply run_invariant; [apply inv_step|apply inv_init]. Qed.

(** At most [capacity] goroutines are in their section at any time. *)
Lemma executing_le_capacity sched :
  (executing (run cfg sched) <= capacity cfg)%nat.
Proof.
  destruct (inv_run sched) as [_ Hchan Hcap]. unfold executing. lia.
Qed.

End Semaphore.

Section SemaphoreInstances.

Import SyncErrors.

Lemma syncBestPractices_wf cap n i :
  before_section (prog (syncBestPractices cap n) i)
  || plain (prog (syncBestPractices cap n) i) = true.
Proof. reflexivity. Qed.

Lemma exampleDataRace_wf i :
  before_section (prog exampleDataRace i) || plain (prog exampleDataRace i) = true.
Proof. reflexivity. Qed.

(** The bound is tight: with two slots, two tasks do overlap. *)
Example two_slots_overlap :
  executing (run (syncBestPractices 2 2)
                 [Main; Main; Goroutine 0; Goroutine 1]%nat) = 2%nat.
Proof. reflexivity. Qed.

(** One slot, three tasks, a schedule that mixes their turns: the tasks
    still run one after the other, and the function returns. *)
Example one_slot_run :
  let s := run (syncBestPractices 1 3)
             ([Main; Main; Main; Goroutine 1; Goroutine 0; Goroutine 2;
               Goroutine 1; Goroutine 0; Goroutine 1; Goroutine 1;
               Goroutine 0; Goroutine 2; Goroutine 1; Goroutine 0;
               Goroutine 0; Goroutine 0; Goroutine 0; Main;
               Goroutine 2; Goroutine 2; Goroutine 2; Goroutine 2;
               Goroutine 2; Main])%nat in
  out s = ["Processing task 1"; "Processing task 0"; "Processing task 2";
           "All tasks processed"] /\ returned s = true.
Proof. vm_compute. done. Qed.

End SemaphoreInstances.

Section DataRace.
Import SyncErrors.

Lemma count_app f gs g :
  count f (gs ++ [g]) = (count f gs + Nat.b2n (f g))%nat.
Proof.
  unfold count. rewrite List.filter_app, length_app. simpl. by destruct (f g).
Qed.

Lemma count_insert f gs i g g' :
  gs !! i = Some g ->
  (count f (<[i:=g']> gs) + Nat.b2n (f g))%nat = (count f gs + Nat.b2n (f g'))%nat.
Proof.
  unfold count. revert i. induction gs as [|h gs IH]; intros [|i] Hi; try done.
  - injection Hi as ->. simpl. destruct (f g), (f g'); simpl; lia.
  - simpl in *. specialize (IH i Hi). destruct (f h); simpl; lia.
Qed.

Lemma count_le_length f gs : (count f gs <= length gs)%nat.
Proof. apply List.filter_length_le. Qed.

Lemma count_pos f gs i g :
  gs !! i = Some g -> f g = true -> (1 <= count f gs)%nat.
Proof.
  unfold count. revert i. induction gs as [|h gs IH]; intros [|i] Hi Hg; try done.
  - injection Hi as ->. simpl. rewrite Hg. simpl. lia.
  - simpl in *. specialize (IH i Hi Hg). destruct (f h); simpl; lia.
Qed.

(** Two different goroutines of a kind count for two. *)
Lemma count_two f gs i j g g' :
  i <> j -> gs !! i = Some g -> gs !! j = Some g' ->
  f g = true -> f g' = true -> (2 <= count f gs)%nat.
Proof.
  revert i j. induction gs as [|h gs IH]; intros [|i] [|j] Hij Hi Hj Hg Hg'; try done.
  - injection Hi as ->. pose proof (count_pos f gs j g' Hj Hg').
    unfold count in *. simpl. rewrite Hg. simpl. lia.
  - injection Hj as ->. pose proof (count_pos f gs i g Hi Hg).
    unfold count in *. simpl. rewrite Hg'. simpl. lia.
  - assert (2 <= count f gs)%nat by (eapply (IH i j); eauto).
    unfold count in *. simpl. destruct (f h); simpl; lia.
Qed.

Lemma all_finished_stored gs :
  count (fun g => negb (finished g)) gs = 0%nat -> count stored gs = length gs.
Proof.
  unfold count. induction gs as [|g gs IH]; [done|]. simpl.
  unfold finished, stored at 1. destruct (code g) as [|[] [|[] [|]]]; simpl; try done;
    intros H; f_equal; by apply IH.
Qed.

Variable n : nat.
Hypothesis n_small : Z.of_nat n <= GoInt.max_int.

Lemma race_inv_init : race_inv n init.
Proof. split; simpl; try done. split; [done|lia]. Qed.

Lemma race_inv_step e s :
  inv (dataRace 1 n) s -> race_inv n s -> race_inv n (step (dataRace 1 n) e s).
Proof.
  intros [_ Hchan Hcap] Hrace.
  pose proof Hrace as [Hphase Hcnt Htmp Hwg [Hnext Hle] Hout Hret].
  destruct e as [|i]; simpl.
  - destruct (returned s) eqn:Hr; [done|].
    case_decide as Hlt.
    { split; simpl; try done.
      - apply Forall_app. split; [done|]. constructor; [|constructor].
        exists 0%nat. split; [lia|done].
      - rewrite count_app. simpl. lia.
      - intros j g Hj Hl. apply lookup_app_Some in Hj as [Hj|[_ Hj]].
        + by eapply Htmp.
        + apply list_lookup_singleton_Some in Hj as [_ <-]. done.
      - rewrite count_app. simpl. lia.
      - rewrite length_app. simpl. lia. }
    case_decide as Hz; [|done].
    assert (Hn : next s = n) by lia.
    split; simpl; try done.
    + rewrite Hout. simpl. do 2 f_equal.
      rewrite Hcnt, all_finished_stored by by rewrite <- Hwg.
      by rewrite <- Hnext, Hn.
  - destruct (gors s !! i) as [[[|ins rest] t]|] eqn:Hg; try done.
    pose proof (Forall_lookup_1 _ _ _ _ Hphase Hg) as (k & Hk & Hcode). simpl in Hcode.
    assert (Hupd : forall t' f,
      (count f (<[i:=Gor rest t']> (gors s)) + Nat.b2n (f (Gor (ins :: rest) t)))%nat
      = (count f (gors s) + Nat.b2n (f (Gor rest t')))%nat).
    { intros t' f. by apply count_insert. }
    assert (Hph : forall t',
      Forall (fun g => exists k, (k <= 5)%nat /\ code g = drop k race_prog)
             (<[i:=Gor rest t']> (gors s))).
    { intros t'. apply Forall_insert; [done|]. exists (S k). simpl.
      destruct k as [|[|[|[|[|[|]]]]]]; simplify_eq/=; split; (lia || done). }
    assert (Hlen : forall t', length (<[i:=Gor rest t']> (gors s)) = length (gors s))
      by (intros; apply length_insert).
    assert (Hothers : forall t' j g, <[i:=Gor rest t']> (gors s) !! j = Some g ->
              j <> i -> gors s !! j = Some g).
    { intros t' j g Hj Hne. by rewrite list_lookup_insert_ne in Hj. }
    assert (Hself : forall t' g, <[i:=Gor rest t']> (gors s) !! i = Some g ->
              g = Gor rest t').
    { intros t' g. rewrite list_lookup_insert_eq by by eapply lookup_lt_Some.
      by intros [= <-]. }
    unfold advance.
    destruct k as [|[|[|[|[|[|]]]]]]; simplify_eq/=.
    + (* ch <- 1 *)
      case_decide; [|done].
      pose proof (Hupd t stored) as H1. pose proof (Hupd t (fun g => negb (finished g))) as H2.
      simpl in *.
      split; simpl; try done; [lia| |lia|by rewrite Hlen].
      intros j g Hj Hl. destruct (decide (j = i)) as [->|Hne].
      * by apply Hself in Hj as ->.
      * eapply Htmp; [by eapply Hothers|done].
    + (* counter++, the read *)
      pose proof (Hupd (counter s) stored) as H1.
      pose proof (Hupd (counter s) (fun g => negb (finished g))) as H2.
      simpl in *.
      split; simpl; try done; [lia| |lia|by rewrite Hlen].
      intros j g Hj Hl. destruct (decide (j = i)) as [->|Hne].
      * by apply Hself in Hj as ->.
      * eapply Htmp; [by eapply Hothers|done].
    + (* counter++, the write *)
      pose proof (Hupd t stored) as H1. pose proof (Hupd t (fun g => negb (finished g))) as H2.
      simpl in *.
      assert (Ht : t = counter s) by (by apply (Htmp i _ Hg)).
      assert (Hadd : GoInt.add t 1 = counter s + 1).
      { unfold GoInt.add. rewrite Ht. apply wrap_in_range.
        pose proof (count_le_length stored (<[i:=Gor [Recv; WgDone] t]> (gors s))) as Hc.
        rewrite Hlen in Hc.
        unfold GoInt.in_range, GoInt.min_int, GoInt.max_int in *. lia. }
      split; simpl; try done; [lia| |lia|by rewrite Hlen].
      intros j g Hj Hl. destruct (decide (j = i)) as [->|Hne].
      * by apply Hself in Hj as ->.
      * exfalso. apply Hothers in Hj; [|done].
        assert (2 <= active (gors s))%nat; [|simpl in *; lia].
        apply (count_two (fun g => in_section (code g)) _ i j
                 (Gor [Store; Recv; WgDone] t) g); try done.
        unfold loaded in Hl. destruct (code g) as [|[] c] eqn:Hc; try done.
        pose proof (Forall_lookup_1 _ _ _ _ Hphase Hj) as (k & Hk' & Hcode').
        rewrite Hc in Hcode'.
        destruct k as [|[|[|[|[|[|]]]]]]; simplify_eq/=; done.
    + (* <-ch *)
      destruct (chan s) as [|x chan'] eqn:Hch; [done|].
      pose proof (Hupd t stored) as H1. pose proof (Hupd t (fun g => negb (finished g))) as H2.
      simpl in *.
      split; simpl; try done; [lia| |lia|by rewrite Hlen].
      intros j g Hj Hl. destruct (decide (j = i)) as [->|Hne].
      * by apply Hself in Hj as ->.
      * eapply Htmp; [by eapply Hothers|done].
    + (* wg.Done() *)
      pose proof (Hupd t stored) as H1. pose proof (Hupd t (fun g => negb (finished g))) as H2.
      simpl in *.
      split; simpl; try done; [lia| |lia|by rewrite Hlen|].
      * intros j g Hj Hl. destruct (decide (j = i)) as [->|Hne].
        -- by apply Hself in Hj as ->.
        -- eapply Htmp; [by eapply Hothers|done].
      * intros Hr. destruct (Hret Hr) as [? Hz]. lia.
Qed.

Lemma race_inv_run sched : race_inv n (run (dataRace 1 n) sched).
Proof.
  assert (H : inv (dataRace 1 n) (run (dataRace 1 n) sched) /\
              race_inv n (run (dataRace 1 n) sched)); [|by destruct H].
  unfold run.
  apply (run_invariant (step (dataRace 1 n))
           (fun s => inv (dataRace 1 n) s /\ race_inv n s)).
  - intros e s [Hi Hr]. split; [|by apply race_inv_step].
    apply inv_step; [|done]. intros j. reflexivity.
  - split; [apply inv_init|apply race_inv_init].
Qed.

(** Whenever [dataRace 1 n] has returned, every increment has been
    counted and the count is what it printed. *)
Lemma dataRace_counts sched :
  returned (run (dataRace 1 n) sched) = true ->
  counter (run (dataRace 1 n) sched) = Z.of_nat n /\
  out (run (dataRace 1 n) sched) = ["Counter: " +:+ itoa (Z.of_nat n)].
Proof.
  intros Hr. destruct (race_inv_run sched) as [_ Hcnt _ Hwg [Hnext _] Hout Hret].
  destruct (Hret Hr) as [Hn Hz]. split.
  - rewrite Hcnt, all_finished_stored by by rewrite <- Hwg.
    by rewrite <- Hnext, Hn.
  - by rewrite Hout, Hr.
Qed.

End DataRace.

Section DataRaceExamples.
Import SyncErrors.

(** Three goroutines, one slot, turns taken in a mixed order. *)
Example dataRace_one_slot :
  let s := run (dataRace 1 3)
             ([Main; Main; Goroutine 1; Goroutine 0; Goroutine 1; Main;
               Goroutine 2; Goroutine 1; Goroutine 0; Goroutine 1; Goroutine 2;
               Goroutine 1; Goroutine 2; Goroutine 2; Goroutine 0; Goroutine 2;
               Goroutine 0; Goroutine 2; Goroutine 0; Goroutine 0; Goroutine 0;
               Main; Goroutine 0; Main])%nat in
  out s = ["Counter: 3"] /\ returned s = true.
Proof. vm_compute. done. Qed.

(** With two slots the two halves of [counter++] interleave and an
    increment is lost. *)
Example dataRace_two_slots_lose_an_update :
  out (run (dataRace 2 2)
           ([Main; Main; Goroutine 0; Goroutine 1; Goroutine 0; Goroutine 1;
             Goroutine 0; Goroutine 1; Goroutine 0; Goroutine 1;
             Goroutine 0; Goroutine 1; Main])%nat)
  = ["Counter: 1"].
Proof. vm_compute. done. Qed.

End DataRaceExamples.

(** C7. With a channel of capacity one (one worker slot), no two tasks are
    ever in their guarded section at the same time: in every state that
    any schedule reaches, the number of tasks executing is at most one.
    This holds for [exampleSyncBestPractices] run with one slot and any
    number of tasks, and for [exampleDataRace], whose channel has capacity
    one as written and guards the shared counter: none of its increments
    is lost, so whenever it has returned it has printed "Counter: 10".  In
    general the number of tasks executing never exceeds the capacity (five
    in [exampleSyncBestPractices] as written). *)
Theorem one_slot_serializes_tasks (n : nat) (sched : list SyncErrors.event) :
  (SyncErrors.executing (SyncErrors.run (SyncErrors.syncBestPractices 1 n) sched)
     <= 1)%nat /\
  (SyncErrors.executing (SyncErrors.run SyncErrors.exampleDataRace sched) <= 1)%nat /\
  (SyncErrors.returned (SyncErrors.run SyncErrors.exampleDataRace sched) = true ->
   SyncErrors.counter (SyncErrors.run SyncErrors.exampleDataRace sched) = 10 /\
   SyncErrors.out (SyncErrors.run SyncErrors.exampleDataRace sched) = ["Counter: 10"]) /\
  (forall cap,
     (SyncErrors.executing (SyncErrors.run (SyncErrors.syncBestPractices cap n) sched)
        <= cap)%nat) /\
  (SyncErrors.executing (SyncErrors.run SyncErrors.exampleSyncBestPractices sched)
     <= 5)%nat.
Proof.
  split; [|split; [|split; [|split]]].
  - apply (executing_le_capacity (SyncErrors.syncBestPractices 1 n)).
    apply syncBestPractices_wf.
  - apply (executing_le_capacity SyncErrors.exampleDataRace).
    apply exampleDataRace_wf.
  - apply (dataRace_counts 10). done.
  - intros cap. apply (executing_le_capacity (SyncErrors.syncBestPractices cap n)).
    apply syncBestPractices_wf.
  - apply (executing_le_capacity SyncErrors.exampleSyncBestPractices).
    apply syncBestPractices_wf.
Qed.

(** ** Cancellation through a context (src/08-context/main.go) *)
Section ContextCancellation.

Import Context.

Lemma cancel_with_done e c : done (cancel_with e c) = true.
Proof. by destruct c. Qed.

Lemma cancel_with_cancelled e c : done c = true -> cancel_with e c = c.
Proof. by destruct c. Qed.

Lemma cancel_with_idempotent e e' c :
  cancel_with e' (cancel_with e c) = cancel_with e c.
Proof. by destruct c. Qed.

(** No step changes a cancelled token. *)
Lemma step_keeps_cancelled e s : done (ctx s) = true -> ctx (step e s) = ctx s.
Proof.
  intros Hd. destruct e as [|i|]; simpl.
  - destruct (code s) as [|[] ?]; simpl; try done.
    by apply cancel_with_cancelled.
  - destruct (gors s !! i) as [[]|]; try done. by rewrite Hd.
  - destruct (has_deadline s); [|done]. by apply cancel_with_cancelled.
Qed.

Lemma run_keeps_cancelled sched s :
  done (ctx s) = true -> ctx (Sched.run step sched s) = ctx s.
Proof.
  revert s. induction sched as [|e sched IH]; intros s Hd; [done|].
  rewrite run_cons, IH; rewrite step_keeps_cancelled; done.
Qed.

Lemma repeated_mono b prog prog' :
  repeated b prog prog' -> repeated true prog prog'.
Proof. induction 1; by constructor. Qed.

Lemma repeated_refl b prog : repeated b prog prog.
Proof.
  revert b. induction prog as [|[] prog IH]; intros b; by constructor.
Qed.

Lemma similar_step e s s' : similar s s' -> similar (step e s) (step e s').
Proof.
  intros Hsim. pose proof Hsim as [Hc Hd Hg Ho Hcode].
  destruct e as [|i|]; simpl.
  - inversion Hcode as [b|b p p' Hr|b j p p' Hr|b p p' Hr|p p' Hr Hb]; subst.
    + by split.
    + split; simpl; try done; [by rewrite Hc|].
      unfold cancel. by rewrite cancel_with_done.
    + split; simpl; try done. by rewrite Hg.
    + by split.
    + symmetry in Hb. split; simpl; try done.
      * unfold cancel. rewrite cancel_with_cancelled by done. done.
      * unfold cancel. by rewrite cancel_with_done.
  - rewrite <- Hg, <- Hc. destruct (gors s !! i) as [[]|]; try done.
    destruct (done (ctx s)) eqn:Hdn; [|done].
    split; simpl; try done; [by rewrite Ho|by rewrite Hdn].
  - rewrite <- Hd. destruct (has_deadline s) eqn:Hdl; [|done].
    split; simpl; try done; [by rewrite Hc|].
    rewrite cancel_with_done. by eapply repeated_mono.
Qed.

(** Leaving repeated cancellations out of a function changes nothing an
    observer can see, under any schedule. *)
Lemma repeated_cancel_unobservable deadline prog prog' sched :
  repeated false prog prog' ->
  observable (run deadline prog sched) = observable (run deadline prog' sched).
Proof.
  intros Hrep.
  assert (Hsim : similar (run deadline prog sched) (run deadline prog' sched)).
  { unfold run. apply run_invariant2; [apply similar_step|]. by split. }
  destruct Hsim as [Hc _ Hg Ho _]. unfold observable. by rewrite Hc, Hg, Ho.
Qed.

Lemma exampleContextPassing_repeated :
  repeated false exampleContextPassing exampleContextPassing_once.
Proof. unfold exampleContextPassing, exampleContextPassing_once. repeat constructor. Qed.

(** One run of the function as written: both goroutines print once the
    context is cancelled, and the deferred call changes nothing. *)
Example exampleContextPassing_run :
  let s := run false exampleContextPassing
             [Main; Main; Goroutine 1; Main; Goroutine 2; Main;
              Goroutine 2; Main; Goroutine 1; Main; Goroutine 1; Goroutine 2]%nat in
  out s = [line 2; line 1] /\ ctx s = Some Canceled /\ code s = [].
Proof. vm_compute. done. Qed.

End ContextCancellation.

(** C6. Cancelling a context is idempotent.  A second call of [cancel]
    returns the token the first one left, and any call on a cancelled
    token changes nothing; a token that is cancelled is still cancelled,
    with the same reason, after every further step of every schedule, so
    it goes from active to cancelled at most once and never back.  What a
    run of a function shows (token, goroutines, output) is the same with
    its repeated calls of [cancel] as without them; in particular
    [exampleContextPassing] behaves as it would without its deferred
    second call. *)
Theorem cancel_is_idempotent
    (c : Context.token) (deadline : bool) (prog prog' : list Context.instr)
    (sched sched' : list Context.event) :
  Context.cancel (Context.cancel c) = Context.cancel c /\
  Context.done (Context.cancel c) = true /\
  (Context.done c = true -> Context.cancel c = c) /\
  (Context.done (Context.ctx (Context.run deadline prog sched)) = true ->
   Context.ctx (Context.run deadline prog (sched ++ sched')) =
   Context.ctx (Context.run deadline prog sched)) /\
  (Context.repeated false prog prog' ->
   Context.observable (Context.run deadline prog sched) =
   Context.observable (Context.run deadline prog' sched)) /\
  Context.observable (Context.run false Context.exampleContextPassing sched) =
  Context.observable (Context.run false Context.exampleContextPassing_once sched).
Proof.
  split; [apply cancel_with_idempotent|].
  split; [apply cancel_with_done|].
  split; [apply cancel_with_cancelled|].
  split; [|split].
  - intros Hd. unfold Context.run in *. rewrite run_app.
    by apply run_keeps_cancelled.
  - apply repeated_cancel_unobservable.
  - apply repeated_cancel_unobservable, exampleContextPassing_repeated.
Qed.

(** ** The runner of the specification *)
Section RunnerFacts.

Import Runner.

Context {A B : Type}.
Variable tasks : list (Task A B).

Lemma runner_inv_init workerCount : inv tasks (init tasks workerCount).
Proof.
  split; simpl.
  - by rewrite length_replicate.
  - exists 0%nat. split; [lia|]. split; [by rewrite Nat.sub_0_r|done].
  - intros w i [[=] _]%lookup_replicate.
  - intros i r [[=] _]%lookup_replicate.
Qed.

Lemma delivered_snoc (s : state (B:=B)) w i :
  snd <$> (started s ++ [(w, i)]) = delivered s ++ [i].
Proof. by rewrite fmap_app. Qed.

Lemma runner_inv_step e s : inv tasks s -> inv tasks (step tasks e s).
Proof.
  intros Hinv. pose proof Hinv as [Hlen (k & Hk & Hq & Hd) Hbusy Hfill].
  destruct e as [w|]; simpl; [|split; simpl; try done; by exists k].
  destruct (workers s !! w) as [[|i|]|] eqn:Hw; try done.
  - assert (Hother : forall wk' w' i', wk' <> Busy i' ->
              <[w:=wk']> (workers s) !! w' = Some (Busy i') ->
              workers s !! w' = Some (Busy i')).
    { intros wk' w' i' Hne. destruct (decide (w = w')) as [->|Hww].
      - rewrite list_lookup_insert_eq by by eapply lookup_lt_Some.
        by intros [= ?].
      - by rewrite list_lookup_insert_ne. }
    destruct (token s) eqn:Ht.
    { split; simpl; try done; [by exists k|].
      intros w' i' Hl. eapply Hbusy, Hother; [|done]. done. }
    destruct (queue s) as [|i q] eqn:Hqs.
    { split; simpl; try done.
      - exists k. by rewrite <- Hq.
      - intros w' i' Hl. eapply Hbusy, Hother; [|done]. done. }
    destruct (length tasks - k)%nat as [|m] eqn:Hm; [done|].
    simpl in Hq. injection Hq as -> ->.
    split; simpl; try done.
    + exists (S k). split; [lia|]. split.
      * f_equal. lia.
      * unfold delivered in *. cbn [started]. by rewrite fmap_app, Hd, seq_S.
    + intros w' i'. unfold delivered. simpl. rewrite fmap_app, elem_of_app.
      destruct (decide (w = w')) as [->|Hww].
      * rewrite list_lookup_insert_eq by by eapply lookup_lt_Some.
        intros [= <-]. right. simpl. apply list_elem_of_singleton. done.
      * rewrite list_lookup_insert_ne by done. intros ?. left. by eapply Hbusy.
    + intros i' r Hi'. destruct (Hfill _ _ Hi') as [Hin Ht'].
      split; [|done]. unfold delivered in *. simpl.
      rewrite fmap_app, elem_of_app. by left.
  - destruct (tasks !! i) as [t|] eqn:Hti; [|done].
    split; simpl; try done.
    + by rewrite length_insert.
    + by exists k.
    + intros w' i'. destruct (decide (w = w')) as [->|Hww].
      * rewrite list_lookup_insert_eq by by eapply lookup_lt_Some. done.
      * rewrite list_lookup_insert_ne by done. apply Hbusy.
    + intros i' r. destruct (decide (i = i')) as [->|Hii].
      * rewrite list_lookup_insert_eq.
        2:{ rewrite Hlen. by eapply lookup_lt_Some. }
        intros [= <-]. split; [by eapply Hbusy|by exists t].
      * rewrite list_lookup_insert_ne by done. apply Hfill.
Qed.

Lemma runner_inv_run workerCount sched :
  inv tasks (Sched.run (step tasks) sched (init tasks workerCount)).
Proof. apply run_invariant; [apply runner_inv_step|apply runner_inv_init]. Qed.

(** The two ways a run ends by itself are stable: filled slots stay
    filled, and a pool that has wound down stays so. *)
Lemma forallb_insert {X} (f : X -> bool) l i x :
  forallb f l = true -> f x = true -> forallb f (<[i:=x]> l) = true.
Proof.
  revert i. induction l as [|y l IH]; intros i Hl Hx; [done|].
  simpl in Hl. apply andb_true_iff in Hl as [Hy Hl].
  destruct i as [|i]; simpl; apply andb_true_iff; auto.
Qed.

Lemma all_filled_step e s : all_filled s = true -> all_filled (step tasks e s) = true.
Proof.
  unfold all_filled. intros Hf. destruct e as [w|]; simpl; [|done].
  destruct (workers s !! w) as [[|i|]|]; try done.
  - destruct (token s); [done|]. by destruct (queue s).
  - destruct (tasks !! i); [|done]. simpl. by apply forallb_insert.
Qed.

Lemma wound_down_step e s : wound_down s = true -> wound_down (step tasks e s) = true.
Proof.
  unfold wound_down. intros [Ht Hw]%andb_true_iff.
  destruct e as [w|]; simpl; [|by rewrite Hw].
  destruct (workers s !! w) as [[|i|]|] eqn:Hl; simpl; try by rewrite Ht, Hw.
  - rewrite Ht. simpl. rewrite ?Ht. simpl. by apply forallb_insert.
  - destruct (tasks !! i); simpl; [|by rewrite Ht, Hw].
    rewrite Ht. simpl. by apply forallb_insert.
Qed.

Lemma running_step e s : running (step tasks e s) = true -> running s = true.
Proof.
  unfold running. intros [Hf Hw]%andb_true_iff.
  apply andb_true_iff. split.
  - destruct (all_filled s) eqn:H; [|done].
    by rewrite (all_filled_step e s H) in Hf.
  - destruct (wound_down s) eqn:H; [|done].
    by rewrite (wound_down_step e s H) in Hw.
Qed.

Lemma running_run sched s :
  running (Sched.run (step tasks) sched s) = true -> running s = true.
Proof.
  revert s. induction sched as [|e sched IH]; intros s; [done|].
  rewrite run_cons. intros H. by eapply running_step, IH.
Qed.

(** What [wait] returns: it stops after some [k <= timeout] ticks in the
    state the first [k] events lead to, and its error says why. *)
Lemma wait_result timeout : forall sched ticks s,
  exists k, (k <= timeout)%nat /\
    let s' := Sched.run (step tasks) (take k sched) s in
    exists err, wait tasks timeout sched ticks s = (s', err, (ticks + k)%nat) /\
    match err with
    | None => all_filled s' = true
    | Some ErrCancelled => all_filled s' = false /\ wound_down s' = true
    | Some ErrTimeout => k = timeout /\ running s' = true
    end.
Proof.
  induction timeout as [|timeout IH]; intros sched ticks s; simpl.
  - exists 0%nat. split; [lia|]. rewrite take_0, Nat.add_0_r. simpl.
    unfold running.
    destruct (all_filled s) eqn:Hf; [by exists None|].
    destruct (wound_down s) eqn:Hw; [by exists (Some ErrCancelled)|].
    by exists (Some ErrTimeout).
  - destruct (all_filled s) eqn:Hf.
    { exists 0%nat. split; [lia|]. rewrite take_0, Nat.add_0_r. by exists None. }
    destruct (wound_down s) eqn:Hw.
    { exists 0%nat. split; [lia|]. rewrite take_0, Nat.add_0_r.
      by exists (Some ErrCancelled). }
    destruct sched as [|e sched].
    + destruct (IH [] (S ticks) s) as (k & Hk & err & Heq & Herr).
      exists (S k). split; [lia|]. simpl. rewrite take_nil in *. simpl in *.
      exists err. rewrite Heq. split; [f_equal; lia|].
      destruct err as [[]|]; try done. destruct Herr as [-> ?]. done.
    + destruct (IH sched (S ticks) (step tasks e s)) as (k & Hk & err & Heq & Herr).
      exists (S k). split; [lia|]. simpl.
      exists err. rewrite Heq. split; [f_equal; lia|].
      destruct err as [[]|]; try done. destruct Herr as [-> ?]. done.
Qed.

(** A run that is still going when the clock reaches the timeout is
    stopped there, with the timeout error. *)
Lemma wait_timeout timeout : forall sched ticks s,
  running (Sched.run (step tasks) (take timeout sched) s) = true ->
  wait tasks timeout sched ticks s =
  (Sched.run (step tasks) (take timeout sched) s, Some ErrTimeout, (ticks + timeout)%nat).
Proof.
  induction timeout as [|timeout IH]; intros sched ticks s Hrun.
  - rewrite take_0 in *. simpl in *. rewrite Nat.add_0_r.
    unfold running in Hrun. apply andb_true_iff in Hrun as [Hf Hw].
    apply negb_true_iff in Hf, Hw. by rewrite Hf, Hw.
  - pose proof (running_run _ _ Hrun) as Hs.
    unfold running in Hs. apply andb_true_iff in Hs as [Hf Hw].
    apply negb_true_iff in Hf, Hw. simpl. rewrite Hf, Hw.
    destruct sched as [|e sched].
    + rewrite take_nil in *. rewrite IH by by rewrite take_nil.
      rewrite take_nil. f_equal. lia.
    + simpl in Hrun. rewrite IH by done.
      simpl. f_equal. lia.
Qed.

Lemma finalize_length (s : state (B:=B)) : length (finalize s) = length (slots s).
Proof. unfold finalize. by rewrite length_fmap. Qed.

Lemma finalize_lookup (s : state (B:=B)) i :
  finalize s !! i =
  (fun o => match o with Some r => r | None => Cancelled end) <$> slots s !! i.
Proof. unfold finalize. by rewrite list_lookup_fmap. Qed.

Lemma not_all_filled (s : state (B:=B)) :
  all_filled s = false -> exists i, slots s !! i = Some None.
Proof.
  unfold all_filled. induction (slots s) as [|o l IH]; [done|]. simpl.
  destruct o as [r|]; simpl.
  - intros [i Hi]%IH. by exists (S i).
  - intros _. by exists 0%nat.
Qed.

Lemma all_filled_lookup (s : state (B:=B)) i :
  all_filled s = true -> (i < length (slots s))%nat ->
  exists r, slots s !! i = Some (Some r).
Proof.
  unfold all_filled. revert i. induction (slots s) as [|o l IH]; intros i; simpl.
  - lia.
  - intros [Ho Hl]%andb_true_iff Hi. destruct i as [|i].
    + destruct o as [r|]; [by exists r|done].
    + apply IH; [done|lia].
Qed.

(** The state a run stops in is a reachable one. *)
Lemma wait_final workerCount timeout sched :
  let r := wait tasks timeout sched 0 (init tasks workerCount) in
  inv tasks (fst (fst r)) /\
  (snd r <= timeout)%nat /\
  fst (fst r) = state_at tasks workerCount sched (snd r) /\
  (snd (fst r) = None -> all_filled (fst (fst r)) = true).
Proof.
  destruct (wait_result timeout sched 0 (init tasks workerCount))
    as (k & Hk & err & Heq & Herr).
  simpl. rewrite Heq. simpl. split; [apply runner_inv_run|].
  split; [done|]. split; [done|]. by intros ->.
Qed.

(** A run never takes more ticks than its timeout allows. *)
Lemma Run_ticks_bounded workerCount timeout sched :
  (ticks_taken tasks workerCount timeout sched <= timeout)%nat.
Proof. apply wait_final. Qed.

Lemma Run_length workerCount timeout sched :
  length (fst (Run tasks workerCount timeout sched)) = length tasks.
Proof.
  unfold Run. simpl. rewrite finalize_length.
  apply (wait_final workerCount timeout sched).
Qed.

(** A run that ends without an error has executed every task. *)
Lemma Run_completed workerCount timeout sched :
  snd (Run tasks workerCount timeout sched) = None ->
  fst (Run tasks workerCount timeout sched) = execute <$> tasks.
Proof.
  unfold Run. simpl. intros Herr.
  destruct (wait_final workerCount timeout sched) as (Hinv & _ & _ & Hfill).
  specialize (Hfill Herr). destruct Hinv as [Hlen _ _ Hf].
  apply list_eq. intros i. rewrite finalize_lookup, list_lookup_fmap.
  destruct (tasks !! i) as [t|] eqn:Ht.
  - destruct (all_filled_lookup _ i Hfill) as [r Hr].
    { rewrite Hlen. by eapply lookup_lt_Some. }
    rewrite Hr. simpl. destruct (Hf _ _ Hr) as (_ & t' & Ht' & ->).
    by simplify_eq.
  - rewrite lookup_ge_None_2; [done|]. rewrite Hlen. by apply lookup_ge_None.
Qed.

(** The queue hands every task to at most one worker, at most once, in
    submission order; a task that was never handed out ends Cancelled;
    a run without an error has handed out every task, once. *)
Lemma Run_delivers_once workerCount timeout sched :
  let r := wait tasks timeout sched 0 (init tasks workerCount) in
  NoDup (delivered (fst (fst r))) /\
  (forall i, (i < length tasks)%nat -> i ∉ delivered (fst (fst r)) ->
     fst (Run tasks workerCount timeout sched) !! i = Some Cancelled) /\
  (snd (fst r) = None -> delivered (fst (fst r)) = seq 0 (length tasks)).
Proof.
  destruct (wait_final workerCount timeout sched) as (Hinv & _ & _ & Hfill).
  simpl in *. destruct Hinv as [Hlen (k & Hk & Hq & Hd) _ Hf].
  split; [rewrite Hd; apply NoDup_seq|]. split.
  - intros i Hi Hnot. unfold Run. simpl. rewrite finalize_lookup.
    destruct (lookup_lt_is_Some_2 (slots (wait tasks timeout sched 0
                (init tasks workerCount)).1.1) i) as [o Ho]; [lia|].
    rewrite Ho. simpl. destruct o as [r|]; [|done].
    by destruct (Hf _ _ Ho) as [? _].
  - intros Herr. specialize (Hfill Herr). rewrite Hd. f_equal.
    destruct (decide (k = length tasks)) as [|Hne]; [done|].
    destruct (all_filled_lookup _ k Hfill) as [r Hr]; [lia|].
    destruct (Hf _ _ Hr) as [Hin _]. rewrite Hd, elem_of_seq in Hin. lia.
Qed.

(** Triggering cancellation twice is triggering it once. *)
Lemma Run_cancel_idempotent s :
  step tasks Cancel (step tasks Cancel s) = step tasks Cancel s.
Proof. reflexivity. Qed.

(** No more workers are busy than the pool has. *)
Lemma Run_busy_bounded workerCount sched :
  (busy_count (Sched.run (step tasks) sched (init tasks workerCount))
     <= workerCount)%nat.
Proof.
  assert (Hlen : length (workers (Sched.run (step tasks) sched
                   (init tasks workerCount))) = workerCount).
  { apply (run_invariant (step tasks) (fun s => length (workers s) = workerCount)).
    - intros e s Hs. destruct e as [w|]; simpl; [|done].
      destruct (workers s !! w) as [[|i|]|]; simpl; try done.
      + destruct (token s); simpl; [by rewrite length_insert|].
        destruct (queue s); simpl; by rewrite length_insert.
      + destruct (tasks !! i); simpl; [by rewrite length_insert|done].
    - simpl. by rewrite length_replicate. }
  unfold busy_count.
  pose proof (List.filter_length_le is_busy
    (workers (Sched.run (step tasks) sched (init tasks workerCount)))). lia.
Qed.

End RunnerFacts.

Section RunnerExamples.

Import Runner.

Example Run_doubles :
  Run [double_task 1; double_task 2; double_task 3] 2 1000 (round_robin 10)
  = ([Completed 2; Completed 4; Completed 6], None).
Proof. reflexivity. Qed.

Example Run_recovers_panic :
  Run [double_task 1; panicking_task; double_task 3] 2 1000 (round_robin 10)
  = ([Completed 2; TaskError "error: boom"; Completed 6], None).
Proof. reflexivity. Qed.

Example Run_cancelled_early :
  Run [double_task 1; double_task 2; double_task 3] 2 1000
      (Cancel :: round_robin 10)
  = ([Cancelled; Cancelled; Cancelled], Some ErrCancelled).
Proof. reflexivity. Qed.

Example Run_cancelled_midway :
  Run [double_task 1; double_task 2; double_task 3] 2 1000
      (Worker 0 :: Worker 1 :: Cancel :: round_robin 10)
  = ([Completed 2; Completed 4; Cancelled], Some ErrCancelled).
Proof. reflexivity. Qed.

Example Run_times_out :
  Run [double_task 1; double_task 2; double_task 3] 1 3 (round_robin 10)
  = ([Completed 2; Cancelled; Cancelled], Some ErrTimeout).
Proof. reflexivity. Qed.

Example Run_empty :
  Run ([] : list (Task Z Z)) 2 0 [] = ([], None).
Proof. reflexivity. Qed.

End RunnerExamples.

(** C4. In every run of [parallelProcessing], under any schedule, the
    worker is called for a task by that task's own goroutine and by no
    other, at most once at any moment of the run and exactly once by the
    time the function returns: the log of calls never repeats an index,
    holds input indices only, and is a permutation of all of them at the
    return.  And the run gets there: whatever has happened so far
    ([sched]), once the loop, every goroutine and [wg.Wait()] have had
    their turns the function has returned and every task has been
    executed exactly once.  The code has no cancellation, so no task is
    ever left out. *)
Theorem each_task_executed_exactly_once
    (slice : list Z) (worker : Z -> Z) (sched : list HowToUse.pp_event) :
  let s := HowToUse.pp_run slice worker sched in
  NoDup (HowToUse.pp_calls s) /\
  (forall i, i ∈ HowToUse.pp_calls s ->
     (i < length slice)%nat /\ HowToUse.pp_pool s !! i = None /\
     HowToUse.pp_result s !! i = worker <$> slice !! i) /\
  (HowToUse.pp_returned s = true ->
     HowToUse.pp_calls s ≡ₚ seq 0 (length slice) /\
     forall i, (i < length slice)%nat -> i ∈ HowToUse.pp_calls s) /\
  (forall order, (forall i, (i < length slice)%nat -> i ∈ order) ->
     let s' := HowToUse.pp_run slice worker
                 (sched ++ HowToUse.pp_schedule (length slice) order) in
     HowToUse.pp_returned s' = true /\
     HowToUse.pp_calls s' ≡ₚ seq 0 (length slice) /\
     forall i, (i < length slice)%nat ->
       i ∈ HowToUse.pp_calls s' /\
       HowToUse.pp_result s' !! i = worker <$> slice !! i).
Proof.
  intros s. subst s.
  destruct (pp_each_task_called_once slice worker sched) as [Hnd Hperm].
  destruct (pp_inv_run slice worker sched) as [_ Hnext _ _ Hdone Hcalls _ _].
  split; [done|]. split; [|split].
  - intros i [Hi Hp]%Hcalls. split; [lia|]. split; [done|]. by apply Hdone.
  - intros Hr. specialize (Hperm Hr). split; [done|].
    intros i Hi. rewrite Hperm. apply elem_of_seq. lia.
  - intros order Hall s'. subst s'.
    pose proof (parallelProcessing_live slice worker sched order Hall) as Hlive.
    unfold HowToUse.parallelProcessing in Hlive. cbv zeta in Hlive.
    destruct (HowToUse.pp_returned
                (HowToUse.pp_run slice worker
                   (sched ++ HowToUse.pp_schedule (length slice) order))) eqn:Hr;
      [|done].
    injection Hlive as Hres.
    destruct (pp_each_task_called_once slice worker
                (sched ++ HowToUse.pp_schedule (length slice) order)) as [_ Hperm'].
    specialize (Hperm' Hr). split; [done|]. split; [done|].
    intros i Hi. split.
    + rewrite Hperm'. apply elem_of_seq. lia.
    + rewrite Hres. apply list_lookup_fmap.
Qed.

(** C5 (on the runner modelled from the specification).  When the run is
    still going after [timeout] ticks, with slots unfilled and the pool
    not wound down by a cancellation, [Run] stops there: it has taken
    exactly [timeout] ticks, it returns the Timeout error and one result
    per task, and every result is either the outcome recorded for a task
    that completed or Cancelled for one that did not, of which there is at
    least one. *)
Theorem timeout_returns_partial_results {A B : Type}
    (tasks : list (Runner.Task A B)) (workerCount timeout : nat)
    (sched : list Runner.event) :
  Runner.running (Runner.state_at tasks workerCount sched timeout) = true ->
  snd (Runner.Run tasks workerCount timeout sched) = Some Runner.ErrTimeout /\
  Runner.ticks_taken tasks workerCount timeout sched = timeout /\
  length (fst (Runner.Run tasks workerCount timeout sched)) = length tasks /\
  (forall i t, tasks !! i = Some t ->
     (Runner.slots (Runner.state_at tasks workerCount sched timeout) !! i
        = Some (Some (Runner.execute t)) /\
      fst (Runner.Run tasks workerCount timeout sched) !! i
        = Some (Runner.execute t)) \/
     (Runner.slots (Runner.state_at tasks workerCount sched timeout) !! i
        = Some None /\
      fst (Runner.Run tasks workerCount timeout sched) !! i
        = Some Runner.Cancelled)) /\
  (exists i, fst (Runner.Run tasks workerCount timeout sched) !! i
             = Some Runner.Cancelled).
Proof.
  intros Hrun. unfold Runner.state_at in *.
  pose proof (wait_timeout tasks timeout sched 0 _ Hrun) as Hw.
  unfold Runner.Run, Runner.ticks_taken. rewrite Hw. simpl.
  set (s := Sched.run (Runner.step tasks) (take timeout sched)
              (Runner.init tasks workerCount)) in *.
  assert (Hinv : Runner.inv tasks s) by apply runner_inv_run.
  destruct Hinv as [Hlen _ _ Hf].
  split; [done|]. split; [done|]. split; [by rewrite finalize_length|]. split.
  - intros i t Ht. rewrite finalize_lookup.
    destruct (lookup_lt_is_Some_2 (Runner.slots s) i) as [o Ho].
    { rewrite Hlen. by eapply lookup_lt_Some. }
    rewrite Ho. simpl. destruct o as [r|]; [left|by right].
    destruct (Hf _ _ Ho) as (_ & t' & Ht' & ->). by simplify_eq.
  - unfold Runner.running in Hrun. apply andb_true_iff in Hrun as [Hnf _].
    apply negb_true_iff, not_all_filled in Hnf as [i Hi].
    exists i. by rewrite finalize_lookup, Hi.
Qed.

Lemma timeout_returns_partial_results_witness :
  Runner.running
    (Runner.state_at [Runner.double_task 1; Runner.double_task 2; Runner.double_task 3]
       1 (Runner.round_robin 10) 3) = true /\
  snd (Runner.Run [Runner.double_task 1; Runner.double_task 2; Runner.double_task 3]
         1 3 (Runner.round_robin 10)) = Some Runner.ErrTimeout.
Proof.
  split; [reflexivity|].
  apply (timeout_returns_partial_results
           [Runner.double_task 1; Runner.double_task 2; Runner.double_task 3]
           1 3 (Runner.round_robin 10)).
  reflexivity.
Defined.

(** ** UTF-8 and the JSON round trip of [Person] *)
Section Bits.
Lemma lor_disjoint hi lo k :
  0 <= k -> 0 <= lo < 2 ^ k -> Z.lor (hi * 2 ^ k) lo = hi * 2 ^ k + lo.
Proof.
  intros Hk Hlo. rewrite <- Z.add_lor_land.
  assert (Z.land (hi * 2 ^ k) lo = 0) as ->; [|lia].
  apply Z.bits_inj'. intros n Hn. rewrite Z.land_spec, Z.bits_0.
  destruct (Z.lt_ge_cases n k) as [Hlt|Hge].
  - by rewrite Z.mul_pow2_bits_low.
  - destruct (Z.eq_dec lo 0) as [->|Hne]; [by rewrite Z.bits_0, andb_false_r|].
    rewrite (Z.bits_above_log2 lo n), andb_false_r; [done|lia|].
    apply Z.log2_lt_pow2; [lia|]. apply Z.lt_le_trans with (2 ^ k); [lia|].
    apply Z.pow_le_mono_r; lia.
Qed.
Lemma lor_add k a b :
  0 <= k -> a mod 2 ^ k = 0 -> 0 <= b < 2 ^ k -> Z.lor a b = a + b.
Proof.
  intros Hk Ha Hb.
  assert (a = a / 2 ^ k * 2 ^ k) as Heq.
  { pose proof (Z.div_mod a (2 ^ k)). lia. }
  rewrite Heq at 1. rewrite lor_disjoint by done. lia.
Qed.
Lemma land_mask k x : 0 <= k -> Z.land x (2 ^ k - 1) = x mod 2 ^ k.
Proof.
  intros Hk. replace (2 ^ k - 1) with (Z.ones k) by (rewrite Z.ones_equiv; lia).
  by apply Z.land_ones.
Qed.
Lemma land_3F x : Z.land x 0x3F = x mod 64.
Proof. apply (land_mask 6). lia. Qed.
Lemma land_1F x : Z.land x 0x1F = x mod 32.
Proof. apply (land_mask 5). lia. Qed.
Lemma land_0F x : Z.land x 0x0F = x mod 16.
Proof. apply (land_mask 4). lia. Qed.
Lemma land_07 x : Z.land x 0x07 = x mod 8.
Proof. apply (land_mask 3). lia. Qed.
Lemma to_byte_mod x : Utf8.to_byte x = x mod 256.
Proof. apply (land_mask 8). lia. Qed.
Lemma shiftl_6 x : Z.shiftl x 6 = x * 64.
Proof. by rewrite Z.shiftl_mul_pow2. Qed.
Lemma shiftl_12 x : Z.shiftl x 12 = x * 4096.
Proof. by rewrite Z.shiftl_mul_pow2. Qed.
Lemma shiftl_18 x : Z.shiftl x 18 = x * 262144.
Proof. by rewrite Z.shiftl_mul_pow2. Qed.
Lemma shiftr_6 x : Z.shiftr x 6 = x / 64.
Proof. by rewrite Z.shiftr_div_pow2. Qed.
Lemma shiftr_12 x : Z.shiftr x 12 = x / 4096.
Proof. by rewrite Z.shiftr_div_pow2. Qed.
Lemma shiftr_18 x : Z.shiftr x 18 = x / 262144.
Proof. by rewrite Z.shiftr_div_pow2. Qed.

Lemma decode2 p0 b1 :
  0xC2 <= p0 <= 0xDF -> 0x80 <= b1 <= 0xBF ->
  Z.lor (Z.shiftl (Z.land p0 0x1F) 6) (Z.land b1 0x3F)
  = (p0 - 0xC0) * 64 + (b1 - 0x80).
Proof.
  intros H0 H1. rewrite land_1F, land_3F, shiftl_6.
  rewrite (lor_add 6) by zlia. zlia.
Qed.

Lemma decode3 p0 b1 b2 :
  0xE0 <= p0 <= 0xEF -> 0x80 <= b1 <= 0xBF -> 0x80 <= b2 <= 0xBF ->
  Z.lor (Z.lor (Z.shiftl (Z.land p0 0x0F) 12) (Z.shiftl (Z.land b1 0x3F) 6))
        (Z.land b2 0x3F)
  = (p0 - 0xE0) * 4096 + (b1 - 0x80) * 64 + (b2 - 0x80).
Proof.
  intros H0 H1 H2. rewrite land_0F, !land_3F, shiftl_6, shiftl_12.
  rewrite (lor_add 12 (p0 mod 16 * 4096)) by zlia.
  rewrite (lor_add 6) by zlia. zlia.
Qed.

Lemma decode4 p0 b1 b2 b3 :
  0xF0 <= p0 <= 0xF7 -> 0x80 <= b1 <= 0xBF -> 0x80 <= b2 <= 0xBF ->
  0x80 <= b3 <= 0xBF ->
  Z.lor (Z.lor (Z.lor (Z.shiftl (Z.land p0 0x07) 18) (Z.shiftl (Z.land b1 0x3F) 12))
               (Z.shiftl (Z.land b2 0x3F) 6))
        (Z.land b3 0x3F)
  = (p0 - 0xF0) * 262144 + (b1 - 0x80) * 4096 + (b2 - 0x80) * 64 + (b3 - 0x80).
Proof.
  intros H0 H1 H2 H3. rewrite land_07, !land_3F, shiftl_6, shiftl_12, shiftl_18.
  rewrite (lor_add 18 (p0 mod 8 * 262144)) by zlia.
  rewrite (lor_add 12 (p0 mod 8 * 262144 + _)) by zlia.
  rewrite (lor_add 6) by zlia. zlia.
Qed.

Lemma encode1 r : 0 <= r <= 0x7F -> Utf8.EncodeRune r = [r].
Proof.
  intros H. unfold Utf8.EncodeRune. decide_cmp.
  rewrite to_byte_mod. list_zlia.
Qed.

Lemma encode2 r :
  0x80 <= r <= 0x7FF -> Utf8.EncodeRune r = [0xC0 + r / 64; 0x80 + r mod 64].
Proof.
  intros H. unfold Utf8.EncodeRune. decide_cmp.
  rewrite !to_byte_mod, land_3F, shiftr_6.
  rewrite (lor_add 5 0xC0) by zlia. rewrite (lor_add 6 0x80) by zlia.
  list_zlia.
Qed.

Lemma three_bytes_arith r :
  0x800 <= r <= 0xFFFF ->
  Utf8.three_bytes r = [0xE0 + r / 4096; 0x80 + (r / 64) mod 64; 0x80 + r mod 64].
Proof.
  intros H. unfold Utf8.three_bytes.
  rewrite !to_byte_mod, !land_3F, shiftr_6, shiftr_12.
  rewrite (lor_add 4 0xE0) by zlia. rewrite !(lor_add 6 0x80) by zlia.
  list_zlia.
Qed.

Lemma encode3 r :
  0x800 <= r <= 0xFFFF -> ~ (0xD800 <= r <= 0xDFFF) ->
  Utf8.EncodeRune r = [0xE0 + r / 4096; 0x80 + (r / 64) mod 64; 0x80 + r mod 64].
Proof.
  intros H Hs. unfold Utf8.EncodeRune, Utf8.MaxRune.
  destruct (decide (r < 0xD800)); decide_cmp; by apply three_bytes_arith.
Qed.

Lemma encode4 r :
  0x10000 <= r <= 0x10FFFF ->
  Utf8.EncodeRune r =
  [0xF0 + r / 262144; 0x80 + (r / 4096) mod 64; 0x80 + (r / 64) mod 64;
   0x80 + r mod 64].
Proof.
  intros H. unfold Utf8.EncodeRune, Utf8.MaxRune. decide_cmp.
  rewrite !to_byte_mod, !land_3F, shiftr_6, shiftr_12, shiftr_18.
  rewrite (lor_add 3 0xF0) by zlia. rewrite !(lor_add 6 0x80) by zlia.
  list_zlia.
Qed.

Lemma first_spec p0 sz lo hi :
  Utf8.first p0 = Some (sz, (lo, hi)) ->
  (sz = 2%nat /\ 0xC2 <= p0 <= 0xDF /\ lo = 0x80 /\ hi = 0xBF) \/
  (sz = 3%nat /\ 0xE0 <= p0 <= 0xEF /\ 0x80 <= lo /\ hi <= 0xBF /\
     (p0 = 0xE0 -> lo = 0xA0) /\ (p0 = 0xED -> hi = 0x9F)) \/
  (sz = 4%nat /\ 0xF0 <= p0 <= 0xF4 /\ 0x80 <= lo /\ hi <= 0xBF /\
     (p0 = 0xF0 -> lo = 0x90) /\ (p0 = 0xF4 -> hi = 0x8F)).
Proof.
  unfold Utf8.first. intros H.
  repeat match type of H with
  | (if ?c then _ else _) = _ => destruct c eqn:?
  end; simplify_eq; lia.
Qed.

Lemma first_None p0 : Utf8.first p0 = None -> p0 < 0xC2 \/ 0xF4 < p0.
Proof.
  unfold Utf8.first. intros H.
  repeat match type of H with
  | (if ?c then _ else _) = _ => destruct c eqn:?
  end; simplify_eq; lia.
Qed.

Lemma DecodeRune_encode p r size :
  Forall Utf8.is_byte p -> p <> [] ->
  Utf8.DecodeRune p = (r, size) ->
  (r =? Utf8.RuneError) && (size =? 1)%nat = false ->
  Utf8.EncodeRune r = take size p /\ (0 < size)%nat.
Proof.
  intros Hb Hne Hd Hok. destruct p as [|p0 rest]; [done|]. clear Hne.
  apply Forall_cons in Hb as [H0 Hb]. unfold Utf8.is_byte in H0.
  unfold Utf8.DecodeRune in Hd.
  destruct (Utf8.first p0) as [[sz [lo hi]]|] eqn:Hf.
  2:{ destruct (p0 <? 0x80) eqn:Hlt; simplify_eq; try done.
      split; [|lia]. rewrite encode1 by lia. done. }
  assert (Herr : (Utf8.RuneError =? Utf8.RuneError) && (1 =? 1)%nat = true) by done.
  destruct rest as [|b1 rest1]; [simplify_eq; congruence|].
  destruct (negb ((lo <=? b1) && (b1 <=? hi))) eqn:H1; [simplify_eq; congruence|].
  apply first_spec in Hf as [(-> & Hp & -> & ->)|[(-> & Hp & Hlo & Hhi & HE0 & HED)
                                                 |(-> & Hp & Hlo & Hhi & HF0 & HF4)]].
  - simpl in Hd. simplify_eq. split; [|lia].
    rewrite decode2 by lia. rewrite encode2 by lia. simpl. list_zlia.
  - simpl in Hd. destruct rest1 as [|b2 rest2]; [simplify_eq; congruence|].
    destruct (negb (Utf8.continuation b2)) eqn:H2; [simplify_eq; congruence|].
    unfold Utf8.continuation in H2. simplify_eq. split; [|lia].
    rewrite decode3 by lia.
    rewrite encode3 by lia. simpl. list_zlia.
  - simpl in Hd. destruct rest1 as [|b2 rest2]; [simplify_eq; congruence|].
    destruct (negb (Utf8.continuation b2)) eqn:H2; [simplify_eq; congruence|].
    destruct rest2 as [|b3 rest3]; [simplify_eq; congruence|].
    destruct (negb (Utf8.continuation b3)) eqn:H3; [simplify_eq; congruence|].
    unfold Utf8.continuation in H2, H3. simplify_eq. split; [|lia].
    rewrite decode4 by lia.
    rewrite encode4 by lia. simpl. list_zlia.
Qed.
End Bits.

Section Utf8Strings.

Lemma char_of_byte_of c : Utf8.char_of (Utf8.byte_of c) = c.
Proof.
  unfold Utf8.char_of, Utf8.byte_of. by rewrite N2Z.id, ascii_N_embedding.
Qed.

Lemma of_bytes_bytes s : Utf8.of_bytes (Utf8.bytes s) = s.
Proof.
  unfold Utf8.of_bytes, Utf8.bytes. rewrite <- list_fmap_compose.
  rewrite (list_fmap_ext _ id) by (intros ? c _; apply char_of_byte_of).
  rewrite list_fmap_id. apply String.string_of_list_ascii_of_string.
Qed.

Lemma bytes_are_bytes s : Forall Utf8.is_byte (Utf8.bytes s).
Proof.
  unfold Utf8.bytes. apply Forall_fmap, Forall_forall. intros c _.
  unfold Utf8.is_byte, Utf8.byte_of. simpl.
  pose proof (N_ascii_bounded c). lia.
Qed.

Lemma encode_cons r rs : Utf8.encode (r :: rs) = Utf8.EncodeRune r ++ Utf8.encode rs.
Proof. reflexivity. Qed.

Lemma valid_loop_roundtrip fuel : forall p,
  (length p <= fuel)%nat -> Forall Utf8.is_byte p ->
  Utf8.valid_loop fuel p = true ->
  Utf8.encode (Utf8.runes_loop fuel p) = p.
Proof.
  induction fuel as [|fuel IH]; intros p Hlen Hb Hv.
  - destruct p; [done|simpl in Hlen; lia].
  - destruct p as [|p0 rest]; [done|].
    cbn [Utf8.valid_loop Utf8.runes_loop] in *.
    destruct (Utf8.DecodeRune (p0 :: rest)) as [r size] eqn:Hd.
    apply andb_true_iff in Hv as [Hok Hv]. apply negb_true_iff in Hok.
    destruct (DecodeRune_encode _ _ _ Hb ltac:(done) Hd Hok) as [He Hs].
    rewrite encode_cons, He, IH.
    + apply take_drop.
    + rewrite length_drop. simpl in *. lia.
    + by apply Forall_drop.
    + done.
Qed.

(** A valid UTF-8 string survives the trip through JSON text. *)
Lemma to_string_of_string s :
  Utf8.ValidString s = true -> Json.to_string (Json.of_string s) = s.
Proof.
  intros Hv. unfold Json.to_string, Json.of_string, Utf8.runes.
  rewrite valid_loop_roundtrip; [apply of_bytes_bytes|done|apply bytes_are_bytes|done].
Qed.

End Utf8Strings.

Section PersonRoundTrip.
Import Json.

Lemma key_name : field_of_key (of_string "name") = Some FName.
Proof. reflexivity. Qed.
Lemma key_age : field_of_key (of_string "age") = Some FAge.
Proof. reflexivity. Qed.
Lemma key_address : field_of_key (of_string "address") = Some FAddress.
Proof. reflexivity. Qed.

Lemma Unmarshal_Marshal p :
  well_formed p -> Unmarshal (Marshal p) zero = (p, None).
Proof.
  intros (Hage & Hname & Haddr). destruct p as [name age addr]; simpl in *.
  unfold GoInt.in_range in Hage.
  unfold Unmarshal, Marshal. cbn [Name Age Address].
  cbn [foldl app].
  assert (Hstored :
    store_member (store_member (zero, None) (of_string "name", JString (of_string name)))
                 (of_string "age", JInt age)
    = ({| Name := name; Age := age; Address := "" |}, None)).
  { unfold store_member. cbn [fst snd]. rewrite key_name, key_age.
    cbn [store zero fst snd Name Age Address].
    rewrite (proj2 (andb_true_iff _ _)) by lia.
    by rewrite to_string_of_string. }
  rewrite Hstored.
  destruct (String.eqb_spec addr "") as [->|Hne]; [done|].
  cbn [foldl]. unfold store_member. cbn [fst snd]. rewrite key_address.
  cbn [store Name Age Address fst snd]. by rewrite to_string_of_string.
Qed.

End PersonRoundTrip.

(** ** The text of the document of a [Person] *)
Section StringText.
Import JsonText.

Variable how : replacement.

Lemma DecodeRune_ascii b rest :
  0 <= b < 0x80 -> Utf8.DecodeRune (b :: rest) = (b, 1%nat).
Proof.
  intros Hb. unfold Utf8.DecodeRune.
  destruct (Utf8.first b) as [[sz [lo hi]]|] eqn:Hf.
  - apply first_spec in Hf. lia.
  - by rewrite (proj2 (Z.ltb_lt _ _)) by lia.
Qed.

(** A decoding that is not an error looks at the bytes it takes and at
    no other. *)
Lemma DecodeRune_prefix p q r size :
  p <> [] ->
  Utf8.DecodeRune p = (r, size) ->
  (r =? Utf8.RuneError) && (size =? 1)%nat = false ->
  (0 < size <= length p)%nat /\ Utf8.DecodeRune (take size p ++ q) = (r, size).
Proof.
  intros Hne Hd Hok. destruct p as [|p0 rest]; [done|]. clear Hne.
  unfold Utf8.DecodeRune in Hd.
  destruct (Utf8.first p0) as [[sz [lo hi]]|] eqn:Hf.
  2:{ destruct (p0 <? 0x80) eqn:Hlt; simplify_eq; try done.
      simpl. rewrite Hf, Hlt. split; [lia|done]. }
  destruct rest as [|b1 rest1]; [by simplify_eq|].
  destruct (negb ((lo <=? b1) && (b1 <=? hi))) eqn:H1; [by simplify_eq|].
  destruct (sz <=? 2)%nat eqn:Hs2.
  { simplify_eq. simpl. rewrite Hf, H1, Hs2. split; [lia|done]. }
  destruct rest1 as [|b2 rest2]; [by simplify_eq|].
  destruct (negb (Utf8.continuation b2)) eqn:H2; [by simplify_eq|].
  destruct (sz <=? 3)%nat eqn:Hs3.
  { simplify_eq. simpl. rewrite Hf, H1, Hs2, H2, Hs3. split; [lia|done]. }
  destruct rest2 as [|b3 rest3]; [by simplify_eq|].
  destruct (negb (Utf8.continuation b3)) eqn:H3; [by simplify_eq|].
  simplify_eq. simpl. rewrite Hf, H1, Hs2, H2, Hs3, H3. split; [lia|done].
Qed.

Lemma hex_value_digit x : 0 <= x < 16 -> hex_value (hex_digit x) = Some x.
Proof.
  intros Hx. unfold hex_value, hex_digit.
  destruct (x <? 10) eqn:Hlt.
  - apply Z.ltb_lt in Hlt. decide_cmp. f_equal. lia.
  - apply Z.ltb_ge in Hlt. decide_cmp. f_equal. lia.
Qed.

Lemma land_0F' x : Z.land x 0xF = x mod 16.
Proof. apply land_0F. Qed.

Lemma shiftr_4 x : Z.shiftr x 4 = x / 16.
Proof. by rewrite Z.shiftr_div_pow2. Qed.

(** The decoder reads the escape of an ASCII byte back as that byte. *)
Lemma string_body_escape fuel b tail :
  0 <= b < 0x80 -> html_safe b = false ->
  string_body (S fuel) (escape_ascii b ++ tail) = cons_rune b (string_body fuel tail).
Proof.
  intros Hb Hs. unfold escape_ascii.
  destruct ((b =? backslash) || (b =? quote)) eqn:H1.
  { apply orb_true_iff in H1 as [->%Z.eqb_eq| ->%Z.eqb_eq]; reflexivity. }
  apply orb_false_iff in H1 as [Hbs%Z.eqb_neq Hq%Z.eqb_neq].
  repeat match goal with
  | |- context [if ?x =? ?c then _ else _] =>
      destruct (Z.eqb_spec x c) as [->|?]; [reflexivity|]
  end.
  cbn [app string_body]. unfold quote, backslash in *.
  change (backslash =? 34) with false. change (backslash =? backslash) with true.
  cbn [negb andb orb]. change (117 =? 117) with true. cbn iota.
  unfold hex4. change (hex_value 48) with (Some 0).
  rewrite !hex_value_digit by (rewrite ?land_0F', ?shiftr_4; zlia).
  rewrite land_0F', shiftr_4.
  replace (((0 * 16 + 0) * 16 + b / 16) * 16 + b mod 16) with b by zlia.
  unfold is_surrogate. decide_cmp. done.
Qed.

(** The decoder reads [\uXXXX] for a code point that is no surrogate. *)
Lemma string_body_unicode fuel a b c d tail r :
  hex4 (a :: b :: c :: d :: tail) = Some (r, tail) ->
  is_surrogate r = false ->
  string_body (S fuel) (backslash :: 0x75 :: a :: b :: c :: d :: tail)
  = cons_rune r (string_body fuel tail).
Proof.
  intros Hh Hs. cbn [string_body].
  change (backslash =? quote) with false. change (backslash =? backslash) with true.
  change (0x75 =? 0x75) with true. cbn iota. by rewrite Hh, Hs.
Qed.

(** A byte that is not ASCII starts a rune written as it is. *)
Lemma string_body_raw fuel b tail :
  0x80 <= b ->
  string_body (S fuel) (b :: tail)
  = cons_rune (fst (Utf8.DecodeRune (b :: tail)))
      (string_body fuel (drop (snd (Utf8.DecodeRune (b :: tail))) (b :: tail))).
Proof.
  intros Hb. cbn [string_body]. unfold quote, backslash. decide_cmp.
  by destruct (Utf8.DecodeRune (b :: tail)).
Qed.

Lemma html_safe_spec b :
  html_safe b = true ->
  0x20 <= b < 0x80 /\ b <> quote /\ b <> backslash.
Proof. unfold html_safe, quote, backslash. lia. Qed.

(** Reading back what [appendString] wrote between the quotes gives the
    runes of the string, whatever its bytes. *)
Lemma string_body_append n : forall p rest fuel,
  (length p <= n)%nat -> Forall Utf8.is_byte p ->
  (length (append_loop how n p) < fuel)%nat ->
  string_body fuel (append_loop how n p ++ quote :: rest)
  = Some (Utf8.runes_loop n p, rest).
Proof.
  induction n as [|n IH]; intros p rest fuel Hlen Hb Hfuel.
  { destruct p; [|simpl in Hlen; lia]. destruct fuel; [simpl in Hfuel; lia|]. done. }
  destruct p as [|b p'].
  { destruct fuel; [simpl in Hfuel; lia|]. done. }
  cbn [append_loop Utf8.runes_loop] in *.
  pose proof (Forall_inv Hb) as Hb0. unfold Utf8.is_byte in Hb0.
  pose proof (Forall_inv_tail Hb) as Hb'.
  destruct (b <? 0x80) eqn:Hascii.
  - apply Z.ltb_lt in Hascii.
    rewrite DecodeRune_ascii by lia. cbn [drop].
    rewrite <- app_assoc.
    destruct (html_safe b) eqn:Hsafe.
    + apply html_safe_spec in Hsafe as (Hr & Hq & Hbs).
      destruct fuel as [|fuel]; [lia|]. cbn [app string_body].
      rewrite (proj2 (Z.eqb_neq _ _) Hq), (proj2 (Z.eqb_neq _ _) Hbs).
      decide_cmp. rewrite IH; [done|simpl in Hlen; lia|done|].
      rewrite length_app in Hfuel. simpl in Hfuel. lia.
    + destruct fuel as [|fuel]; [lia|].
      rewrite string_body_escape by (done || lia).
      rewrite IH; [done|simpl in Hlen; lia|done|].
      rewrite length_app in Hfuel.
      assert (1 <= length (escape_ascii b))%nat; [|lia].
      unfold escape_ascii. repeat case_match; simpl; lia.
  - apply Z.ltb_ge in Hascii.
    destruct (Utf8.DecodeRune (b :: p')) as [c size] eqn:Hd.
    destruct ((c =? Utf8.RuneError) && (size =? 1)%nat) eqn:Herr.
    + apply andb_true_iff in Herr as [->%Z.eqb_eq ->%Nat.eqb_eq].
      rewrite <- app_assoc. destruct fuel as [|fuel]; [lia|].
      assert (Hlater : (length (append_loop how n p') < fuel)%nat).
      { rewrite length_app in Hfuel. cbn [drop] in Hfuel. rewrite drop_0 in Hfuel.
        destruct how; simpl in Hfuel; lia. }
      cbn [drop]. rewrite drop_0.
      destruct how; cbn [replacement_text app].
      * rewrite (string_body_unicode _ _ _ _ _ _ Utf8.RuneError) by done.
        rewrite IH; [done|simpl in Hlen; lia|done|done].
      * rewrite string_body_raw by lia.
        change (Utf8.DecodeRune (0xEF :: 0xBF :: 0xBD :: ?t)) with (Utf8.RuneError, 3%nat).
        cbn [fst snd drop]. rewrite drop_0.
        rewrite IH; [done|simpl in Hlen; lia|done|done].
    + destruct (DecodeRune_prefix (b :: p')
                  (append_loop how n (drop size (b :: p')) ++ quote :: rest) c size
                  ltac:(done) Hd Herr) as [Hsize Hpre].
      assert (Hrest : (length (drop size (b :: p')) <= n)%nat).
      { rewrite length_drop. simpl in *. lia. }
      destruct ((c =? 0x2028) || (c =? 0x2029)) eqn:Hsep.
      * rewrite <- app_assoc. destruct fuel as [|fuel]; [lia|].
        assert (Hc : c = 0x2028 \/ c = 0x2029) by lia.
        cbn [app]. rewrite (string_body_unicode _ _ _ _ _ _ c).
        2:{ destruct Hc as [-> | ->]; reflexivity. }
        2:{ destruct Hc as [-> | ->]; reflexivity. }
        rewrite IH; [done|done|by apply Forall_drop|].
        rewrite length_app in Hfuel. simpl in Hfuel. lia.
      * rewrite <- app_assoc. destruct fuel as [|fuel]; [lia|].
        assert (Htake : take size (b :: p') = b :: take (pred size) p').
        { destruct size; [lia|done]. }
        rewrite Htake in Hpre |- *. cbn [app] in Hpre |- *.
        rewrite string_body_raw by lia. rewrite Hpre. cbn [fst snd].
        change (b :: take (pred size) p' ++ ?t) with ((b :: take (pred size) p') ++ t).
        rewrite <- Htake.
        rewrite drop_app_length'; [|rewrite length_take; lia].
        rewrite IH; [done|done|by apply Forall_drop|].
        rewrite length_app, length_take in Hfuel. lia.
Qed.

Lemma value_string fuel depth s rest :
  value (S fuel) depth (appendString how s ++ rest)
  = Some (Json.JString (Json.of_string s), rest).
Proof.
  unfold appendString. cbn [app value]. unfold quote at 1.
  change (0x22 =? 0x7B) with false. change (0x22 =? 0x5B) with false.
  change (0x22 =? quote) with true. cbn iota.
  rewrite <- app_assoc. cbn [app].
  rewrite string_body_append; [done|done|apply bytes_are_bytes|].
  rewrite length_app. simpl. lia.
Qed.

End StringText.

Section NumberText.
Import JsonText.

Lemma bytes_cons c s : Utf8.bytes (String c s) = Utf8.byte_of c :: Utf8.bytes s.
Proof. reflexivity. Qed.

Lemma bytes_app s1 s2 : Utf8.bytes (s1 +:+ s2) = Utf8.bytes s1 ++ Utf8.bytes s2.
Proof.
  induction s1 as [|c s1 IH]; [done|].
  change (String c s1 +:+ s2) with (String c (s1 +:+ s2)).
  by rewrite !bytes_cons, IH.
Qed.

Lemma byte_of_pretty_char d :
  (d < 10)%N -> Utf8.byte_of (pretty_N_char d) = 0x30 + Z.of_N d.
Proof.
  intros Hd.
  assert (H : (d = 0 \/ d = 1 \/ d = 2 \/ d = 3 \/ d = 4 \/ d = 5 \/ d = 6
               \/ d = 7 \/ d = 8 \/ d = 9)%N) by lia.
  repeat destruct H as [->|H]; try reflexivity. by subst.
Qed.

(** The digits [pretty_N_go] puts in front of [s]: they are decimal
    digits, they read back as [x], and the first of them is no zero. *)
Lemma pretty_N_go_digits x : forall s,
  exists ds,
    Utf8.bytes (pretty_N_go x s) = ds ++ Utf8.bytes s /\
    Forall (fun d => is_digit d = true) ds /\
    (forall acc, foldl digit_step acc ds = acc * 10 ^ Z.of_nat (length ds) + Z.of_N x) /\
    (x = 0%N -> ds = []) /\
    ((0 < x)%N -> exists d ds', ds = d :: ds' /\ d <> 0x30).
Proof.
  induction (N.lt_wf_0 x) as [x _ IH]; intros s.
  destruct (decide (x = 0%N)) as [->|Hx].
  { exists []. rewrite pretty_N_go_0. split; [done|]. split; [done|].
    split; [intros; simpl; lia|]. split; [done|lia]. }
  rewrite pretty_N_go_step by lia.
  destruct (IH (x `div` 10)%N ltac:(apply N.div_lt; lia)
               (String (pretty_N_char (x `mod` 10)) s))
    as (ds & Hb & Hd & Hv & H0 & Hpos).
  pose proof (N.mod_lt x 10 ltac:(lia)) as Hmod.
  pose proof (N.div_mod x 10 ltac:(lia)) as Hdm.
  set (m := (x `mod` 10)%N) in *. set (q := (x `div` 10)%N) in *.
  exists (ds ++ [0x30 + Z.of_N m]).
  rewrite Hb, bytes_cons, byte_of_pretty_char by done.
  split; [by rewrite <- app_assoc|]. split.
  { apply Forall_app. split; [done|]. constructor; [|done].
    unfold is_digit. apply andb_true_iff. split; apply Z.leb_le; lia. }
  split.
  { intros acc. rewrite foldl_app, Hv. simpl. unfold digit_step at 1.
    rewrite length_app. simpl.
    rewrite Nat2Z.inj_add, Z.pow_add_r by lia. lia. }
  split; [by intros ->|]. intros _.
  destruct (decide (q = 0)%N) as [Hz|Hnz].
  - rewrite (H0 Hz). exists (0x30 + Z.of_N m), []. split; [done|]. lia.
  - destruct Hpos as (d & ds' & -> & Hd'); [lia|].
    exists d, (ds' ++ [0x30 + Z.of_N m]). done.
Qed.

Lemma digits_app ds rest :
  Forall (fun d => is_digit d = true) ds ->
  match rest with c :: _ => is_digit c = false | [] => True end ->
  digits (ds ++ rest) = (ds, rest).
Proof.
  intros Hds Hrest. induction Hds as [|d ds Hd _ IH]; simpl.
  - destruct rest as [|c rest]; [done|]. simpl. by rewrite Hrest.
  - by rewrite Hd, IH.
Qed.

Lemma number_digits (neg : bool) d ds rest :
  is_digit d = true -> d <> 0x30 ->
  Forall (fun d => is_digit d = true) ds ->
  ends_number rest ->
  number ((if neg then [0x2D] else []) ++ d :: ds ++ rest)
  = Some (Json.JInt (if neg then - digits_value (d :: ds) else digits_value (d :: ds)),
          rest).
Proof.
  intros Hd Hd0 Hds (c & rest' & -> & Hc).
  assert (Hcd : is_digit c = false) by (unfold is_digit; lia).
  assert (Hint : int_part (d :: ds ++ c :: rest') = Some (d :: ds, c :: rest')).
  { unfold int_part. rewrite (proj2 (Z.eqb_neq _ _) Hd0), Hd.
    by rewrite digits_app. }
  assert (Hfrac : frac_part (c :: rest') = Some ([], c :: rest')).
  { unfold frac_part. by rewrite (proj2 (Z.eqb_neq c 0x2E)) by lia. }
  assert (Hexp : exp_part (c :: rest') = Some ([], c :: rest')).
  { unfold exp_part. rewrite (proj2 (Z.eqb_neq c 0x65)), (proj2 (Z.eqb_neq c 0x45)) by lia.
    done. }
  unfold number. destruct neg; cbn [app].
  - change (0x2D =? 0x2D) with true. cbn iota. by rewrite Hint, Hfrac, Hexp.
  - rewrite (proj2 (Z.eqb_neq d 0x2D)) by (unfold is_digit in Hd; lia).
    by rewrite Hint, Hfrac, Hexp.
Qed.

Lemma number_zero rest :
  ends_number rest -> number (0x30 :: rest) = Some (Json.JInt 0, rest).
Proof.
  intros (c & rest' & -> & Hc). unfold number.
  change (0x30 =? 0x2D) with false. cbn iota. unfold int_part.
  change (0x30 =? 0x30) with true. cbn iota.
  unfold frac_part. rewrite (proj2 (Z.eqb_neq c 0x2E)) by lia.
  unfold exp_part. rewrite (proj2 (Z.eqb_neq c 0x65)), (proj2 (Z.eqb_neq c 0x45)) by lia.
  done.
Qed.

(** The decimal digits of a positive number, as the encoder writes them. *)
Lemma pretty_positive_digits (x : positive) :
  exists d ds,
    Utf8.bytes (pretty x) = d :: ds /\ is_digit d = true /\ d <> 0x30 /\
    Forall (fun d => is_digit d = true) ds /\ digits_value (d :: ds) = Z.pos x.
Proof.
  unfold pretty, pretty_positive, pretty, pretty_N.
  rewrite decide_False by done.
  destruct (pretty_N_go_digits (N.pos x) "") as (ds & Hb & Hd & Hv & _ & Hpos).
  destruct Hpos as (d & ds' & -> & Hd0); [lia|].
  exists d, ds'. rewrite Hb, app_nil_r. split; [done|].
  apply Forall_cons in Hd as [Hd Hds]. split; [done|]. split; [done|]. split; [done|].
  unfold digits_value. rewrite Hv. simpl. lia.
Qed.

(** The decoder reads the decimal text of any integer back as that
    integer. *)
Lemma value_int fuel depth z rest :
  ends_number rest ->
  value (S fuel) depth (Utf8.bytes (itoa z) ++ rest) = Some (Json.JInt z, rest).
Proof.
  intros Hrest. unfold itoa.
  assert (Hval : forall b tail, (b = 0x2D \/ is_digit b = true) ->
            value (S fuel) depth (b :: tail) = number (b :: tail)).
  { intros b tail Hb. cbn [value]. unfold quote, is_digit in *.
    rewrite !(proj2 (Z.eqb_neq b _)) by lia. done. }
  destruct z as [|x|x].
  - change (Utf8.bytes (pretty 0)) with [0x30]. cbn [app].
    rewrite Hval by (right; done). by apply number_zero.
  - destruct (pretty_positive_digits x) as (d & ds & Hb & Hd & Hd0 & Hds & Hv).
    change (pretty (Z.pos x)) with (pretty x). rewrite Hb. cbn [app].
    rewrite Hval by by right.
    pose proof (number_digits false d ds rest Hd Hd0 Hds Hrest) as Hn.
    cbn [app] in Hn. by rewrite Hn, Hv.
  - destruct (pretty_positive_digits x) as (d & ds & Hb & Hd & Hd0 & Hds & Hv).
    change (pretty (Z.neg x)) with ("-" +:+ pretty x).
    rewrite bytes_app, Hb. change (Utf8.bytes "-") with [0x2D]. cbn [app].
    rewrite Hval by by left.
    pose proof (number_digits true d ds rest Hd Hd0 Hds Hrest) as Hn.
    cbn [app] in Hn. by rewrite Hn, Hv.
Qed.

End NumberText.

Section DocumentText.
Import JsonText.

Variable how : replacement.

Lemma skip_ws_string s rest : skip_ws (appendString how s ++ rest) = appendString how s ++ rest.
Proof. reflexivity. Qed.

Lemma skip_ws_int z rest :
  skip_ws (Utf8.bytes (itoa z) ++ rest) = Utf8.bytes (itoa z) ++ rest.
Proof.
  assert (Hskip : forall b tail, (b = 0x2D \/ is_digit b = true) ->
            skip_ws (b :: tail) = b :: tail).
  { intros b tail Hb. cbn [skip_ws]. unfold is_ws, is_digit in *.
    rewrite !(proj2 (Z.eqb_neq b _)) by lia. done. }
  unfold itoa. destruct z as [|x|x].
  - done.
  - destruct (pretty_positive_digits x) as (d & ds & Hb & Hd & _).
    change (pretty (Z.pos x)) with (pretty x). rewrite Hb. cbn [app].
    apply Hskip. by right.
  - change (pretty (Z.neg x)) with ("-" +:+ pretty x).
    rewrite bytes_app. change (Utf8.bytes "-") with [0x2D]. cbn [app].
    apply Hskip. by left.
Qed.

(** A member and the members after it. *)
Lemma members_more fuel depth key X v Y ms tail :
  value fuel depth (skip_ws X) = Some (v, 0x2C :: Y) ->
  members fuel depth (skip_ws Y) = Some (ms, tail) ->
  members (S fuel) depth (appendString how key ++ 0x3A :: X)
  = Some ((Json.of_string key, v) :: ms, tail).
Proof.
  intros Hv Hms. unfold appendString. cbn [app members].
  change (quote =? quote) with true. cbn iota.
  rewrite <- app_assoc. cbn [app].
  rewrite string_body_append; [|done|apply bytes_are_bytes|].
  2:{ rewrite length_app. simpl. lia. }
  cbn [skip_ws]. change (is_ws 0x3A) with false. cbn iota.
  change (0x3A =? 0x3A) with true. cbn iota. rewrite Hv.
  cbn [skip_ws]. change (is_ws 0x2C) with false. cbn iota.
  change (0x2C =? 0x2C) with true. cbn iota. by rewrite Hms.
Qed.

(** The last member. *)
Lemma members_last fuel depth key X v tail :
  value fuel depth (skip_ws X) = Some (v, 0x7D :: tail) ->
  members (S fuel) depth (appendString how key ++ 0x3A :: X)
  = Some ([(Json.of_string key, v)], tail).
Proof.
  intros Hv. unfold appendString. cbn [app members].
  change (quote =? quote) with true. cbn iota.
  rewrite <- app_assoc. cbn [app].
  rewrite string_body_append; [|done|apply bytes_are_bytes|].
  2:{ rewrite length_app. simpl. lia. }
  cbn [skip_ws]. change (is_ws 0x3A) with false. cbn iota.
  change (0x3A =? 0x3A) with true. cbn iota. rewrite Hv.
  cbn [skip_ws]. change (is_ws 0x7D) with false. cbn iota.
  change (0x7D =? 0x2C) with false. change (0x7D =? 0x7D) with true. done.
Qed.

(** The bytes [Marshal] writes for a person are the text of the document
    [Json.Marshal] builds for it, for every person. *)
Lemma value_Marshal fuel p :
  value (S (S (S (S (S fuel))))) 0 (Marshal how p) = Some (Json.Marshal p, []).
Proof.
  unfold Marshal, Json.Marshal.
  change (Utf8.bytes "{") with [0x7B]. change (Utf8.bytes ":") with [0x3A].
  change (Utf8.bytes ",") with [0x2C]. change (Utf8.bytes "}") with [0x7D].
  cbn [app value]. change (0x7B =? 0x7B) with true.
  change (maxNestingDepth <=? 0) with false. cbn iota.
  rewrite skip_ws_string.
  set (doc := appendString how "name" ++ _).
  assert (Hm : members (S (S (S (S fuel)))) (0 + 1) doc =
    Some ([(Json.of_string "name", Json.JString (Json.of_string (Json.Name p)));
           (Json.of_string "age", Json.JInt (Json.Age p))]
          ++ (if String.eqb (Json.Address p) ""
              then []
              else [(Json.of_string "address",
                     Json.JString (Json.of_string (Json.Address p)))]), [])).
  { subst doc. eapply members_more.
    { rewrite skip_ws_string. apply value_string. }
    cbn [app]. rewrite skip_ws_string.
    destruct (String.eqb (Json.Address p) "").
    - cbn [app]. eapply members_last.
      rewrite skip_ws_int. apply value_int. exists 0x7D, []. split; [done|by right].
    - cbn [app]. eapply members_more.
      { rewrite skip_ws_int. rewrite <- app_assoc. cbn [app].
        apply value_int. eexists _, _. split; [done|by left]. }
      rewrite skip_ws_string. cbn [app].
      eapply members_last. rewrite skip_ws_string. apply value_string. }
  assert (Hdoc : exists tail, doc = quote :: tail) by (by eexists).
  destruct Hdoc as [tail Hdoc]. rewrite Hdoc in *.
  change (quote =? 0x7D) with false. cbn iota. by rewrite Hm.
Qed.

Lemma parse_Marshal p : parse (Marshal how p) = Some (Json.Marshal p).
Proof.
  unfold parse.
  assert (Hlen : exists fuel, length (Marshal how p) = S (S (S (S fuel)))).
  { unfold Marshal. change (Utf8.bytes "{" ++ appendString how "name" ++ ?t)
      with (0x7B :: 0x22 :: 0x6E :: 0x61 :: 0x6D :: 0x65 :: 0x22 :: t).
    by eexists. }
  destruct Hlen as [fuel ->].
  assert (Hws : skip_ws (Marshal how p) = Marshal how p) by reflexivity.
  rewrite Hws, value_Marshal. done.
Qed.

(** Unmarshalling the bytes is storing the document they spell. *)
Lemma Unmarshal_Marshal_text p person :
  Unmarshal (Marshal how p) person =
  (fst (Json.Unmarshal (Json.Marshal p) person),
   match snd (Json.Unmarshal (Json.Marshal p) person) with
   | Some e => Some (TypeError e)
   | None => None
   end).
Proof.
  unfold Unmarshal. rewrite parse_Marshal.
  by destruct (Json.Unmarshal (Json.Marshal p) person).
Qed.

End DocumentText.

(** ** The round trip of any [Person] *)
Section CoerceFacts.
Import Json Coerce.

Lemma Unmarshal_Marshal_into p target :
  GoInt.in_range (Age p) ->
  Unmarshal (Marshal p) target = (stored p target, None).
Proof.
  intros Hage. destruct p as [name age addr]; simpl in *.
  unfold GoInt.in_range in Hage.
  unfold Unmarshal, Marshal, stored. cbn [Name Age Address].
  cbn [foldl app].
  assert (Hstored :
    store_member (store_member (target, None) (of_string "name", JString (of_string name)))
                 (of_string "age", JInt age)
    = ({| Name := coerce name; Age := age; Address := Address target |}, None)).
  { unfold store_member. cbn [fst snd]. rewrite key_name, key_age.
    cbn [store fst snd Name Age Address].
    by rewrite (proj2 (andb_true_iff _ _)) by lia. }
  rewrite Hstored.
  destruct (String.eqb_spec addr "") as [->|Hne]; [done|].
  cbn [foldl]. unfold store_member. cbn [fst snd]. rewrite key_address.
  by cbn [store Name Age Address fst snd].
Qed.

Lemma bytes_of_bytes p : Forall Utf8.is_byte p -> Utf8.bytes (Utf8.of_bytes p) = p.
Proof.
  intros Hb. unfold Utf8.bytes, Utf8.of_bytes.
  rewrite String.list_ascii_of_string_of_list_ascii, <- list_fmap_compose.
  rewrite <- (list_fmap_id p) at 2. apply Forall_fmap_ext_1.
  eapply Forall_impl; [exact Hb|]. intros b Hbyte. simpl.
  unfold Utf8.byte_of, Utf8.char_of, Utf8.is_byte in *.
  rewrite N_ascii_embedding.
  - rewrite Z2N.id; lia.
  - change 256%N with (Z.to_N 256). apply Z2N.inj_lt; lia.
Qed.

(** What [EncodeRune] wrote for a rune that [DecodeRune] produced reads
    back as that rune, and is never the single invalid byte. *)
Lemma DecodeRune_EncodeRune p q r size :
  Forall Utf8.is_byte p -> p <> [] ->
  Utf8.DecodeRune p = (r, size) ->
  Utf8.EncodeRune r <> [] /\ Forall Utf8.is_byte (Utf8.EncodeRune r) /\
  exists n, Utf8.DecodeRune (Utf8.EncodeRune r ++ q) = (r, n) /\
            n = length (Utf8.EncodeRune r) /\
            (r =? Utf8.RuneError) && (n =? 1)%nat = false.
Proof.
  intros Hb Hne Hd.
  destruct ((r =? Utf8.RuneError) && (size =? 1)%nat) eqn:Hok.
  - apply andb_true_iff in Hok as [->%Z.eqb_eq _].
    split; [done|]. split.
    { change (Utf8.EncodeRune Utf8.RuneError) with [0xEF; 0xBF; 0xBD].
      repeat constructor; unfold Utf8.is_byte; lia. }
    exists 3%nat. done.
  - destruct (DecodeRune_encode _ _ _ Hb Hne Hd Hok) as [He Hs].
    destruct (DecodeRune_prefix p q r size Hne Hd Hok) as [Hsz Hp].
    rewrite He. split; [|split].
    + destruct p; [done|]. destruct size; [lia|done].
    + by apply Forall_take.
    + exists size. rewrite length_take. split; [done|]. split; [lia|done].
Qed.

Lemma encode_runes_valid fuel : forall p fuel',
  Forall Utf8.is_byte p ->
  (length (Utf8.encode (Utf8.runes_loop fuel p)) <= fuel')%nat ->
  Utf8.valid_loop fuel' (Utf8.encode (Utf8.runes_loop fuel p)) = true /\
  Forall Utf8.is_byte (Utf8.encode (Utf8.runes_loop fuel p)).
Proof.
  induction fuel as [|fuel IH]; intros p fuel' Hb Hlen.
  { split; [by destruct fuel'|constructor]. }
  destruct p as [|p0 rest].
  { split; [by destruct fuel'|constructor]. }
  cbn [Utf8.runes_loop] in *.
  destruct (Utf8.DecodeRune (p0 :: rest)) as [r size] eqn:Hd.
  rewrite encode_cons in *.
  destruct (DecodeRune_EncodeRune (p0 :: rest)
              (Utf8.encode (Utf8.runes_loop fuel (drop size (p0 :: rest)))) r size)
    as (Hne & Hbytes & n & Hdec & Hn & Hok); [done..|].
  rewrite length_app in Hlen.
  destruct (IH (drop size (p0 :: rest)) (Nat.pred fuel')) as [IHv IHb].
  { by apply Forall_drop. }
  { destruct (Utf8.EncodeRune r); [done|]. simpl in Hlen. lia. }
  split; [|by apply Forall_app].
  destruct (Utf8.EncodeRune r) as [|e0 es] eqn:He; [done|].
  destruct fuel' as [|fuel']; [simpl in Hlen; lia|].
  cbn [app Utf8.valid_loop]. cbn [app] in Hdec. rewrite Hdec.
  rewrite Hok. cbn [negb andb].
  change (e0 :: es ++ ?t) with ((e0 :: es) ++ t).
  rewrite Hn, drop_app_length. exact IHv.
Qed.

Lemma coerce_valid s : Utf8.ValidString (coerce s) = true.
Proof.
  unfold Utf8.ValidString, coerce, to_string, of_string, Utf8.runes, Utf8.Valid.
  destruct (encode_runes_valid (length (Utf8.bytes s)) (Utf8.bytes s)
              (length (Utf8.encode (Utf8.runes_loop (length (Utf8.bytes s)) (Utf8.bytes s)))))
    as [Hv Hb]; [apply bytes_are_bytes|done|].
  by rewrite bytes_of_bytes.
Qed.

Lemma coerce_idempotent s : coerce (coerce s) = coerce s.
Proof. unfold coerce at 1. apply to_string_of_string, coerce_valid. Qed.

Lemma coerce_valid_id s : Utf8.ValidString s = true -> coerce s = s.
Proof. apply to_string_of_string. Qed.

End CoerceFacts.

Section JsonExamples.
Import Json.

Example marshal_alice :
  Marshal alice =
  JObject [(of_string "name", JString (of_string "Alice"));
           (of_string "age", JInt 30);
           (of_string "address", JString (of_string "123 Main St"))].
Proof. reflexivity. Qed.

Example utf8_two_bytes :
  Utf8.runes [0xC3; 0xA9] = [0xE9] /\ Utf8.EncodeRune 0xE9 = [0xC3; 0xA9].
Proof. split; reflexivity. Qed.

Example utf8_three_bytes :
  Utf8.runes [0xE2; 0x82; 0xAC] = [0x20AC] /\
  Utf8.EncodeRune 0x20AC = [0xE2; 0x82; 0xAC].
Proof. split; reflexivity. Qed.

Example utf8_four_bytes :
  Utf8.runes [0xF0; 0x9F; 0x98; 0x80] = [0x1F600] /\
  Utf8.EncodeRune 0x1F600 = [0xF0; 0x9F; 0x98; 0x80].
Proof. split; reflexivity. Qed.

Example utf8_invalid_bytes :
  Utf8.runes [0xFF; 0x41; 0xC3] = [0xFFFD; 0x41; 0xFFFD] /\
  Utf8.runes [0xC0; 0x80] = [0xFFFD; 0xFFFD] /\
  Utf8.runes [0xED; 0xA0; 0x80] = [0xFFFD; 0xFFFD; 0xFFFD] /\
  Utf8.EncodeRune 0xD800 = [0xEF; 0xBF; 0xBD].
Proof. repeat split; reflexivity. Qed.

(** The name that is not UTF-8 comes back as the three bytes of U+FFFD. *)
Example unmarshal_not_utf8 :
  Unmarshal (Marshal not_utf8) zero =
  ({| Name := Utf8.of_bytes [0xEF; 0xBF; 0xBD]; Age := 0; Address := "" |}, None).
Proof. vm_compute. reflexivity. Qed.

(** A document with a key in another case, an unknown key, a null and a
    repeated key. *)
Example unmarshal_other_document :
  Unmarshal (JObject [(of_string "NAME", JString (of_string "Bob"));
                      (of_string "nickname", JString (of_string "B"));
                      (of_string "address", JNull);
                      (of_string "age", JInt 41);
                      (of_string "age", JInt 42)]) zero =
  ({| Name := "Bob"; Age := 42; Address := "" |}, None).
Proof. vm_compute. reflexivity. Qed.

End JsonExamples.

Section JsonTextExamples.
Import JsonText.

(** What marshal/main.go prints is, byte for byte, the literal that
    unmarshal/main.go starts from. *)
Example Marshal_alice_text how : Marshal how Json.alice = jsonData.
Proof. reflexivity. Qed.

Example Unmarshal_jsonData : Unmarshal jsonData Json.zero = (Json.alice, None).
Proof. vm_compute. reflexivity. Qed.

(** The name that is not UTF-8 is written as U+FFFD, as its escape or as
    its three bytes; both read back as that rune. *)
Example Marshal_not_utf8_text :
  Marshal Escape Json.not_utf8 =
    Utf8.bytes "{" ++ quoted "name" ++ Utf8.bytes ":" ++ quoted "\ufffd"
    ++ Utf8.bytes "," ++ quoted "age" ++ Utf8.bytes ":0}" /\
  Marshal Bytes Json.not_utf8 =
    Utf8.bytes "{" ++ quoted "name" ++ Utf8.bytes ":" ++ [quote; 0xEF; 0xBF; 0xBD; quote]
    ++ Utf8.bytes "," ++ quoted "age" ++ Utf8.bytes ":0}" /\
  parse (Marshal Escape Json.not_utf8) = parse (Marshal Bytes Json.not_utf8).
Proof. vm_compute. repeat split; reflexivity. Qed.

(** Escapes, white space, nesting and numbers on the way in. *)
Example parse_other_text :
  parse (Utf8.bytes " { } ") = Some (Json.JObject []) /\
  parse (Utf8.bytes "[1, -2.5e3 ,true,null, [ ] ,-0]")
  = Some (Json.JArray [Json.JInt 1; Json.JFloat "-2.5e3"; Json.JBool true;
                       Json.JNull; Json.JArray []; Json.JInt 0]) /\
  parse (Utf8.bytes "[01]") = None /\
  parse (quoted "a\u00e9\n\ud83d\ude00\ud83d") =
    Some (Json.JString [0x61; 0xE9; 0x0A; 0x1F600; 0xFFFD]).
Proof. vm_compute. repeat split; reflexivity. Qed.

(** Ten thousand arrays inside one another are a document; one more is a
    syntax error, which leaves the target as it is. *)
Example parse_nesting_limit :
  (exists doc, parse (replicate (Z.to_nat 10000) 0x5B ++ replicate (Z.to_nat 10000) 0x5D) = Some doc) /\
  parse (replicate (Z.to_nat 10001) 0x5B ++ replicate (Z.to_nat 10001) 0x5D) = None /\
  Unmarshal (replicate (Z.to_nat 10001) 0x5B ++ replicate (Z.to_nat 10001) 0x5D) Json.alice
    = (Json.alice, Some SyntaxError).
Proof.
  split; [|split].
  - destruct (parse _) eqn:H; [by eexists|]. vm_compute in H. discriminate.
  - vm_compute. reflexivity.
  - vm_compute. reflexivity.
Qed.

End JsonTextExamples.

(** C9, as amended.  For every [Person] (its age an [int]),
    unmarshalling the bytes that marshalling produced returns a nil
    error, and it gives the same [Person] back exactly when the name and
    the address are valid UTF-8.  So every [Person] that holds text comes
    back unchanged; this includes the empty address, which [omitempty]
    leaves out of the bytes and which the zero value of the target
    supplies.  And a name that is not valid UTF-8 does not come back
    unchanged, nor does an address that is not: each comes back coerced
    to valid UTF-8.  The bytes are always the text of a JSON document and
    parse as the document of that person. *)
Theorem person_json_roundtrip (how : JsonText.replacement) (p : Json.Person) :
  GoInt.in_range (Json.Age p) ->
  (Json.well_formed p ->
   JsonText.Unmarshal (JsonText.Marshal how p) Json.zero = (p, None)) /\
  (JsonText.Unmarshal (JsonText.Marshal how p) Json.zero = (p, None) <->
   Utf8.ValidString (Json.Name p) = true /\ Utf8.ValidString (Json.Address p) = true) /\
  (Utf8.ValidString (Json.Name p) = false ->
   Json.Name (fst (JsonText.Unmarshal (JsonText.Marshal how p) Json.zero)) <> Json.Name p /\
   Json.Name (fst (JsonText.Unmarshal (JsonText.Marshal how p) Json.zero))
     = Coerce.coerce (Json.Name p)) /\
  (Utf8.ValidString (Json.Address p) = false ->
   Json.Address (fst (JsonText.Unmarshal (JsonText.Marshal how p) Json.zero))
     <> Json.Address p /\
   Json.Address (fst (JsonText.Unmarshal (JsonText.Marshal how p) Json.zero))
     = Coerce.coerce (Json.Address p)) /\
  snd (JsonText.Unmarshal (JsonText.Marshal how p) Json.zero) = None /\
  Utf8.ValidString
    (Json.Name (fst (JsonText.Unmarshal (JsonText.Marshal how p) Json.zero))) = true /\
  Utf8.ValidString
    (Json.Address (fst (JsonText.Unmarshal (JsonText.Marshal how p) Json.zero))) = true /\
  JsonText.parse (JsonText.Marshal how p) = Some (Json.Marshal p) /\
  (Json.Address p = ""%string ->
   JsonText.Marshal how p =
   Utf8.bytes "{" ++ JsonText.appendString how "name" ++ Utf8.bytes ":"
   ++ JsonText.appendString how (Json.Name p) ++ Utf8.bytes ","
   ++ JsonText.appendString how "age" ++ Utf8.bytes ":"
   ++ Utf8.bytes (itoa (Json.Age p)) ++ Utf8.bytes "}").
Proof.
  intros Hage.
  assert (Hrt : JsonText.Unmarshal (JsonText.Marshal how p) Json.zero
                = (Coerce.stored p Json.zero, None)).
  { rewrite Unmarshal_Marshal_text, Unmarshal_Marshal_into by done. done. }
  assert (Hname : forall s, Utf8.ValidString s = false -> Coerce.coerce s <> s).
  { intros s Hs Heq. pose proof (coerce_valid s) as Hv. rewrite Heq in Hv. congruence. }
  assert (Hempty : forall s, Utf8.ValidString s = false -> String.eqb s "" = false).
  { intros s Hs. destruct (String.eqb_spec s "") as [->|]; [|done]. done. }
  rewrite Hrt. cbn [fst snd]. unfold Coerce.stored. cbn [Json.Name Json.Address].
  split; [|split; [|split; [|split; [|split; [|split; [|split; [|split]]]]]]].
  - intros (_ & Hn & Ha). destruct p as [name age addr]. cbn [Json.Name Json.Age Json.Address] in *.
    rewrite (coerce_valid_id name Hn). do 2 f_equal.
    destruct (String.eqb_spec addr "") as [->|_]; [done|]. by apply coerce_valid_id.
  - destruct p as [name age addr]. cbn [Json.Name Json.Age Json.Address] in *. split.
    + intros [= Hn Ha]. split.
      * rewrite <- Hn. apply coerce_valid.
      * destruct (String.eqb_spec addr "") as [->|_]; [done|].
        rewrite <- Ha. apply coerce_valid.
    + intros [Hn Ha]. rewrite (coerce_valid_id name Hn). do 2 f_equal.
      destruct (String.eqb_spec addr "") as [->|_]; [done|]. by apply coerce_valid_id.
  - intros Hn. split; [by apply Hname|done].
  - intros Ha. rewrite (Hempty _ Ha). split; [by apply Hname|done].
  - done.
  - apply coerce_valid.
  - destruct (String.eqb (Json.Address p) ""); [done|apply coerce_valid].
  - apply parse_Marshal.
  - intros Ha. unfold JsonText.Marshal. by rewrite Ha.
Qed.

Lemma person_json_roundtrip_witness :
  GoInt.in_range (Json.Age Json.alice) /\
  Json.well_formed Json.alice /\
  JsonText.Unmarshal (JsonText.Marshal JsonText.Escape Json.alice) Json.zero
    = (Json.alice, None).
Proof.
  assert (Hage : GoInt.in_range (Json.Age Json.alice)).
  { unfold GoInt.in_range, GoInt.min_int, GoInt.max_int. simpl. lia. }
  assert (Hwf : Json.well_formed Json.alice).
  { split; [exact Hage|]. split; reflexivity. }
  split; [exact Hage|]. split; [exact Hwf|].
  exact (proj1 (person_json_roundtrip JsonText.Escape Json.alice Hage) Hwf).
Defined.

(** C9, as stated, fails: the [Person] whose name is the byte 0xFF does
    not come back from the round trip, however the encoder spells
    U+FFFD. *)
Lemma person_json_roundtrip_fails_on_invalid_utf8 :
  JsonText.Unmarshal (JsonText.Marshal JsonText.Escape Json.not_utf8) Json.zero
    <> (Json.not_utf8, None) /\
  JsonText.Unmarshal (JsonText.Marshal JsonText.Bytes Json.not_utf8) Json.zero
    <> (Json.not_utf8, None).
Proof. split; vm_compute; intros [=]. Qed.

(* ===================================================================== *)
(** * Part III: further properties of the programs                        *)
(* ===================================================================== *)

(** ** [retry], [throttle], [reduce] and [pipeline] (src/05-how-to-use/main.go) *)
Section RetryFacts.
Import Closures.
Context {W : Type}.
Implicit Types (fn : @closure W) (w : W).

Lemma after_S fn k w : after fn (S k) w = snd (fn (after fn k w)).
Proof.
  revert w. induction k as [|k IH]; intros w; [done|].
  change (after fn (S (S k)) w) with (after fn (S k) (snd (fn w))).
  by rewrite IH.
Qed.

Lemma retry_loop_fails fn turns : forall w z,
  (forall k, (k < turns)%nat -> attempt fn k w <> None) ->
  retry_loop fn turns w z =
  Outcome (Some "operation failed after retries"%string) (after fn turns w)
          (z + Z.of_nat turns * Second).
Proof.
  induction turns as [|turns IH]; intros w z Hall; simpl.
  - f_equal. lia.
  - pose proof (Hall 0%nat ltac:(lia)) as H0. unfold attempt in H0. simpl in H0.
    destruct (fn w) as [[e|] w'] eqn:Hfn; [|done]. simpl.
    rewrite IH.
    + f_equal. lia.
    + intros k Hk. specialize (Hall (S k) ltac:(lia)).
      unfold attempt in *. simpl in Hall. by rewrite Hfn in Hall.
Qed.

Lemma retry_loop_succeeds fn turns : forall k w z,
  (k < turns)%nat -> attempt fn k w = None ->
  (forall j, (j < k)%nat -> attempt fn j w <> None) ->
  retry_loop fn turns w z =
  Outcome None (after fn (S k) w) (z + Z.of_nat k * Second).
Proof.
  induction turns as [|turns IH]; intros k w z Hk Hok Hbefore; [lia|].
  simpl. destruct k as [|k].
  - unfold attempt in Hok. simpl in Hok.
    destruct (fn w) as [[e|] w'] eqn:Hfn; [done|]. simpl. f_equal. lia.
  - pose proof (Hbefore 0%nat ltac:(lia)) as H0. unfold attempt in H0. simpl in H0.
    destruct (fn w) as [[e|] w'] eqn:Hfn; [|done]. simpl.
    rewrite (IH k).
    + f_equal. lia.
    + lia.
    + unfold attempt in *. simpl in Hok. by rewrite Hfn in Hok.
    + intros j Hj. specialize (Hbefore (S j) ltac:(lia)).
      unfold attempt in *. simpl in Hbefore. by rewrite Hfn in Hbefore.
Qed.

End RetryFacts.

Section ThrottleFacts.
Import Closures Throttle.
Context {W : Type}.
Implicit Types (fn : W -> W) (c : @throttled W).

Lemma calls_length fn duration clocks : forall c,
  length (snd (calls fn duration clocks c)) = length clocks.
Proof.
  induction clocks as [|clk rest IH]; intros c; [done|]. simpl.
  destruct (call fn duration clk c) as [c' ran].
  specialize (IH c'). destruct (calls fn duration rest c') as [c'' rans].
  simpl in *. by rewrite IH.
Qed.

Lemma ordered_lookup clocks : forall from i a b,
  ordered from clocks -> clocks !! i = Some (a, b) -> from <= a /\ a <= b.
Proof.
  induction clocks as [|[a0 b0] rest IH]; intros from i a b Hord Hi; [done|].
  destruct Hord as (H1 & H2 & H3). destruct i as [|i]; simpl in Hi.
  - by injection Hi as <- <-.
  - destruct (IH _ _ _ _ H3 Hi). lia.
Qed.

(** Every call that gets through comes more than [duration] after the
    stamp the closure holds. *)
Lemma calls_after_stamp fn duration clocks : forall c t j a b,
  0 <= duration ->
  lastCall c = Some t -> ordered t clocks ->
  clocks !! j = Some (a, b) ->
  snd (calls fn duration clocks c) !! j = Some true ->
  duration < a - t.
Proof.
  induction clocks as [|[a0 b0] rest IH]; intros c t j a b Hd Hc Hord Hj Hran; [done|].
  destruct Hord as (H1 & H2 & H3). simpl in Hran.
  destruct (call fn duration (a0, b0) c) as [c' ran] eqn:Hcall.
  destruct (calls fn duration rest c') as [c'' rans] eqn:Hcalls.
  unfold call in Hcall. rewrite Hc in Hcall. simpl in Hcall.
  destruct j as [|j]; simpl in Hj, Hran.
  - injection Hj as -> ->. injection Hran as ->.
    destruct (Z.ltb_spec duration (Z.max minDuration (Z.min maxDuration (a - t))));
      [|congruence].
    unfold minDuration, maxDuration in *. lia.
  - assert (Hrest : snd (calls fn duration rest c') !! j = Some true)
      by (by rewrite Hcalls).
    destruct (Z.ltb_spec duration (Z.max minDuration (Z.min maxDuration (a0 - t)))).
    + injection Hcall as <- <-.
      assert (duration < a - b0); [|lia].
      eapply (IH (Throttled (Some b0) (fn (world c))) b0 j a b);
        [done|reflexivity|done|done|by rewrite Hcalls].
    + injection Hcall as <- <-.
      eapply (IH c t j a b); [done|done| |done|by rewrite Hcalls].
      destruct rest as [|[a1 b1] rest]; [done|].
      destruct H3 as (?&?&?). repeat split; try done; lia.
Qed.

Lemma ordered_weaken clocks from from' :
  from' <= from -> ordered from clocks -> ordered from' clocks.
Proof.
  destruct clocks as [|[a b] rest]; [done|]. intros ? (?&?&?). repeat split; try done; lia.
Qed.

Lemma calls_separated fn duration clocks : forall c from i j ai bi aj bj,
  0 <= duration -> ordered from clocks -> (i < j)%nat ->
  clocks !! i = Some (ai, bi) -> clocks !! j = Some (aj, bj) ->
  snd (calls fn duration clocks c) !! i = Some true ->
  snd (calls fn duration clocks c) !! j = Some true ->
  duration < aj - bi.
Proof.
  induction clocks as [|[a0 b0] rest IH]; intros c from i j ai bi aj bj Hd Hord Hij Hi Hj Ri Rj;
    [done|].
  destruct Hord as (H1 & H2 & H3). simpl in Ri, Rj.
  destruct (call fn duration (a0, b0) c) as [c' ran] eqn:Hcall.
  destruct (calls fn duration rest c') as [c'' rans] eqn:Hcalls.
  destruct j as [|j]; [lia|]. simpl in Hj, Rj.
  destruct i as [|i]; simpl in Hi, Ri.
  - injection Hi as -> ->. injection Ri as ->.
    unfold call in Hcall.
    destruct (duration <? _); [|congruence]. injection Hcall as <-.
    eapply (calls_after_stamp fn duration rest
              (Throttled (Some bi) (fn (world c))) bi j aj bj);
      [done|reflexivity|done|done|by rewrite Hcalls].
  - eapply (IH c' b0 i j ai bi aj bj);
      [done|done|lia|done|done|by rewrite Hcalls|by rewrite Hcalls].
Qed.

Lemma first_call_runs fn duration clock rest w :
  duration < maxDuration ->
  exists c rans, calls fn duration (clock :: rest) (throttle fn duration w) = (c, true :: rans).
Proof.
  intros Hd. simpl. unfold call. simpl.
  destruct (Z.ltb_spec duration maxDuration); [|lia].
  destruct (calls fn duration rest _) as [c'' rans]. by eexists _, _.
Qed.

Lemma calls_world fn duration clocks : forall c,
  world (fst (calls fn duration clocks c)) =
  Nat.iter (length (List.filter id (snd (calls fn duration clocks c)))) fn (world c).
Proof.
  induction clocks as [|clk rest IH]; intros c; [done|]. simpl.
  destruct (call fn duration clk c) as [c' ran] eqn:Hcall.
  specialize (IH c'). destruct (calls fn duration rest c') as [c'' rans]. simpl in *.
  unfold call in Hcall. destruct (duration <? _); injection Hcall as <- <-.
  - rewrite IH. cbn [world].
    symmetry. apply (Nat.iter_succ_r (length (List.filter id rans))).
  - done.
Qed.

End ThrottleFacts.

Section PipelineFacts.
Import Closures HowToUse.

Lemma wrap_add_l a b : GoInt.wrap (GoInt.wrap a + b) = GoInt.wrap (a + b).
Proof.
  unfold GoInt.wrap. f_equal.
  replace ((a + 2 ^ 63) mod 2 ^ 64 - 2 ^ 63 + b + 2 ^ 63)
    with ((a + 2 ^ 63) mod 2 ^ 64 + b) by lia.
  rewrite Zplus_mod_idemp_l. f_equal. lia.
Qed.

Lemma wrap_add_r a b : GoInt.wrap (a + GoInt.wrap b) = GoInt.wrap (a + b).
Proof. by rewrite Z.add_comm, wrap_add_l, Z.add_comm. Qed.

Lemma wrap_wrap a : GoInt.wrap (GoInt.wrap a) = GoInt.wrap a.
Proof.
  pose proof (wrap_add_l a 0) as H. by rewrite !Z.add_0_r in H.
Qed.

Lemma total_app s1 s2 : total (s1 ++ s2) = total s1 + total s2.
Proof. induction s1 as [|x s1 IH]; simpl; [done|]. rewrite IH. lia. Qed.

Lemma total_perm s1 s2 : s1 ≡ₚ s2 -> total s1 = total s2.
Proof. induction 1; simpl; lia. Qed.

Lemma reduce_add slice : forall initial,
  reduce slice GoInt.add initial =
  match slice with
  | [] => initial
  | _ => GoInt.wrap (initial + total slice)
  end.
Proof.
  unfold reduce. induction slice as [|x slice IH]; intros initial; [done|].
  simpl. rewrite IH. destruct slice as [|y slice].
  - simpl. unfold GoInt.add. f_equal. lia.
  - unfold GoInt.add. rewrite wrap_add_l. f_equal. simpl. lia.
Qed.

Lemma is_even_even x : is_even x = Z.even x.
Proof.
  unfold is_even, GoInt.rem.
  destruct (Z.eqb_spec (Z.rem x 2) 0) as [H|H].
  - symmetry. apply Z.even_spec. exists (Z.quot x 2).
    pose proof (Z.quot_rem x 2 ltac:(lia)). lia.
  - symmetry. apply not_true_is_false. intros [k Hk]%Z.even_spec.
    apply H. subst x. rewrite Z.mul_comm. by apply Z.rem_mul.
Qed.

Lemma total_double slice :
  GoInt.wrap (total (double <$> slice)) = GoInt.wrap (2 * total slice).
Proof.
  induction slice as [|x slice IH]; [done|].
  change (total (double <$> x :: slice)) with (double x + total (double <$> slice)).
  rewrite <- wrap_add_r, IH, wrap_add_r. unfold double, GoInt.mul.
  rewrite wrap_add_l. f_equal. simpl. lia.
Qed.

Lemma pipeline_total slice :
  pipeline slice = GoInt.wrap (2 * total (List.filter Z.even slice)).
Proof.
  unfold pipeline. rewrite filter_spec, mapSlice_spec, reduce_add.
  rewrite (List.filter_ext is_even Z.even) by (intros; apply is_even_even).
  destruct (List.filter Z.even slice) as [|y l] eqn:Hl; [done|].
  change (double <$> y :: l) with (double y :: (double <$> l)).
  cbv iota. change (double y :: (double <$> l)) with (double <$> y :: l).
  rewrite Z.add_0_l. apply total_double.
Qed.

End PipelineFacts.

(** ** The wait group of [exampleSyncBestPractices] (src/07-errors/main.go) *)
Section BarrierFacts.
Import SyncErrors Barrier.

Variables cap n : nat.

Lemma sync_inv_init : sync_inv cap n init.
Proof.
  split; simpl; try done.
  - exists []. split; [done|]. split; [constructor|].
    intros i. split; [by intros ?%elem_of_nil|]. by intros (g & ? & _).
  - split; [done|lia].
Qed.

Lemma sync_inv_step e s :
  sync_inv cap n s -> sync_inv cap n (step (syncBestPractices cap n) e s).
Proof.
  intros Hinv. pose proof Hinv as [Hphase (order & Hout & Hnd & Hord) Hwg [Hnext Hle] Hret].
  destruct e as [|i]; simpl.
  - destruct (returned s) eqn:Hr; [done|].
    case_decide as Hlt.
    { split; simpl; try done.
      - intros j g Hj. apply lookup_app_Some in Hj as [Hj|[Hlen Hj]]; [by eapply Hphase|].
        apply list_lookup_singleton_Some in Hj as [Hj <-].
        exists 0%nat. split; [lia|]. simpl. rewrite Hnext.
        replace j with (length (gors s)) by lia. done.
      - exists order. split; [done|]. split; [done|]. intros j. rewrite Hord.
        split; intros (g & Hj & Hp).
        + exists g. split; [|done]. by apply lookup_app_l_Some.
        + apply lookup_app_Some in Hj as [Hj|[_ Hj]]; [by exists g|].
          apply list_lookup_singleton_Some in Hj as [_ <-]. done.
      - rewrite count_app. simpl. lia.
      - rewrite length_app. simpl. lia. }
    case_decide as Hz; [|done].
    split; simpl; try done.
    + exists order. rewrite Hout. rewrite app_nil_r. done.
    + intros _. lia.
  - destruct (gors s !! i) as [[[|ins rest] t]|] eqn:Hg; try done.
    destruct (Hphase i _ Hg) as (k & Hk & Hcode). simpl in Hcode.
    assert (Hupd : forall f,
      (count f (<[i:=Gor rest t]> (gors s)) + Nat.b2n (f (Gor (ins :: rest) t)))%nat
      = (count f (gors s) + Nat.b2n (f (Gor rest t)))%nat).
    { intros f. by apply count_insert. }
    assert (Hlt : (i < length (gors s))%nat) by by eapply lookup_lt_Some.
    assert (Hph : forall j g, <[i:=Gor rest t]> (gors s) !! j = Some g ->
      exists k, (k <= 5)%nat /\ code g = drop k (prog (syncBestPractices cap n) j)).
    { intros j g Hj. destruct (decide (j = i)) as [->|Hne].
      - rewrite list_lookup_insert_eq in Hj by done. injection Hj as <-.
        exists (S k). simpl.
        destruct k as [|[|[|[|[|[|]]]]]]; simplify_eq/=; split; (lia || done).
      - rewrite list_lookup_insert_ne in Hj by done. by eapply Hphase. }
    assert (Hlen : length (<[i:=Gor rest t]> (gors s)) = length (gors s))
      by apply length_insert.
    (* the steps that print nothing keep the order *)
    assert (Hsame : printed (Gor rest t) = printed (Gor (ins :: rest) t) ->
      exists order0,
        out s = (task_line <$> order0) ++
                (if returned s then ["All tasks processed"%string] else [])
        /\ NoDup order0
        /\ forall j, j ∈ order0 <->
             exists g, <[i:=Gor rest t]> (gors s) !! j = Some g /\ printed g = true).
    { intros Hp. exists order. split; [done|]. split; [done|]. intros j. rewrite Hord.
      destruct (decide (j = i)) as [->|Hne].
      - rewrite list_lookup_insert_eq by done. rewrite Hg.
        split; intros (g & [= <-] & Hpg); eexists; (split; [done|]); congruence.
      - by rewrite list_lookup_insert_ne by done. }
    pose proof (Hupd (fun g => negb (finished g))) as H2.
    unfold advance.
    destruct k as [|[|[|[|[|[|]]]]]]; simplify_eq/=.
    + (* ch <- i *)
      case_decide; [|done].
      split; simpl; try done; [by apply Hsame|lia|by rewrite Hlen].
    + (* fmt.Println *)
      split; simpl; try done; [|lia|by rewrite Hlen].
      assert (Hni : i ∉ order).
      { rewrite Hord. intros (g & Hgi & Hp). rewrite Hg in Hgi. by injection Hgi as <-. }
      assert (Hr : returned s = false).
      { destruct (returned s) eqn:Hr; [|done]. destruct (Hret eq_refl) as [_ Hz].
        pose proof (count_pos (fun g => negb (finished g)) _ _ _ Hg eq_refl). lia. }
      exists (order ++ [i]). rewrite Hout, Hr, fmap_app, !app_nil_r. simpl.
      split; [done|]. split.
      { apply NoDup_app. split; [done|]. split; [|apply NoDup_singleton].
        intros x Hx ->%list_elem_of_singleton. done. }
      intros j. rewrite elem_of_app, list_elem_of_singleton, Hord.
      destruct (decide (j = i)) as [->|Hne].
      * rewrite list_lookup_insert_eq by done. split; [|by right].
        intros _. by eexists.
      * rewrite list_lookup_insert_ne by done. split; [|by left].
        by intros [?|?].
    + (* time.Sleep *)
      split; simpl; try done; [by apply Hsame|lia|by rewrite Hlen].
    + (* <-ch *)
      destruct (chan s) as [|x chan'] eqn:Hch; [done|].
      split; simpl; try done; [by apply Hsame|lia|by rewrite Hlen].
    + (* wg.Done() *)
      split; simpl; try done; [by apply Hsame|lia|by rewrite Hlen|].
      intros Hr. destruct (Hret Hr) as [? Hz]. lia.
Qed.

Lemma sync_inv_run sched : sync_inv cap n (run (syncBestPractices cap n) sched).
Proof.
  unfold run. apply run_invariant; [|apply sync_inv_init].
  intros e s. apply sync_inv_step.
Qed.

Lemma none_unfinished gs i g :
  count (fun g => negb (finished g)) gs = 0%nat -> gs !! i = Some g -> finished g = true.
Proof.
  intros Hz Hg. destruct (finished g) eqn:Hf; [done|].
  pose proof (count_pos (fun g => negb (finished g)) gs i g Hg) as Hp.
  simpl in Hp. rewrite Hf in Hp. specialize (Hp eq_refl). lia.
Qed.

Lemma syncBestPractices_barrier sched :
  returned (run (syncBestPractices cap n) sched) = true ->
  exists order,
    out (run (syncBestPractices cap n) sched)
      = (task_line <$> order) ++ ["All tasks processed"%string] /\
    order ≡ₚ seq 0 n.
Proof.
  intros Hr. destruct (sync_inv_run sched) as [_ (order & Hout & Hnd & Hord) Hwg [Hnext _] Hret].
  destruct (Hret Hr) as [Hn Hz]. rewrite Hr in Hout.
  exists order. split; [done|].
  apply NoDup_Permutation; [done|apply NoDup_seq|].
  intros i. rewrite Hord, elem_of_seq. split.
  - intros (g & Hg & _). apply lookup_lt_Some in Hg. lia.
  - intros [_ Hi]. destruct (lookup_lt_is_Some_2 (gors (run (syncBestPractices cap n) sched)) i)
      as [g Hg]; [lia|].
    exists g. split; [done|].
    assert (Hf : finished g = true).
    { eapply none_unfinished; [|done]. by rewrite <- Hwg. }
    unfold finished in Hf. unfold printed. by destruct (code g).
Qed.

End BarrierFacts.

Section InTurn.
Import SyncErrors Barrier.

Variable cfg : config.

(** The goroutine in the middle of the list takes a step. *)
Lemma step_goroutine_at nx w pre ins rest t post ch c o r i :
  length pre = i ->
  step cfg (Goroutine i) (St nx w (pre ++ Gor (ins :: rest) t :: post) ch c o r)
  = match ins with
    | Send v =>
        if decide (length ch < capacity cfg)%nat
        then St nx w (pre ++ Gor rest t :: post) (ch ++ [v]) c o r
        else St nx w (pre ++ Gor (ins :: rest) t :: post) ch c o r
    | Recv =>
        match ch with
        | [] => St nx w (pre ++ Gor (ins :: rest) t :: post) ch c o r
        | _ :: ch' => St nx w (pre ++ Gor rest t :: post) ch' c o r
        end
    | Load => St nx w (pre ++ Gor rest c :: post) ch c o r
    | Store => St nx w (pre ++ Gor rest t :: post) ch (GoInt.add t 1) o r
    | Print line => St nx w (pre ++ Gor rest t :: post) ch c (o ++ [line]) r
    | Sleep => St nx w (pre ++ Gor rest t :: post) ch c o r
    | WgDone => St nx (Nat.pred w) (pre ++ Gor rest t :: post) ch c o r
    end.
Proof.
  intros <-. unfold step, advance. cbn [gors].
  rewrite list_lookup_middle by done.
  assert (Hins : forall t', <[length pre:=Gor rest t']> (pre ++ Gor (ins :: rest) t :: post)
                            = pre ++ Gor rest t' :: post).
  { intros t'. rewrite insert_app_r_alt by lia. by rewrite Nat.sub_diag. }
  destruct ins; cbn [chan next wg counter out returned]; rewrite ?Hins; done.
Qed.

Lemma run_loop k :
  (k <= tasks cfg)%nat ->
  Sched.run (step cfg) (replicate k Main) init
  = St k k ((fun j => Gor (prog cfg j) 0) <$> seq 0 k) [] 0 [] false.
Proof.
  induction k as [|k IH]; intros Hk; [done|].
  rewrite replicate_S_end, run_app, IH by lia.
  rewrite seq_S, fmap_app.
  cbn [Sched.run foldl step returned next wg gors chan counter out].
  by rewrite decide_True by lia.
Qed.

End InTurn.

Section InTurnSync.
Import SyncErrors Barrier.

Variables cap n : nat.
Hypothesis cap_pos : (1 <= cap)%nat.

Lemma run_turn i :
  (i < n)%nat ->
  Sched.run (step (syncBestPractices cap n)) (replicate 5 (Goroutine i)) (turns cap n i)
  = turns cap n (S i).
Proof.
  intros Hi. set (target := turns cap n (S i)). unfold turns.
  replace (n - i)%nat with (S (n - S i)) by lia.
  cbn [seq fmap list_fmap]. change (prog (syncBestPractices cap n) i)
    with [Send (Z.of_nat i); Print (task_line i); Sleep; Recv; WgDone].
  set (pre := replicate i (Gor [] 0)).
  set (post := (fun j => Gor (prog (syncBestPractices cap n) j) 0) <$> seq (S i) (n - S i)).
  assert (Hpre : length pre = i) by apply length_replicate.
  cbn [replicate]. rewrite !run_cons, run_nil.
  rewrite !(step_goroutine_at (syncBestPractices cap n)) by done.
  cbn [length capacity syncBestPractices app Nat.pred].
  rewrite decide_True by lia.
  rewrite !(step_goroutine_at (syncBestPractices cap n)) by done.
  cbn [app Nat.pred].
  subst target. unfold turns. f_equal.
  - subst pre. rewrite replicate_S_end, <- app_assoc. done.
  - by rewrite seq_S, fmap_app.
Qed.

Lemma run_turns i :
  (i <= n)%nat ->
  Sched.run (step (syncBestPractices cap n))
            (j ← seq 0 i; replicate 5 (Goroutine j)) (turns cap n 0)
  = turns cap n i.
Proof.
  induction i as [|i IH]; intros Hi; [done|].
  rewrite seq_S, bind_app, run_app, IH by lia.
  change ([(0 + i)%nat] ≫= (fun j => replicate 5 (Goroutine j)))
    with (replicate 5 (Goroutine i)).
  by apply run_turn.
Qed.

Lemma run_in_turn :
  run (syncBestPractices cap n) (in_turn n)
  = St n 0 (replicate n (Gor [] 0)) [] 0
       ((task_line <$> seq 0 n) ++ ["All tasks processed"%string]) true.
Proof.
  unfold run, in_turn. rewrite !run_app.
  rewrite (run_loop (syncBestPractices cap n) n) by done.
  change (St n n _ [] 0 [] false) with
    (St n n ((fun j => Gor (prog (syncBestPractices cap n) j) 0) <$> seq 0 n) [] 0 [] false).
  assert (H0 : St n n ((fun j => Gor (prog (syncBestPractices cap n) j) 0) <$> seq 0 n)
                  [] 0 [] false = turns cap n 0).
  { unfold turns. by rewrite Nat.sub_0_r. }
  rewrite H0, run_turns by done. unfold turns. rewrite Nat.sub_diag.
  cbn [seq fmap list_fmap Sched.run foldl step returned next tasks
       syncBestPractices wg gors chan counter out report].
  rewrite decide_False by lia. rewrite decide_True by done.
  by rewrite app_nil_r.
Qed.

End InTurnSync.

(** ** The goroutines that wait for the context (src/08-context/main.go) *)
Section WaitersFacts.
Import Context Waiters.

Lemma print_inv_step e s : print_inv s -> print_inv (step e s).
Proof.
  intros Hinv. pose proof Hinv as [(order & Hout & Hnd & Hord) Hdone Hfresh Hnodup].
  destruct e as [|i|]; simpl.
  - destruct (code s) as [|[j| |] rest] eqn:Hcode; [done| | |].
    + simpl in Hfresh, Hnodup. apply NoDup_cons in Hnodup as [Hj Hnodup].
      split; simpl; [|..|done].
      * exists order. split; [done|]. split; [done|]. intros i. rewrite Hord.
        destruct (decide (i = j)) as [->|Hne].
        -- rewrite lookup_insert_eq, (Hfresh j) by apply list_elem_of_here. done.
        -- by rewrite lookup_insert_ne.
      * intros i. destruct (decide (i = j)) as [->|Hne].
        -- by rewrite lookup_insert_eq.
        -- rewrite lookup_insert_ne by done. apply Hdone.
      * intros i Hi. rewrite lookup_insert_ne by (intros ->; done).
        apply Hfresh. by apply list_elem_of_further.
    + split; simpl; try done. by exists order.
    + split; simpl; try done; [by exists order|].
      intros i Hi. unfold cancel. apply cancel_with_done.
  - destruct (gors s !! i) as [[]|] eqn:Hg; try done.
    destruct (done (ctx s)) eqn:Hd; [|done].
    split; simpl; [| | |done].
    + exists (order ++ [i]). rewrite Hout, fmap_app. split; [done|]. split.
      { apply NoDup_app. split; [done|]. split; [|apply NoDup_singleton].
        intros x Hx ->%list_elem_of_singleton. apply Hord in Hx. congruence. }
      intros j. rewrite elem_of_app, list_elem_of_singleton, Hord.
      destruct (decide (j = i)) as [->|Hne].
      * rewrite lookup_insert_eq. split; [done|by right].
      * rewrite lookup_insert_ne by done. split; [by intros [?|?]|by left].
    + done.
    + intros j Hj. rewrite lookup_insert_ne; [by apply Hfresh|].
      intros ->. apply Hfresh in Hj. congruence.
  - destruct (has_deadline s); [|done].
    split; simpl; try done; [by exists order|].
    intros i _. apply cancel_with_done.
Qed.

Lemma print_inv_start deadline prog :
  NoDup (spawned prog) -> print_inv (start deadline prog).
Proof.
  intros Hnd. split; simpl; try done.
  exists []. split; [done|]. split; [constructor|].
  intros i. rewrite lookup_empty. split; [by intros ?%elem_of_nil|done].
Qed.

Lemma print_inv_run deadline prog sched :
  NoDup (spawned prog) -> print_inv (run deadline prog sched).
Proof.
  intros Hnd. unfold run. apply run_invariant; [|by apply print_inv_start].
  intros e s. apply print_inv_step.
Qed.

(** The goroutines that run are the function's. *)
Lemma gors_spawned e s i :
  is_Some (gors (step e s) !! i) -> is_Some (gors s !! i) \/ i ∈ spawned (code s).
Proof.
  destruct e as [|j|]; simpl.
  - destruct (code s) as [|[k| |] rest]; simpl; try by left.
    destruct (decide (i = k)) as [->|Hne].
    + intros _. right. apply list_elem_of_here.
    + rewrite lookup_insert_ne by done. by left.
  - destruct (gors s !! j) as [[]|] eqn:Hg; try by left.
    destruct (done (ctx s)); [|by left]. simpl.
    destruct (decide (i = j)) as [->|Hne].
    + intros _. left. by rewrite Hg.
    + rewrite lookup_insert_ne by done. by left.
  - destruct (has_deadline s); by left.
Qed.

Lemma spawned_step e s i :
  i ∈ spawned (code (step e s)) -> i ∈ spawned (code s).
Proof.
  destruct e as [|j|]; simpl.
  - destruct (code s) as [|[k| |] rest] eqn:Hc; simpl; rewrite ?Hc; [done| |done|done].
    apply list_elem_of_further.
  - destruct (gors s !! j) as [[]|]; try done. by destruct (done (ctx s)).
  - by destruct (has_deadline s).
Qed.

Lemma gors_of_prog sched : forall s i,
  is_Some (gors (Sched.run step sched s) !! i) ->
  is_Some (gors s !! i) \/ i ∈ spawned (code s).
Proof.
  induction sched as [|e sched IH]; intros s i; [by left|].
  rewrite run_cons. intros [H|H]%IH.
  - by apply (gors_spawned e).
  - right. by apply (spawned_step e).
Qed.

End WaitersFacts.

Section InTurnRace.
Import SyncErrors Barrier.

Variable n : nat.
Hypothesis n_small : Z.of_nat n <= GoInt.max_int.

Lemma race_turn i :
  (i < n)%nat ->
  Sched.run (step (dataRace 1 n)) (replicate 5 (Goroutine i)) (race_turns n i)
  = race_turns n (S i).
Proof.
  intros Hi. set (target := race_turns n (S i)). unfold race_turns.
  replace (n - i)%nat with (S (n - S i)) by lia.
  cbn [replicate]. change (Gor race_prog 0 :: replicate (n - S i) (Gor race_prog 0))
    with (Gor [Send 1; Load; Store; Recv; WgDone] 0 :: replicate (n - S i) (Gor race_prog 0)).
  set (pre := (fun j => Gor [] (Z.of_nat j)) <$> seq 0 i).
  set (post := replicate (n - S i) (Gor race_prog 0)).
  assert (Hpre : length pre = i) by (subst pre; by rewrite length_fmap, length_seq).
  rewrite !run_cons, run_nil.
  rewrite !(step_goroutine_at (dataRace 1 n)) by done.
  cbn [length capacity dataRace app Nat.pred].
  rewrite decide_True by lia.
  rewrite !(step_goroutine_at (dataRace 1 n)) by done.
  cbn [app Nat.pred].
  assert (Hadd : GoInt.add (Z.of_nat i) 1 = Z.of_nat (S i)).
  { unfold GoInt.add. rewrite wrap_in_range; [lia|].
    unfold GoInt.in_range, GoInt.min_int, GoInt.max_int in *. lia. }
  rewrite Hadd. subst target. unfold race_turns. f_equal.
  subst pre post. rewrite seq_S, fmap_app, <- app_assoc. done.
Qed.

Lemma race_turns_run i :
  (i <= n)%nat ->
  Sched.run (step (dataRace 1 n))
            (j ← seq 0 i; replicate 5 (Goroutine j)) (race_turns n 0)
  = race_turns n i.
Proof.
  induction i as [|i IH]; intros Hi; [done|].
  rewrite seq_S, bind_app, run_app, IH by lia.
  change ([(0 + i)%nat] ≫= (fun j => replicate 5 (Goroutine j)))
    with (replicate 5 (Goroutine i)).
  by apply race_turn.
Qed.

Lemma race_in_turn :
  run (dataRace 1 n) (in_turn n)
  = St n 0 ((fun j => Gor [] (Z.of_nat j)) <$> seq 0 n) [] (Z.of_nat n)
       ["Counter: " +:+ itoa (Z.of_nat n)] true.
Proof.
  unfold run, in_turn. rewrite !run_app.
  rewrite (run_loop (dataRace 1 n) n) by done.
  assert (H0 : St n n ((fun j => Gor (prog (dataRace 1 n) j) 0) <$> seq 0 n)
                  [] 0 [] false = race_turns n 0).
  { unfold race_turns. rewrite Nat.sub_0_r. f_equal.
    change (prog (dataRace 1 n)) with (fun _ : nat => race_prog). cbn [seq fmap list_fmap app].
    rewrite (const_fmap _ (seq 0 n) (Gor race_prog 0)) by done.
    by rewrite length_seq. }
  rewrite H0, race_turns_run by done. unfold race_turns. rewrite Nat.sub_diag.
  cbn [replicate Sched.run foldl step returned next tasks
       dataRace wg gors chan counter out report].
  rewrite decide_False by lia. rewrite decide_True by done.
  by rewrite app_nil_r.
Qed.

End InTurnRace.

(** ** The programs with channels, [select], panics and the context

    The states each program can reach are listed in full; the lists are
    closed under every step of every goroutine, so every run stays in
    them. *)
Section Closure.
Import Chans.

Lemma closed_GoroutinePanic e s :
  s ∈ states_GoroutinePanic -> step e s ∈ states_GoroutinePanic.
Proof.
  intros Hs. unfold states_GoroutinePanic in Hs.
  each_state Hs; (destruct e as [g k|]; [destruct g as [|[|g]]; closure_case k|member]).
Qed.

Lemma closed_ClosedChannelPanic e s :
  s ∈ states_ClosedChannelPanic -> step e s ∈ states_ClosedChannelPanic.
Proof.
  intros Hs. unfold states_ClosedChannelPanic in Hs.
  each_state Hs; (destruct e as [g k|]; [destruct g as [|[|[|g]]]; closure_case k|member]).
Qed.

Lemma closed_Select e s :
  s ∈ states_Select -> step e s ∈ states_Select.
Proof.
  intros Hs. unfold states_Select in Hs.
  each_state Hs; (destruct e as [g k|]; [destruct g as [|[|[|g]]]; closure_case k|member]).
Qed.

Lemma closed_Timeout e s :
  s ∈ states_Timeout -> step e s ∈ states_Timeout.
Proof.
  intros Hs. unfold states_Timeout in Hs.
  each_state Hs; (destruct e as [g k|]; [destruct g as [|[|g]]; closure_case k|member]).
Qed.

Lemma closed_MultipleChannelsWithTimeout e s :
  s ∈ states_MultipleChannelsWithTimeout -> step e s ∈ states_MultipleChannelsWithTimeout.
Proof.
  intros Hs. unfold states_MultipleChannelsWithTimeout in Hs.
  each_state Hs; (destruct e as [g k|]; [destruct g as [|[|[|g]]]; closure_case k|member]).
Qed.

Lemma closed_ContextUsage e s :
  s ∈ states_ContextUsage -> step e s ∈ states_ContextUsage.
Proof.
  intros Hs. unfold states_ContextUsage in Hs.
  each_state Hs; (destruct e as [g k|]; [destruct g as [|[|g]]; closure_case k|member]).
Qed.

Lemma closed_processWithTimeout e s :
  s ∈ states_processWithTimeout -> step e s ∈ states_processWithTimeout.
Proof.
  intros Hs. unfold states_processWithTimeout in Hs.
  each_state Hs; (destruct e as [g k|]; [destruct g as [|[|g]]; closure_case k|member]).
Qed.

End Closure.

Section Reach.
Import Chans.

Lemma reach (states : list state) (body : list instr) sched :
  start body ∈ states ->
  (forall e s, s ∈ states -> step e s ∈ states) ->
  run body sched ∈ states.
Proof.
  intros Hstart Hclosed. unfold run.
  by apply (run_invariant step (fun s => s ∈ states)).
Qed.

Lemma reach_ClosedChannelPanic sched :
  run exampleClosedChannelPanic sched ∈ states_ClosedChannelPanic.
Proof. apply reach; [member|apply closed_ClosedChannelPanic]. Qed.

Lemma reach_GoroutinePanic sched :
  run exampleGoroutinePanic sched ∈ states_GoroutinePanic.
Proof. apply reach; [member|apply closed_GoroutinePanic]. Qed.

Lemma reach_Select sched : run exampleSelect sched ∈ states_Select.
Proof. apply reach; [member|apply closed_Select]. Qed.

Lemma reach_Timeout sched : run exampleTimeout sched ∈ states_Timeout.
Proof. apply reach; [member|apply closed_Timeout]. Qed.

Lemma reach_MultipleChannelsWithTimeout sched :
  run exampleMultipleChannelsWithTimeout sched ∈ states_MultipleChannelsWithTimeout.
Proof. apply reach; [member|apply closed_MultipleChannelsWithTimeout]. Qed.

Lemma reach_ContextUsage sched : run exampleContextUsage sched ∈ states_ContextUsage.
Proof. apply reach; [member|apply closed_ContextUsage]. Qed.

Lemma reach_processWithTimeout sched :
  run main_processWithTimeout sched ∈ states_processWithTimeout.
Proof. apply reach; [member|apply closed_processWithTimeout]. Qed.

End Reach.

(** ** The properties *)

(** X1. [pipeline] returns twice the sum of the even elements of its
    input, wrapped to 64 bits as Go's [int] arithmetic does, and exactly
    that number when it fits an [int]; the odd elements, the order of the
    elements and the way the input is cut into pieces do not matter. *)
Theorem pipeline_doubles_the_sum_of_the_evens (slice : list Z) :
  HowToUse.pipeline slice
    = GoInt.wrap (2 * Closures.total (List.filter Z.even slice)) /\
  (GoInt.in_range (2 * Closures.total (List.filter Z.even slice)) ->
   HowToUse.pipeline slice = 2 * Closures.total (List.filter Z.even slice)) /\
  (forall slice', slice ≡ₚ slice' -> HowToUse.pipeline slice = HowToUse.pipeline slice') /\
  (forall s1 s2, slice = s1 ++ s2 ->
     HowToUse.pipeline slice = GoInt.add (HowToUse.pipeline s1) (HowToUse.pipeline s2)) /\
  ((forall x, x ∈ slice -> Z.odd x = true) -> HowToUse.pipeline slice = 0).
Proof.
  rewrite pipeline_total. split; [done|]. split; [|split; [|split]].
  - intros Hr. by apply wrap_in_range.
  - intros slice' Hp. rewrite pipeline_total. do 2 f_equal.
    apply total_perm. clear -Hp. induction Hp; simpl.
    + done.
    + destruct (Z.even x); [by constructor|done].
    + destruct (Z.even x), (Z.even y); try done; try by constructor.
    + by etrans.
  - intros s1 s2 ->. rewrite !pipeline_total. unfold GoInt.add.
    rewrite wrap_add_l, wrap_add_r, List.filter_app, total_app. f_equal. lia.
  - intros Hodd. assert (Hnil : List.filter Z.even slice = []); [|by rewrite Hnil].
    induction slice as [|x s IH]; [done|]. simpl.
    pose proof (Hodd x ltac:(apply list_elem_of_here)) as Hx.
    rewrite <- Z.negb_even in Hx. apply negb_true_iff in Hx. rewrite Hx.
    apply IH. intros y Hy. apply Hodd. by apply list_elem_of_further.
Qed.

(** X2. [reduce] folds from the left: reducing a slice cut in two is
    reducing the second piece from the result of the first.  With
    addition as the accumulator it returns the initial value plus the sum
    of the elements, wrapped to 64 bits, whatever the order of the
    elements. *)
Theorem reduce_folds_from_the_left
    (s1 s2 : list Z) (accumulator : Z -> Z -> Z) (initial : Z) :
  HowToUse.reduce (s1 ++ s2) accumulator initial
    = HowToUse.reduce s2 accumulator (HowToUse.reduce s1 accumulator initial) /\
  HowToUse.reduce [] accumulator initial = initial /\
  (GoInt.in_range initial ->
   HowToUse.reduce s1 GoInt.add initial = GoInt.wrap (initial + Closures.total s1)) /\
  (s1 ≡ₚ s2 -> HowToUse.reduce s1 GoInt.add initial = HowToUse.reduce s2 GoInt.add initial).
Proof.
  split; [apply foldl_app|]. split; [done|]. split.
  - intros Hr. rewrite reduce_add. destruct s1; [|done].
    simpl. rewrite Z.add_0_r. symmetry. by apply wrap_in_range.
  - intros Hp. rewrite !reduce_add. pose proof (total_perm _ _ Hp) as Ht.
    destruct s1, s2; try done.
    + by apply Permutation_nil_cons in Hp.
    + symmetry in Hp. by apply Permutation_nil_cons in Hp.
    + by rewrite Ht.
Qed.

(** X3. [retry] calls [fn] until its first success and at most [retries]
    times: if call [k] (counted from zero) is the first to return nil and
    [k < retries], [retry] returns nil after exactly [k + 1] calls and
    [k] seconds of sleep; if none of the first [retries] calls succeeds
    it has made exactly [retries] calls, has slept one second after each
    of them, the last one too, and returns its own error, not the one
    [fn] gave.  With [retries <= 0] it returns that error without calling
    [fn] at all.  It returns nil exactly when one of the calls it may
    make succeeds. *)
Theorem retry_calls_until_the_first_success
    {W : Type} (fn : @Closures.closure W) (retries : Z) (w : W) :
  (forall k, (k < Z.to_nat retries)%nat ->
     Closures.attempt fn k w = None ->
     (forall j, (j < k)%nat -> Closures.attempt fn j w <> None) ->
     Closures.retry fn retries w
       = Closures.Outcome None (Closures.after fn (S k) w) (Z.of_nat k * Closures.Second)) /\
  ((forall k, (k < Z.to_nat retries)%nat -> Closures.attempt fn k w <> None) ->
     Closures.retry fn retries w
       = Closures.Outcome (Some "operation failed after retries"%string)
           (Closures.after fn (Z.to_nat retries) w)
           (Z.of_nat (Z.to_nat retries) * Closures.Second)) /\
  (retries <= 0 ->
     Closures.retry fn retries w
       = Closures.Outcome (Some "operation failed after retries"%string) w 0) /\
  (Closures.err (Closures.retry fn retries w) = None <->
   exists k, (k < Z.to_nat retries)%nat /\ Closures.attempt fn k w = None).
Proof.
  unfold Closures.retry. split; [|split; [|split]].
  - intros k Hk Hok Hbefore. by rewrite (retry_loop_succeeds fn _ k).
  - intros Hall. by rewrite retry_loop_fails.
  - intros Hle. by replace (Z.to_nat retries) with 0%nat by lia.
  - set (n := Z.to_nat retries).
    destruct (list_find (fun k => Closures.attempt fn k w = None) (seq 0 n))
      as [[i k]|] eqn:Hfind.
    + apply list_find_Some in Hfind as (Hi & Hok & Hbefore).
      apply lookup_seq in Hi as [-> Hlt]. simpl in *.
      rewrite (retry_loop_succeeds fn n i); [|done|done|].
      * split; [|done]. intros _. by exists i.
      * intros j Hj. apply (Hbefore j j); [|done]. apply lookup_seq. split; [done|lia].
    + rewrite list_find_None, Forall_forall in Hfind.
      rewrite retry_loop_fails.
      * split; [done|]. intros (k & Hk & Hok). exfalso.
        apply (Hfind k); [|done]. apply elem_of_seq. lia.
      * intros k Hk. apply Hfind, elem_of_seq. lia.
Qed.

(** X4. The closure that [throttle] returns lets a call through only when
    more than [duration] has passed since the stamp it took at the last
    call it let through: of two calls that both ran [fn], the later one
    read the clock more than [duration] after the stamp of the earlier
    one.  It runs [fn] once per call it lets through and drops the other
    calls; the very first call is let through for every [duration] short
    of the longest one. *)
Theorem throttle_separates_the_calls
    {W : Type} (fn : W -> W) (duration : Z) (w : W)
    (from : Z) (clocks : list (Z * Z)) :
  0 <= duration -> Throttle.ordered from clocks ->
  (forall i j ai bi aj bj, (i < j)%nat ->
     clocks !! i = Some (ai, bi) -> clocks !! j = Some (aj, bj) ->
     snd (Throttle.calls fn duration clocks (Throttle.throttle fn duration w)) !! i
       = Some true ->
     snd (Throttle.calls fn duration clocks (Throttle.throttle fn duration w)) !! j
       = Some true ->
     duration < aj - bi) /\
  Throttle.world (fst (Throttle.calls fn duration clocks (Throttle.throttle fn duration w)))
    = Nat.iter
        (length (List.filter id
           (snd (Throttle.calls fn duration clocks (Throttle.throttle fn duration w)))))
        fn w /\
  length (snd (Throttle.calls fn duration clocks (Throttle.throttle fn duration w)))
    = length clocks /\
  (duration < Closures.maxDuration -> clocks <> [] ->
   snd (Throttle.calls fn duration clocks (Throttle.throttle fn duration w)) !! 0%nat
     = Some true).
Proof.
  intros Hd Hord. split; [|split; [|split]].
  - intros i j ai bi aj bj Hij Hi Hj Ri Rj.
    by eapply (calls_separated fn duration clocks _ from i j ai bi aj bj).
  - apply (calls_world fn duration clocks).
  - apply calls_length.
  - intros Hmax Hne. destruct clocks as [|clock rest]; [done|].
    destruct (first_call_runs fn duration clock rest w Hmax) as (c & rans & ->). done.
Qed.

Lemma throttle_separates_the_calls_witness :
  Throttle.world (fst (Throttle.calls Z.succ 1000000000
     [(0, 0); (300000000, 300000000); (600000000, 600000000);
      (900000000, 900000000); (1200000000, 1200000001)]
     (Throttle.throttle Z.succ 1000000000 0))) = 2.
Proof.
  pose proof (throttle_separates_the_calls Z.succ 1000000000 0 0
    [(0, 0); (300000000, 300000000); (600000000, 600000000);
     (900000000, 900000000); (1200000000, 1200000001)]
    ltac:(lia) ltac:(simpl; lia)) as (_ & H & _).
  exact H.
Defined.

(** X5. [exampleSyncBestPractices] prints "All tasks processed" only after
    every task has printed its line: whenever the function has returned,
    whatever the schedule, the channel's capacity and the number of tasks,
    its output is the lines "Processing task i" of all the tasks, each
    exactly once, in some order, followed by "All tasks processed"; while
    it has not returned, its output is lines of tasks, none of them twice.
    And it can return: with a channel of at least one slot, the schedule
    that runs the goroutines one after the other ends with the function
    returned and the lines in the order of the tasks. *)
Theorem syncBestPractices_waits_for_every_task
    (cap n : nat) (sched : list SyncErrors.event) :
  (SyncErrors.returned (SyncErrors.run (SyncErrors.syncBestPractices cap n) sched) = true ->
   exists order,
     SyncErrors.out (SyncErrors.run (SyncErrors.syncBestPractices cap n) sched)
       = (Barrier.task_line <$> order) ++ ["All tasks processed"%string] /\
     order ≡ₚ seq 0 n) /\
  (SyncErrors.returned (SyncErrors.run (SyncErrors.syncBestPractices cap n) sched) = false ->
   exists order,
     SyncErrors.out (SyncErrors.run (SyncErrors.syncBestPractices cap n) sched)
       = Barrier.task_line <$> order /\
     NoDup order /\ forall i, i ∈ order -> (i < n)%nat) /\
  ((1 <= cap)%nat ->
   SyncErrors.returned
     (SyncErrors.run (SyncErrors.syncBestPractices cap n) (Barrier.in_turn n)) = true /\
   SyncErrors.out
     (SyncErrors.run (SyncErrors.syncBestPractices cap n) (Barrier.in_turn n))
     = (Barrier.task_line <$> seq 0 n) ++ ["All tasks processed"%string]).
Proof.
  split; [apply syncBestPractices_barrier|]. split.
  - intros Hr.
    destruct (sync_inv_run cap n sched) as [_ (order & Hout & Hnd & Hord) _ [Hnext Hle] _].
    rewrite Hr, app_nil_r in Hout. exists order. split; [done|]. split; [done|].
    intros i (g & Hg & _)%Hord. apply lookup_lt_Some in Hg. lia.
  - intros Hcap. by rewrite run_in_turn.
Qed.

(** X6. [exampleDataRace] counts every goroutine, however many there are:
    with its channel of one slot and [n] goroutines ([n] an [int]),
    whenever the function has returned the counter is [n] and the line it
    printed is "Counter: n", under every schedule; and it can return: the
    schedule that runs the goroutines one after the other ends that way.
    The one slot is what it takes: with two slots and two goroutines
    there is a schedule that loses an increment and prints "Counter: 1". *)
Theorem dataRace_counts_every_goroutine (n : nat) (sched : list SyncErrors.event) :
  Z.of_nat n <= GoInt.max_int ->
  (SyncErrors.returned (SyncErrors.run (SyncErrors.dataRace 1 n) sched) = true ->
   SyncErrors.counter (SyncErrors.run (SyncErrors.dataRace 1 n) sched) = Z.of_nat n /\
   SyncErrors.out (SyncErrors.run (SyncErrors.dataRace 1 n) sched)
     = ["Counter: " +:+ itoa (Z.of_nat n)]) /\
  (SyncErrors.returned (SyncErrors.run (SyncErrors.dataRace 1 n) sched) = false ->
   SyncErrors.out (SyncErrors.run (SyncErrors.dataRace 1 n) sched) = []) /\
  SyncErrors.returned (SyncErrors.run (SyncErrors.dataRace 1 n) (Barrier.in_turn n)) = true /\
  SyncErrors.out (SyncErrors.run (SyncErrors.dataRace 1 n) (Barrier.in_turn n))
    = ["Counter: " +:+ itoa (Z.of_nat n)] /\
  exists lossy,
    SyncErrors.returned (SyncErrors.run (SyncErrors.dataRace 2 2) lossy) = true /\
    SyncErrors.out (SyncErrors.run (SyncErrors.dataRace 2 2) lossy) = ["Counter: 1"%string].
Proof.
  intros Hn. split; [by apply dataRace_counts|]. split; [|split; [|split]].
  - intros Hr. destruct (race_inv_run n Hn sched) as [_ _ _ _ _ Hout _].
    by rewrite Hout, Hr.
  - by rewrite race_in_turn.
  - by rewrite race_in_turn.
  - exists ([SyncErrors.Main; SyncErrors.Main; SyncErrors.Goroutine 0;
             SyncErrors.Goroutine 1; SyncErrors.Goroutine 0; SyncErrors.Goroutine 1;
             SyncErrors.Goroutine 0; SyncErrors.Goroutine 1; SyncErrors.Goroutine 0;
             SyncErrors.Goroutine 1; SyncErrors.Goroutine 0; SyncErrors.Goroutine 1;
             SyncErrors.Main])%nat.
    by vm_compute.
Qed.

Lemma dataRace_counts_every_goroutine_witness :
  Z.of_nat 3 <= GoInt.max_int /\
  SyncErrors.out (SyncErrors.run (SyncErrors.dataRace 1 3) (Barrier.in_turn 3))
    = ["Counter: 3"%string].
Proof.
  assert (H3 : Z.of_nat 3 <= GoInt.max_int).
  { unfold GoInt.max_int. simpl. lia. }
  split; [exact H3|].
  exact (proj1 (proj2 (proj2 (proj2 (dataRace_counts_every_goroutine 3 [] H3))))).
Defined.

(** X7. A goroutine that waits for [ctx.Done()] prints its line once, and
    only when the context is cancelled.  For a function that starts each
    of its goroutines once (as [exampleContextPassing] does), under every
    schedule and with or without a deadline: the output is the lines of
    the goroutines that have printed, none of them twice, all of them
    goroutines of the function; and as long as the context is active
    nothing is printed at all. *)
Theorem waiting_goroutines_print_once_after_cancel
    (deadline : bool) (prog : list Context.instr) (sched : list Context.event) :
  NoDup (Waiters.spawned prog) ->
  (exists order,
     Context.out (Context.run deadline prog sched) = Context.line <$> order /\
     NoDup order /\
     (forall i, i ∈ order <->
        Context.gors (Context.run deadline prog sched) !! i = Some Context.Printed) /\
     (forall i, i ∈ order -> i ∈ Waiters.spawned prog)) /\
  (Context.ctx (Context.run deadline prog sched) = None ->
   Context.out (Context.run deadline prog sched) = []).
Proof.
  intros Hnd.
  destruct (print_inv_run deadline prog sched Hnd)
    as [(order & Hout & Hno & Hord) Hdone _ _].
  split.
  - exists order. split; [done|]. split; [done|]. split; [done|].
    intros i Hi%Hord.
    destruct (gors_of_prog sched (Context.start deadline prog) i) as [Hs|Hs].
    + fold (Context.run deadline prog sched). by rewrite Hi.
    + simpl in Hs. rewrite lookup_empty in Hs. by destruct Hs.
    + done.
  - intros Hctx. destruct order as [|i order]; [done|]. exfalso.
    assert (Hi : i ∈ i :: order) by apply list_elem_of_here.
    apply Hord, Hdone in Hi. by rewrite Hctx in Hi.
Qed.

Lemma waiting_goroutines_print_once_after_cancel_witness :
  NoDup (Waiters.spawned Context.exampleContextPassing) /\
  (Context.ctx (Context.run false Context.exampleContextPassing
                  [Context.Main; Context.Goroutine 1; Context.Main; Context.Goroutine 2])
     = None ->
   Context.out (Context.run false Context.exampleContextPassing
                  [Context.Main; Context.Goroutine 1; Context.Main; Context.Goroutine 2])
     = []).
Proof.
  assert (Hnd : NoDup (Waiters.spawned Context.exampleContextPassing)).
  { apply (NoDup_cons_2 1%nat [2%nat]).
    - intros [=]%list_elem_of_singleton.
    - apply NoDup_singleton. }
  split; [exact Hnd|].
  exact (proj2 (waiting_goroutines_print_once_after_cancel false
                  Context.exampleContextPassing
                  [Context.Main; Context.Goroutine 1; Context.Main; Context.Goroutine 2]
                  Hnd)).
Defined.

(** X8. [json.Unmarshal] stores only the members the document has.  The
    document that [json.Marshal] writes for a [Person] with an empty
    address has no address member ([omitempty]), so unmarshalling it into
    a [Person] that already holds an address leaves that address in
    place: the result has the name and the age of the marshalled
    [Person] and the address of the target; only a non-empty address
    overwrites the target's.  The error is nil either way. *)
Theorem unmarshal_keeps_what_the_document_leaves_out
    (how : JsonText.replacement) (p target : Json.Person) :
  GoInt.in_range (Json.Age p) ->
  JsonText.Unmarshal (JsonText.Marshal how p) target = (Coerce.stored p target, None) /\
  (Json.Address p = ""%string ->
   Json.Address (fst (JsonText.Unmarshal (JsonText.Marshal how p) target))
     = Json.Address target) /\
  (Json.Address p <> ""%string ->
   Json.Address (fst (JsonText.Unmarshal (JsonText.Marshal how p) target))
     = Coerce.coerce (Json.Address p)) /\
  Json.Name (fst (JsonText.Unmarshal (JsonText.Marshal how p) target))
    = Coerce.coerce (Json.Name p) /\
  Json.Age (fst (JsonText.Unmarshal (JsonText.Marshal how p) target)) = Json.Age p.
Proof.
  intros Hage.
  assert (Hrt : JsonText.Unmarshal (JsonText.Marshal how p) target
                = (Coerce.stored p target, None)).
  { rewrite Unmarshal_Marshal_text, Unmarshal_Marshal_into by done. done. }
  rewrite Hrt. cbn [fst]. unfold Coerce.stored. cbn [Json.Name Json.Age Json.Address].
  split; [done|]. split; [|split; [|done]].
  - intros ->. done.
  - intros Hne. by destruct (String.eqb_spec (Json.Address p) "").
Qed.

Lemma unmarshal_keeps_what_the_document_leaves_out_witness :
  GoInt.in_range 42 /\
  fst (JsonText.Unmarshal
         (JsonText.Marshal JsonText.Escape
            {| Json.Name := "Bob"; Json.Age := 42; Json.Address := "" |})
         Json.alice)
  = {| Json.Name := "Bob"; Json.Age := 42; Json.Address := "123 Main St" |}.
Proof.
  assert (Hage : GoInt.in_range 42).
  { unfold GoInt.in_range, GoInt.min_int, GoInt.max_int. simpl. lia. }
  split; [exact Hage|].
  pose proof (proj1 (unmarshal_keeps_what_the_document_leaves_out JsonText.Escape
                       {| Json.Name := "Bob"; Json.Age := 42; Json.Address := "" |}
                       Json.alice Hage)) as H.
  rewrite H. reflexivity.
Defined.

(** X9. [exampleClosedChannelPanic] never ends in a panic, whatever the
    schedule: the send on the closed channel panics in its goroutine and
    the deferred [recover] takes the panic.  What the function prints is
    always a beginning of the three lines "1", "0" and "Recovered from
    panic: send on closed channel": the first receive gets the value
    sent, the second gets the zero value of the closed channel, never
    anything else.  When it returns it has printed "1" and "0"; the third
    line is there as well when the last goroutine has had its turns. *)
Theorem closed_channel_panic_is_recovered (sched : list Chans.event) :
  Chans.crashed (Chans.run Chans.exampleClosedChannelPanic sched) = None /\
  Chans.out (Chans.run Chans.exampleClosedChannelPanic sched)
    `prefix_of` ["1"; "0"; "Recovered from panic: send on closed channel"]%string /\
  (Chans.returned (Chans.run Chans.exampleClosedChannelPanic sched) = true ->
   ["1"; "0"]%string `prefix_of` Chans.out (Chans.run Chans.exampleClosedChannelPanic sched)) /\
  exists expected,
    Chans.returned (Chans.run Chans.exampleClosedChannelPanic expected) = true /\
    Chans.out (Chans.run Chans.exampleClosedChannelPanic expected)
      = ["1"; "0"; "Recovered from panic: send on closed channel"]%string.
Proof.
  pose proof (reach_ClosedChannelPanic sched) as Hs.
  set (s := Chans.run Chans.exampleClosedChannelPanic sched) in *. clearbody s.
  split; [|split; [|split]].
  - unfold Chans.states_ClosedChannelPanic in Hs. each_state Hs; reflexivity.
  - unfold Chans.states_ClosedChannelPanic in Hs. each_state Hs; by eexists.
  - unfold Chans.states_ClosedChannelPanic in Hs. each_state Hs; vm_compute;
      first [discriminate | intros _; by eexists].
  - exists [Chans.Step 0 0; Chans.Step 0 0; Chans.Step 1 0; Chans.Step 0 0; Chans.Step 0 0; Chans.Step 1 0; Chans.Step 0 0;
            Chans.Step 0 0; Chans.Step 0 0; Chans.Step 2 0; Chans.Step 2 0; Chans.Step 2 0; Chans.Step 2 0; Chans.Step 2 0;
            Chans.Step 2 0; Chans.Step 0 0]%nat.
    by vm_compute.
Qed.

(** X10. The panic of the goroutine of [exampleGoroutinePanic] never ends
    the program, whatever the schedule: its deferred [recover] takes it.
    The function prints "Main goroutine continues" before it returns, the
    goroutine prints its line once or not yet, and nothing else is ever
    printed. *)
Theorem goroutine_panic_is_recovered (sched : list Chans.event) :
  Chans.crashed (Chans.run Chans.exampleGoroutinePanic sched) = None /\
  Chans.out (Chans.run Chans.exampleGoroutinePanic sched)
    ∈ [ []; ["Recovered in goroutine: goroutine panic"];
        ["Main goroutine continues"];
        ["Recovered in goroutine: goroutine panic"; "Main goroutine continues"];
        ["Main goroutine continues"; "Recovered in goroutine: goroutine panic"] ]%string /\
  (Chans.returned (Chans.run Chans.exampleGoroutinePanic sched) = true ->
   "Main goroutine continues"%string ∈ Chans.out (Chans.run Chans.exampleGoroutinePanic sched)) /\
  exists expected,
    Chans.returned (Chans.run Chans.exampleGoroutinePanic expected) = true /\
    Chans.out (Chans.run Chans.exampleGoroutinePanic expected)
      = ["Recovered in goroutine: goroutine panic"; "Main goroutine continues"]%string.
Proof.
  pose proof (reach_GoroutinePanic sched) as Hs.
  set (s := Chans.run Chans.exampleGoroutinePanic sched) in *. clearbody s.
  split; [|split; [|split]].
  - unfold Chans.states_GoroutinePanic in Hs. each_state Hs; reflexivity.
  - unfold Chans.states_GoroutinePanic in Hs. each_state Hs; vm_compute;
      repeat first [apply list_elem_of_here | apply list_elem_of_further].
  - unfold Chans.states_GoroutinePanic in Hs. each_state Hs; vm_compute;
      first [discriminate
            | intros _; repeat first [apply list_elem_of_here | apply list_elem_of_further]].
  - exists [Chans.Step 0 0; Chans.Step 1 0; Chans.Step 1 0; Chans.Step 1 0; Chans.Step 1 0; Chans.Step 1 0; Chans.Step 1 0;
            Chans.Step 0 0; Chans.Step 0 0]%nat.
    by vm_compute.
Qed.

(** X11. [exampleSelect] prints its heading and then exactly one of the
    two messages, under every schedule, and nothing after it; and at no
    time have both senders ended: the goroutine whose message [select]
    did not take stays parked in its send for good, since nobody
    receives from its channel any more.  The run in which the first
    goroutine sends first prints the message of channel 1. *)
Theorem select_takes_one_message (sched : list Chans.event) :
  Chans.crashed (Chans.run Chans.exampleSelect sched) = None /\
  Chans.out (Chans.run Chans.exampleSelect sched)
    ∈ [ []; ["--- Пример 1: Использование select ---"];
        ["--- Пример 1: Использование select ---"; "Сообщение из канала 1"];
        ["--- Пример 1: Использование select ---"; "Сообщение из канала 2"] ]%string /\
  (Chans.returned (Chans.run Chans.exampleSelect sched) = true ->
   length (Chans.out (Chans.run Chans.exampleSelect sched)) = 2%nat) /\
  Chans.ended 1 (Chans.run Chans.exampleSelect sched) && Chans.ended 2 (Chans.run Chans.exampleSelect sched) = false /\
  exists expected,
    Chans.returned (Chans.run Chans.exampleSelect expected) = true /\
    Chans.out (Chans.run Chans.exampleSelect expected)
      = ["--- Пример 1: Использование select ---"; "Сообщение из канала 1"]%string.
Proof.
  pose proof (reach_Select sched) as Hs.
  set (s := Chans.run Chans.exampleSelect sched) in *. clearbody s.
  split; [|split; [|split; [|split]]].
  - unfold Chans.states_Select in Hs. each_state Hs; reflexivity.
  - unfold Chans.states_Select in Hs. each_state Hs; vm_compute;
      repeat first [apply list_elem_of_here | apply list_elem_of_further].
  - unfold Chans.states_Select in Hs. each_state Hs; vm_compute;
      first [discriminate | reflexivity | done].
  - unfold Chans.states_Select in Hs. each_state Hs; reflexivity.
  - exists [Chans.Step 0 0; Chans.Step 0 0; Chans.Step 0 0; Chans.Step 0 0; Chans.Step 0 0; Chans.Step 1 0; Chans.Step 1 0;
            Chans.Step 0 0; Chans.Step 0 0]%nat.
    by vm_compute.
Qed.

(** X12. [exampleTimeout] prints its heading and then exactly one line,
    the data or the time-out message, under every schedule.  Once it has
    printed the time-out message the sending goroutine never ends: its
    send finds no receiver.  The run in which the timer comes first
    prints the time-out message. *)
Theorem timeout_leaves_the_sender_blocked (sched : list Chans.event) :
  Chans.crashed (Chans.run Chans.exampleTimeout sched) = None /\
  Chans.out (Chans.run Chans.exampleTimeout sched)
    ∈ [ []; [Chans.nl "--- Пример 2: Тайм-ауты с time.After ---"];
        [Chans.nl "--- Пример 2: Тайм-ауты с time.After ---"; "Данные получены"];
        [Chans.nl "--- Пример 2: Тайм-ауты с time.After ---";
         "Тайм-аут: данные не получены вовремя"] ]%string /\
  (Chans.returned (Chans.run Chans.exampleTimeout sched) = true ->
   length (Chans.out (Chans.run Chans.exampleTimeout sched)) = 2%nat) /\
  ("Тайм-аут: данные не получены вовремя"%string ∈ Chans.out (Chans.run Chans.exampleTimeout sched) ->
   Chans.ended 1 (Chans.run Chans.exampleTimeout sched) = false) /\
  exists expected,
    Chans.returned (Chans.run Chans.exampleTimeout expected) = true /\
    Chans.out (Chans.run Chans.exampleTimeout expected)
      = [Chans.nl "--- Пример 2: Тайм-ауты с time.After ---";
         "Тайм-аут: данные не получены вовремя"]%string.
Proof.
  pose proof (reach_Timeout sched) as Hs.
  set (s := Chans.run Chans.exampleTimeout sched) in *. clearbody s.
  split; [|split; [|split; [|split]]].
  - unfold Chans.states_Timeout in Hs. each_state Hs; reflexivity.
  - unfold Chans.states_Timeout in Hs. each_state Hs; vm_compute;
      repeat first [apply list_elem_of_here | apply list_elem_of_further].
  - unfold Chans.states_Timeout in Hs. each_state Hs; vm_compute;
      first [discriminate | reflexivity | done].
  - unfold Chans.states_Timeout in Hs. each_state Hs; vm_compute;
      first [reflexivity | intros H; exfalso; not_member H].
  - exists [Chans.Step 0 0; Chans.Step 0 0; Chans.Step 0 0; Chans.Step 0 1; Chans.Step 0 0]%nat.
    by vm_compute.
Qed.

(** X13. [exampleMultipleChannelsWithTimeout] prints its heading and then
    exactly one line: the data of channel 1, the data of channel 2 or the
    time-out message, under every schedule.  At no time have both senders
    ended, and after the time-out message neither of them ever ends.  The
    run in which the first goroutine sends first prints its data. *)
Theorem select_with_timeout_takes_one_case (sched : list Chans.event) :
  Chans.crashed (Chans.run Chans.exampleMultipleChannelsWithTimeout sched) = None /\
  Chans.out (Chans.run Chans.exampleMultipleChannelsWithTimeout sched)
    ∈ [ []; [Chans.nl "--- Пример 3: Несколько каналов и тайм-ауты ---"];
        [Chans.nl "--- Пример 3: Несколько каналов и тайм-ауты ---"; "Данные из канала 1"];
        [Chans.nl "--- Пример 3: Несколько каналов и тайм-ауты ---"; "Данные из канала 2"];
        [Chans.nl "--- Пример 3: Несколько каналов и тайм-ауты ---";
         "Тайм-аут: ни один из каналов не ответил вовремя"] ]%string /\
  (Chans.returned (Chans.run Chans.exampleMultipleChannelsWithTimeout sched) = true ->
   length (Chans.out (Chans.run Chans.exampleMultipleChannelsWithTimeout sched)) = 2%nat) /\
  Chans.ended 1 (Chans.run Chans.exampleMultipleChannelsWithTimeout sched)
    && Chans.ended 2 (Chans.run Chans.exampleMultipleChannelsWithTimeout sched) = false /\
  ("Тайм-аут: ни один из каналов не ответил вовремя"%string
     ∈ Chans.out (Chans.run Chans.exampleMultipleChannelsWithTimeout sched) ->
   Chans.ended 1 (Chans.run Chans.exampleMultipleChannelsWithTimeout sched) = false /\
   Chans.ended 2 (Chans.run Chans.exampleMultipleChannelsWithTimeout sched) = false) /\
  exists expected,
    Chans.returned (Chans.run Chans.exampleMultipleChannelsWithTimeout expected) = true /\
    Chans.out (Chans.run Chans.exampleMultipleChannelsWithTimeout expected)
      = [Chans.nl "--- Пример 3: Несколько каналов и тайм-ауты ---";
         "Данные из канала 1"]%string.
Proof.
  pose proof (reach_MultipleChannelsWithTimeout sched) as Hs.
  set (s := Chans.run Chans.exampleMultipleChannelsWithTimeout sched) in *. clearbody s.
  split; [|split; [|split; [|split; [|split]]]].
  - unfold Chans.states_MultipleChannelsWithTimeout in Hs. each_state Hs; reflexivity.
  - unfold Chans.states_MultipleChannelsWithTimeout in Hs. each_state Hs; vm_compute;
      repeat first [apply list_elem_of_here | apply list_elem_of_further].
  - unfold Chans.states_MultipleChannelsWithTimeout in Hs. each_state Hs; vm_compute;
      first [discriminate | reflexivity | done].
  - unfold Chans.states_MultipleChannelsWithTimeout in Hs. each_state Hs; reflexivity.
  - unfold Chans.states_MultipleChannelsWithTimeout in Hs. each_state Hs; vm_compute;
      first [by split | intros H; exfalso; not_member H].
  - exists [Chans.Step 0 0; Chans.Step 0 0; Chans.Step 0 0; Chans.Step 0 0; Chans.Step 0 0; Chans.Step 1 0; Chans.Step 1 0;
            Chans.Step 0 0; Chans.Step 0 0]%nat.
    by vm_compute.
Qed.

(** X14. The goroutine of [exampleContextUsage] prints at most one line,
    under every schedule.  When that line reports the context, the error
    it shows is never nil; and as long as the function has not returned,
    the context is not cancelled by [cancel] (that call is deferred), so
    the error shown is the deadline's.  When the function has returned
    the context is cancelled.  The run in which the deadline passes first
    prints "context deadline exceeded". *)
Theorem context_usage_prints_one_line (sched : list Chans.event) :
  Chans.crashed (Chans.run Chans.exampleContextUsage sched) = None /\
  Chans.out (Chans.run Chans.exampleContextUsage sched)
    ∈ [ []; ["Работа завершена"];
        ["Контекст отменен: context deadline exceeded"];
        ["Контекст отменен: context canceled"] ]%string /\
  (Chans.returned (Chans.run Chans.exampleContextUsage sched) = false ->
   Chans.out (Chans.run Chans.exampleContextUsage sched) <> ["Контекст отменен: context canceled"]%string /\
   Chans.ctx (Chans.run Chans.exampleContextUsage sched) <> Some Context.Canceled) /\
  (Chans.returned (Chans.run Chans.exampleContextUsage sched) = true ->
   Context.done (Chans.ctx (Chans.run Chans.exampleContextUsage sched)) = true) /\
  exists expected,
    Chans.returned (Chans.run Chans.exampleContextUsage expected) = true /\
    Chans.out (Chans.run Chans.exampleContextUsage expected)
      = ["Контекст отменен: context deadline exceeded"]%string.
Proof.
  pose proof (reach_ContextUsage sched) as Hs.
  set (s := Chans.run Chans.exampleContextUsage sched) in *. clearbody s.
  split; [|split; [|split; [|split]]].
  - unfold Chans.states_ContextUsage in Hs. each_state Hs; reflexivity.
  - unfold Chans.states_ContextUsage in Hs. each_state Hs; vm_compute;
      repeat first [apply list_elem_of_here | apply list_elem_of_further].
  - unfold Chans.states_ContextUsage in Hs. each_state Hs; vm_compute;
      first [discriminate | intros _; split; discriminate].
  - unfold Chans.states_ContextUsage in Hs. each_state Hs; vm_compute;
      first [discriminate | reflexivity | done].
  - exists [Chans.Step 0 0; Chans.Step 0 0; Chans.Step 0 0; Chans.Timer; Chans.Step 1 1; Chans.Step 1 0;
            Chans.Step 0 0; Chans.Step 0 0; Chans.Step 0 0]%nat.
    by vm_compute.
Qed.

(** X15. [main] does not get past [wg.Wait()] before [processWithTimeout]
    is done: under every schedule, when that part of [main] has returned,
    the goroutine has printed exactly one line, "Process cancelled" or
    "Process completed", has ended, and the wait group is back at zero;
    nothing else is ever printed, and the wait group never panics.  The
    run in which [cancel()] comes before the timer prints "Process
    cancelled". *)
Theorem main_waits_for_processWithTimeout (sched : list Chans.event) :
  Chans.crashed (Chans.run Chans.main_processWithTimeout sched) = None /\
  Chans.out (Chans.run Chans.main_processWithTimeout sched)
    ∈ [ []; ["Process cancelled"]; ["Process completed"] ]%string /\
  (Chans.returned (Chans.run Chans.main_processWithTimeout sched) = true ->
   length (Chans.out (Chans.run Chans.main_processWithTimeout sched)) = 1%nat /\
   Chans.ended 1 (Chans.run Chans.main_processWithTimeout sched) = true /\
   Chans.wg (Chans.run Chans.main_processWithTimeout sched) = 0%nat) /\
  exists expected,
    Chans.returned (Chans.run Chans.main_processWithTimeout expected) = true /\
    Chans.out (Chans.run Chans.main_processWithTimeout expected) = ["Process cancelled"]%string.
Proof.
  pose proof (reach_processWithTimeout sched) as Hs.
  set (s := Chans.run Chans.main_processWithTimeout sched) in *. clearbody s.
  split; [|split; [|split]].
  - unfold Chans.states_processWithTimeout in Hs. each_state Hs; reflexivity.
  - unfold Chans.states_processWithTimeout in Hs. each_state Hs; vm_compute;
      repeat first [apply list_elem_of_here | apply list_elem_of_further].
  - unfold Chans.states_processWithTimeout in Hs. each_state Hs; vm_compute;
      first [discriminate | done].
  - exists [Chans.Step 0 0; Chans.Step 0 0; Chans.Step 0 0; Chans.Step 0 0; Chans.Step 0 0; Chans.Step 1 0; Chans.Step 1 1;
            Chans.Step 1 0; Chans.Step 1 0; Chans.Step 1 0; Chans.Step 0 0]%nat.
    by vm_compute.
Qed.
